(** * Smart river name placement: a shallow embedding of the geometry and
      scoring pipeline (RiverPathParser, WKTParser, GeometryAnalyzer,
      PlacementScorer, TextPlacer, the computation of
      UIController.renderPipeline and CanvasRenderer.fitToCanvas) and the
      properties checked against it.

    Numbers.  The JavaScript sources compute with IEEE doubles.  The
    modules named after the classes of the sources idealise every finite
    number as a real ([R]): [Math.sqrt] is [sqrt], [Math.acos] is [acos],
    [Math.PI] is [PI], [Math.max]/[Math.min] are [Rmax]/[Rmin].  Rounding,
    overflow and signed zeros are outside that model, and what is proved
    over it describes the computation in exact arithmetic.  Where the
    sources can meet a value that is not a finite number ([null],
    [undefined], [NaN]) and a property depends on it, the value is
    modelled explicitly ([option], a tagged value or an error result).
    Module [Doubles] embeds the analysis, the scoring and the text
    measurement without a canvas a second time, over the binary64 numbers
    of the kernel, for the properties in which the rounding or the
    overflow of the program matters.

    Indices are natural numbers; array reads that the sources guard by a
    bound test use a total read with a default that is never reached.

    Loops.  A [for] loop over an index range is a fold or a recursion over
    the list of its indices, [break] and an early [return] ending the
    recursion; a loop whose bound is not an index range runs on fuel that
    is shown to suffice.

    Host capabilities.  The text metrics of the canvas and the reading of
    WKT text ([parsePolygon]: a regular expression and [parseFloat]) are
    Section variables of the definitions that call them, and so are the
    values of [Math.acos] and [Math.atan2] that ECMAScript leaves to the
    host, in [Doubles]. *)

From Stdlib Require Import Reals Lra Lia List Arith ZArith String Ascii.
From Corelib Require PrimFloat.
From stdpp Require Import base decidable sets gmap list.
Import ListNotations.

Local Open Scope nat_scope.

(* ====================================================================== *)
(** * Data model *)
(* ====================================================================== *)

(** [{x, y}] objects. *)
Record Point := mkPoint { px : R; py : R }.

Definition origin : Point := mkPoint 0%R 0%R.

Record Bounds := mkBounds { minX : R; maxX : R; minY : R; maxY : R }.

(** The RiverPath object built by [RiverPathParser.parse]:
    [{points, widths, length, bounds}].  [widths] is [null] or an array
    whose entries are numbers or [null]. *)
Record RiverPath := mkRiverPath {
  points : list Point;
  widths : option (list (option R));
  path_length : R;
  bounds : Bounds
}.

Inductive Reason := SharpCurve | NarrowSection | EdgeSection.

(** Segment objects [{startIdx, endIdx, length, reason}]. *)
Record Segment := mkSegment {
  seg_startIdx : nat;
  seg_endIdx : nat;
  seg_length : R;
  seg_reason : option Reason
}.

Record EdgeSections := mkEdgeSections { edge_start : Segment; edge_end : Segment }.

Record GeometryMetrics := mkGeometryMetrics {
  curvatures : list R;
  sharpCurves : list Segment;
  narrowSections : list Segment;
  edgeSections : EdgeSections;
  avgCurvature : R;
  maxCurvature : R
}.

Record Scores := mkScores {
  sc_curvature : R;
  sc_width : R;
  sc_position : R;
  sc_straightness : R
}.

(** Candidate objects [{segment, score, scores, centerPoint}]. *)
Record Candidate := mkCandidate {
  segment : Segment;
  score : R;
  scores : Scores;
  centerPoint : option Point
}.

(** Thrown or returned JavaScript errors.  [TypeError] is the engine's error
    for reading a property of [undefined]. *)
Inductive JsError :=
| Error (message : string)
| TypeError.

Inductive Result (A : Type) :=
| Ok (a : A)
| Throw (e : JsError).
Arguments Ok {A} a.
Arguments Throw {A} e.

(** [points[i]] where the sources have already tested that [i] is in range. *)
Definition pt (pts : list Point) (i : nat) : Point := nth i pts origin.

(** [Math.sqrt(Math.pow(p2.x - p1.x, 2) + Math.pow(p2.y - p1.y, 2))]. *)
Definition distance (p1 p2 : Point) : R :=
  sqrt ((px p2 - px p1) ^ 2 + (py p2 - py p1) ^ 2)%R.

(** [for (let i = a; i <= b; i++)] visits these indices in this order. *)
Definition range_incl (a b : nat) : list nat := seq a (S b - a).

(** [for (let i = a; i < b; i++)] visits these indices in this order. *)
Definition range_excl (a b : nat) : list nat := seq a (b - a).

(** Idealised [Math.atan2(y, x)] (signed zeros are not distinguished). *)
Definition atan2 (y x : R) : R :=
  if Rlt_dec 0 x then atan (y / x)
  else if Rlt_dec x 0 then
    (if Rle_dec 0 y then atan (y / x) + PI else atan (y / x) - PI)%R
  else if Rlt_dec 0 y then (PI / 2)%R
  else if Rlt_dec y 0 then (- PI / 2)%R
  else 0%R.

(* ====================================================================== *)
(** * WKTParser (src/unnamed/part_001, second file) *)
(* ====================================================================== *)

Module WKTParser.

Local Open Scope R_scope.

(** A sample position along the primary axis.  With a single sample the
    source divides [width * 0] by [numSamples - 1 = 0]; the quotient is
    [NaN], rendered as [None]. *)
Definition samplePosition (minV extent : R) (i numSamples : nat) : option R :=
  if (numSamples - 1 =? 0)%nat then None
  else Some (minV + (extent * INR i) / INR (numSamples - 1)).

Inductive Direction := vertical | horizontal.

(** Body of the edge loop of [_findIntersections] for the edge from [p1] to
    [p2]: the coordinate of the crossing on the other axis, if any. *)
Definition edgeIntersection (p1 p2 : R * R) (value : R) (direction : Direction)
    : list Point :=
  match direction with
  | vertical =>
      if (if Rle_dec (fst p1) value then (if Rge_dec (fst p2) value then true else false)
          else false)
         || (if Rge_dec (fst p1) value then (if Rle_dec (fst p2) value then true else false)
             else false)
      then
        if Req_dec_T (fst p2) (fst p1) then []
        else
          let t := (value - fst p1) / (fst p2 - fst p1) in
          let y := snd p1 + t * (snd p2 - snd p1) in
          [mkPoint value y]
      else []
  | horizontal =>
      if (if Rle_dec (snd p1) value then (if Rge_dec (snd p2) value then true else false)
          else false)
         || (if Rge_dec (snd p1) value then (if Rle_dec (snd p2) value then true else false)
             else false)
      then
        if Req_dec_T (snd p2) (snd p1) then []
        else
          let t := (value - snd p1) / (snd p2 - snd p1) in
          let x := fst p1 + t * (fst p2 - fst p1) in
          [mkPoint x value]
      else []
  end.

(** [_findIntersections].  Every comparison with [NaN] is false, so a [NaN]
    sample position meets no edge. *)
Definition _findIntersections (polygonCoords : list (R * R)) (value : option R)
    (direction : Direction) : list Point :=
  match value with
  | None => []
  | Some value =>
      let n := length polygonCoords in
      flat_map (fun i =>
                  let p1 := nth i polygonCoords (0, 0) in
                  let p2 := nth ((i + 1) mod n) polygonCoords (0, 0) in
                  edgeIntersection p1 p2 value direction)
               (seq 0 n)
  end.

(** [_smoothCenterline]: a moving average over the window
    [max(0, i - 1) .. min(length, i + 2) - 1]. *)
Definition _smoothCenterline (centerline : list (R * R * R)) : list (R * R * R) :=
  if (length centerline <? 3)%nat then centerline
  else
    map (fun i =>
           let start := (i - 1)%nat in
           let stop := Nat.min (length centerline) (i + 2) in
           let '(sumX, sumY, sumW, count) :=
             foldl (fun '(sumX, sumY, sumW, count) j =>
                      let '(cx, cy, cw) := nth j centerline (0, 0, 0) in
                      (sumX + cx, sumY + cy, sumW + cw, S count))
                   (0, 0, 0, 0%nat) (range_excl start stop) in
           (sumX / INR count, sumY / INR count, sumW / INR count))
        (seq 0 (length centerline)).

(** The smallest and the largest element, which the source reads as the
    first and the last element of the sorted array. *)
Definition listMin (d : R) (l : list R) : R := foldl Rmin d l.
Definition listMax (d : R) (l : list R) : R := foldl Rmax d l.

(** The intersections found at sample [i] of a sampling loop of
    [extractCenterline]: a vertical line when sampling along x, a
    horizontal line when sampling along y. *)
Definition sampleIntersections (polygonCoords : list (R * R)) (isHorizontal : bool)
    (minV extent : R) (numSamples i : nat) : list Point :=
  let direction := if isHorizontal then vertical else horizontal in
  _findIntersections polygonCoords (samplePosition minV extent i numSamples) direction.

(** One iteration of a sampling loop: the pushed entry, if the sample has
    two or more intersections. *)
Definition sampleEntry (polygonCoords : list (R * R)) (isHorizontal : bool)
    (minV extent : R) (numSamples i : nat) : list (R * R * R) :=
  let value := samplePosition minV extent i numSamples in
  let intersections :=
    sampleIntersections polygonCoords isHorizontal minV extent numSamples i in
  if (2 <=? length intersections)%nat then
    let values := map (if isHorizontal then py else px) intersections in
    match values, value with
    | v0 :: vs, Some value =>
        let lo := listMin v0 vs in
        let hi := listMax v0 vs in
        let center := (lo + hi) / 2 in
        let riverWidth := hi - lo in
        if isHorizontal then [(value, center, riverWidth)]
        else [(center, value, riverWidth)]
    | _, _ => []
    end
  else [].

(** The head of [extractCenterline]: the primary direction, the lower
    bound and the extent of the bounding box along it, and the number of
    samples.  The bounding box folds start from the first vertex instead of
    [Infinity]/[-Infinity]; the ring has three or more vertices here. *)
Definition samplingFrame (polygonCoords : list (R * R)) : bool * R * R * nat :=
  let xs := map fst polygonCoords in
  let ys := map snd polygonCoords in
  let minX := listMin (hd 0 xs) xs in
  let maxX := listMax (hd 0 xs) xs in
  let minY := listMin (hd 0 ys) ys in
  let maxY := listMax (hd 0 ys) ys in
  let width := maxX - minX in
  let height := maxY - minY in
  let isHorizontal := if Rgt_dec width height then true else false in
  let numSamples := Nat.min 100 (length polygonCoords / 2) in
  if isHorizontal then (true, minX, width, numSamples)
  else (false, minY, height, numSamples).

Definition extractCenterline (polygonCoords : list (R * R))
    : Result (list (R * R * R)) :=
  if (length polygonCoords <? 3)%nat then
    Throw (Error "Invalid polygon coordinates")
  else
    let '(isHorizontal, minV, extent, numSamples) := samplingFrame polygonCoords in
    let centerline :=
      flat_map (sampleEntry polygonCoords isHorizontal minV extent numSamples)
               (seq 0 numSamples) in
    Ok (_smoothCenterline centerline).

End WKTParser.

(** The last test of [WKTParser.parsePolygon] (src/unnamed/part_001). *)
Module WKTPolygon.

Section ReadPairs.

(** The text handling of [parsePolygon]: the tests on the string, the
    regular expression, the split at commas and [parseFloat].  It gives
    the coordinate pairs the loop has pushed, or the error thrown before
    the loop. *)
Variable readPairs : string -> Result (list (R * R)).

(** [parsePolygon]: the pairs read from the text, turned down when there
    are fewer than three. *)
Definition parsePolygon (wktString : string) : Result (list (R * R)) :=
  match readPairs wktString with
  | Throw error => Throw error
  | Ok coordinates =>
      if (length coordinates <? 3)%nat
      then Throw (Error "POLYGON must have at least 3 coordinates")
      else Ok coordinates
  end.

End ReadPairs.

End WKTPolygon.

(* ====================================================================== *)
(** * RiverPathParser (src/unnamed/part_001, first file) *)
(* ====================================================================== *)

(** Values a caller can put in the coordinate array. *)
#[warnings="-register-all"]
Inductive JsValue :=
| JNumber (r : R)            (** a finite number *)
| JNonFinite                 (** [NaN], [Infinity] or [-Infinity] *)
| JString (s : string)
| JBool (b : bool)
| JNull
| JUndefined
| JObject                    (** an object that is not an array *)
| JArray (elems : list JsValue).

Module RiverPathParser.

Local Open Scope R_scope.

Inductive ValidationResult :=
| Valid
| Invalid (error : string).

(** [typeof coord[j] !== 'number' || !isFinite(coord[j])]. *)
Definition notFiniteNumber (v : JsValue) : bool :=
  match v with
  | JNumber _ => false
  | _ => true
  end.

(** The decimal text of an index inside a template string. *)
Definition showNat (i : nat) : string := pretty.pretty i.

(** Body of the coordinate loop of [validate] at index [i]: [None] when the
    entry passes. *)
Definition validateCoord (i : nat) (coord : JsValue) : option string :=
  match coord with
  | JArray elems =>
      if ((length elems <? 2) || (3 <? length elems))%nat then
        Some ("Coordinate at index " ++ showNat i
              ++ " must have 2 or 3 elements [x, y] or [x, y, width]")%string
      else if existsb notFiniteNumber elems then
        Some "Coordinates must be numeric [x, y] or [x, y, width] arrays"%string
      else None
  | _ => Some ("Coordinate at index " ++ showNat i ++ " must be an array")%string
  end.

Fixpoint validateFrom (i : nat) (coordinates : list JsValue) : ValidationResult :=
  match coordinates with
  | [] => Valid
  | coord :: rest =>
      match validateCoord i coord with
      | Some error => Invalid error
      | None => validateFrom (S i) rest
      end
  end.

Definition validate (coordinates : JsValue) : ValidationResult :=
  match coordinates with
  | JArray coordinates =>
      if (length coordinates <? 3)%nat then
        Invalid "River path must have at least 3 coordinate points"
      else validateFrom 0 coordinates
  | _ => Invalid "Coordinates must be an array"
  end.

(** Body of the extraction loop of [parse] on the state
    [(points, widths, hasWidthData)].  Entries of any other shape have been
    turned down by [validate] before the loop runs. *)
Definition extractStep (st : list Point * list (option R) * bool) (coord : JsValue)
    : list Point * list (option R) * bool :=
  let '(points, widths, hasWidthData) := st in
  match coord with
  | JArray [JNumber x; JNumber y; JNumber w] =>
      (points ++ [mkPoint x y], widths ++ [Some w], true)
  | JArray [JNumber x; JNumber y] =>
      if hasWidthData
      then (points ++ [mkPoint x y], widths ++ [None], hasWidthData)
      else (points ++ [mkPoint x y], widths, hasWidthData)
  | _ => st
  end.

(** [for (let i = 1; i < points.length; i++)] with
    [Math.sqrt(dx * dx + dy * dy)]. *)
Definition totalLengthOf (points : list Point) : R :=
  foldl (fun totalLength i =>
           let dx := px (pt points i) - px (pt points (i - 1)) in
           let dy := py (pt points i) - py (pt points (i - 1)) in
           totalLength + sqrt (dx * dx + dy * dy))
        0 (range_excl 1 (length points)).

Definition boundsOf (points : list Point) : Bounds :=
  let p0 := pt points 0 in
  foldl (fun b i =>
           mkBounds (Rmin (minX b) (px (pt points i)))
                    (Rmax (maxX b) (px (pt points i)))
                    (Rmin (minY b) (py (pt points i)))
                    (Rmax (maxY b) (py (pt points i))))
        (mkBounds (px p0) (px p0) (py p0) (py p0))
        (range_excl 1 (length points)).

(** What [parse] does once [coordinates] is known. *)
Definition build (coordinates : JsValue) : Result RiverPath :=
  match validate coordinates with
  | Invalid error => Throw (Error error)
  | Valid =>
      let elems := match coordinates with JArray l => l | _ => [] end in
      let '(points, widths, hasWidthData) :=
        foldl extractStep ([], [], false) elems in
      Ok (mkRiverPath points
            (if hasWidthData then Some widths else None)
            (totalLengthOf points)
            (boundsOf points))
  end.

(** The argument of [parse]: a string, an array, or anything else. *)
Inductive ParseInput :=
| WKTString (data : string)
| CoordinateArray (data : list JsValue)
| OtherInput.

Definition messageOf (e : JsError) : string :=
  match e with
  | Error message => message
  | TypeError => "TypeError"
  end.

(** The centerline entries [[x, y, width]] as array values. *)
Definition centerlineValue (centerline : list (R * R * R)) : JsValue :=
  JArray (map (fun '(cx, cy, cw) => JArray [JNumber cx; JNumber cy; JNumber cw])
              centerline).

Section Parse.

(** [WKTParser.parsePolygon] reads the vertex ring out of the text with a
    regular expression and [parseFloat]; it is taken as a function from the
    text to the ring or the error it throws. *)
Variable parsePolygon : string -> Result (list (R * R)).

(** [parse].  The result [Throw e] is the [Error] object the method
    returns; it does not throw. *)
Definition parse (data : ParseInput) : Result RiverPath :=
  match data with
  | WKTString data =>
      match parsePolygon data with
      | Throw error => Throw (Error ("WKT parsing failed: " ++ messageOf error))
      | Ok polygonCoords =>
          match WKTParser.extractCenterline polygonCoords with
          | Throw error => Throw (Error ("WKT parsing failed: " ++ messageOf error))
          | Ok coordinates => build (centerlineValue coordinates)
          end
      end
  | CoordinateArray data => build (JArray data)
  | OtherInput => Throw (Error "Invalid input: expected coordinate array or WKT string")
  end.

End Parse.

End RiverPathParser.

(* ====================================================================== *)
(** * GeometryAnalyzer (src/unnamed/part_001, third file) *)
(* ====================================================================== *)

Module GeometryAnalyzer.

Local Open Scope R_scope.

(** Body of the first loop of [calculateCurvature] at interior index [i]. *)
Definition rawCurvatureAt (pts : list Point) (i : nat) : R :=
  let p0 := pt pts (i - 1) in
  let p1 := pt pts i in
  let p2 := pt pts (i + 1) in
  let v1x := px p1 - px p0 in
  let v1y := py p1 - py p0 in
  let v2x := px p2 - px p1 in
  let v2y := py p2 - py p1 in
  let mag1 := sqrt (v1x * v1x + v1y * v1y) in
  let mag2 := sqrt (v2x * v2x + v2y * v2y) in
  if Req_dec_T mag1 0 then 0
  else if Req_dec_T mag2 0 then 0
  else
    let dotProduct := v1x * v2x + v1y * v2y in
    let cosAngle := dotProduct / (mag1 * mag2) in
    let clampedCos := Rmax (-1) (Rmin 1 cosAngle) in
    let angleRad := acos clampedCos in
    let angleDeg := angleRad * (180 / PI) in
    let avgDistance := (mag1 + mag2) / 2 in
    if Rlt_dec 0 avgDistance then angleDeg / avgDistance else 0.

(** [rawCurvatures]: [new Array(n).fill(0)] overwritten at [1..n-2]. *)
Definition rawCurvatures (pts : list Point) : list R :=
  let n := length pts in
  map (fun i => if ((1 <=? i) && (i <? n - 1))%nat then rawCurvatureAt pts i else 0)
      (seq 0 n).

(** Body of the smoothing loop at index [i]. *)
Definition smoothedAt (raw : list R) (n i : nat) : R :=
  if ((i =? 0) || (i =? n - 1))%nat then 0
  else if (i =? 1)%nat then (nth i raw 0 + nth (i + 1) raw 0) / 2
  else if (i =? n - 2)%nat then (nth (i - 1) raw 0 + nth i raw 0) / 2
  else (nth (i - 1) raw 0 + nth i raw 0 + nth (i + 1) raw 0) / 3.

Definition calculateCurvature (path : RiverPath) : list R :=
  let points := points path in
  let n := length points in
  if (n <? 3)%nat then []
  else
    let rawCurvatures := rawCurvatures points in
    map (smoothedAt rawCurvatures n) (seq 0 n).

(** [_calculateSegmentLength]: the sum of the segment lengths for [i] in
    [startIdx, endIdx), without a bound test. *)
Definition _calculateSegmentLength (path : RiverPath) (startIdx endIdx : nat) : R :=
  foldl (fun len i => len + distance (pt (points path) i) (pt (points path) (i + 1)))
        0 (range_excl startIdx endIdx).

(** The run scanner that [findSharpCurves] and [findNarrowSections] both
    spell out: [inRun] is [inSharpCurve]/[inNarrowSection], [startIdx] the
    start of the open run (the source's initial [-1] is never read while
    [inRun] is false and is rendered as [0]), [test i] the comparison on
    entry [i], and the result lists the segments in the order they are
    pushed; [total] is the array length, used to close a run at the end. *)
Fixpoint scanRuns (path : RiverPath) (reason : Reason) (test : nat -> bool)
    (total : nat) (inRun : bool) (startIdx : nat) (idxs : list nat)
    : list Segment :=
  match idxs with
  | [] =>
      if inRun then
        let endIdx := (total - 1)%nat in
        [mkSegment startIdx endIdx (_calculateSegmentLength path startIdx endIdx)
                   (Some reason)]
      else []
  | i :: rest =>
      if test i then
        (if inRun then scanRuns path reason test total true startIdx rest
         else scanRuns path reason test total true i rest)
      else
        (if inRun then
           let endIdx := (i - 1)%nat in
           mkSegment startIdx endIdx (_calculateSegmentLength path startIdx endIdx)
                     (Some reason)
           :: scanRuns path reason test total false startIdx rest
         else scanRuns path reason test total false startIdx rest)
  end.

Definition findSharpCurves (path : RiverPath) (threshold : R) : list Segment :=
  let curvatures := calculateCurvature path in
  if (length (points path) <? 3)%nat then []
  else
    scanRuns path SharpCurve
      (fun i => if Rgt_dec (nth i curvatures 0) threshold then true else false)
      (length curvatures) false 0%nat (seq 0 (length curvatures)).

(** The number an entry of [widths] is compared as: [null < minWidth]
    converts [null] to [0]. *)
Definition toNumber (w : option R) : R :=
  match w with
  | Some r => r
  | None => 0
  end.

Definition findNarrowSections (path : RiverPath) (minWidth : R) : list Segment :=
  match widths path with
  | None => []
  | Some [] => []
  | Some widths =>
      scanRuns path NarrowSection
        (fun i => if Rlt_dec (toNumber (nth i widths None)) minWidth then true else false)
        (length widths) false 0%nat (seq 0 (length widths))
  end.

(** First loop of [getEdgeSections]: the value [startEndIdx] has when the
    loop ends ([0] when the threshold is never reached). *)
Fixpoint edgeScanForward (pts : list Point) (edgeThreshold accumulatedLength : R)
    (idxs : list nat) : nat :=
  match idxs with
  | [] => 0%nat
  | i :: rest =>
      let p1 := pt pts i in
      let p2 := pt pts (i + 1) in
      let accumulatedLength := accumulatedLength + distance p1 p2 in
      if Rge_dec accumulatedLength edgeThreshold then (i + 1)%nat
      else edgeScanForward pts edgeThreshold accumulatedLength rest
  end.

(** Second loop of [getEdgeSections], [i] running down from
    [points.length - 1] to [1]; [dflt] is the initial [endStartIdx]. *)
Fixpoint edgeScanBackward (pts : list Point) (edgeThreshold accumulatedLength : R)
    (dflt : nat) (idxs : list nat) : nat :=
  match idxs with
  | [] => dflt
  | i :: rest =>
      let p1 := pt pts i in
      let p2 := pt pts (i - 1) in
      let accumulatedLength := accumulatedLength + distance p1 p2 in
      if Rge_dec accumulatedLength edgeThreshold then (i - 1)%nat
      else edgeScanBackward pts edgeThreshold accumulatedLength dflt rest
  end.

(** [getEdgeSections].  On an empty [points] array the source's
    [points.length - 1] is [-1] where the subtraction on natural numbers
    gives [0]; such a path has no start index to try either way. *)
Definition getEdgeSections (path : RiverPath) : EdgeSections :=
  let points := points path in
  let n := length points in
  let totalLength := path_length path in
  let edgeThreshold := totalLength * 0.1 in
  let startEndIdx := edgeScanForward points edgeThreshold 0 (range_excl 0 (n - 1)) in
  let startEndIdx :=
    if ((startEndIdx =? 0) && (1 <? n))%nat then (n - 1)%nat else startEndIdx in
  let endStartIdx :=
    edgeScanBackward points edgeThreshold 0 (n - 1)%nat (rev (seq 1 (n - 1))) in
  let endStartIdx :=
    if ((endStartIdx =? n - 1) && (1 <? n))%nat then 0%nat else endStartIdx in
  let startSegmentLength := _calculateSegmentLength path 0 startEndIdx in
  let endSegmentLength := _calculateSegmentLength path endStartIdx (n - 1) in
  mkEdgeSections
    (mkSegment 0 startEndIdx startSegmentLength (Some EdgeSection))
    (mkSegment endStartIdx (n - 1) endSegmentLength (Some EdgeSection)).

Definition analyzeGeometry (path : RiverPath) : GeometryMetrics :=
  let curvatures := calculateCurvature path in
  let sharpCurves := findSharpCurves path 30 in
  let narrowSections :=
    match widths path with
    | Some (_ :: _) => findNarrowSections path 10
    | _ => []
    end in
  let edgeSections := getEdgeSections path in
  let avgCurvature :=
    if (2 <? length curvatures)%nat then
      let interiorCurvatures := take (length curvatures - 2) (drop 1 curvatures) in
      foldl (fun acc val => acc + val) 0 interiorCurvatures
      / INR (length interiorCurvatures)
    else 0 in
  let maxCurvature :=
    match curvatures with
    | [] => 0
    | c :: cs => foldl Rmax c cs
    end in
  mkGeometryMetrics curvatures sharpCurves narrowSections edgeSections
                    avgCurvature maxCurvature.

End GeometryAnalyzer.

(* ====================================================================== *)
(** * PlacementScorer (src/src/PlacementScorer.js) *)
(* ====================================================================== *)

Module PlacementScorer.

Local Open Scope R_scope.

(** The loop of [_calculateCurvatureScore]: sum and count of the
    in-range entries of [curvatures] over [startIdx..endIdx]. *)
Definition _calculateCurvatureScore
    (path : RiverPath) (startIdx endIdx : nat) (metrics : GeometryMetrics) : R :=
  let curvatures := curvatures metrics in
  let '(sum, count) :=
    foldl (fun '(sum, count) i =>
             if (i <? length curvatures)%nat
             then (sum + nth i curvatures 0, S count)
             else (sum, count))
          (0, 0%nat) (range_incl startIdx endIdx) in
  let avgCurvature := if (0 <? count)%nat then sum / INR count else 0 in
  Rmax 0 (100 - avgCurvature * 3).

Definition _calculateWidthScore (path : RiverPath) (startIdx endIdx : nat) : R :=
  match widths path with
  | None => 50
  | Some [] => 50
  | Some ws =>
      let '(sum, count) :=
        foldl (fun '(sum, count) i =>
                 match ws !! i with
                 | Some (Some w) => (sum + w, S count)
                 | _ => (sum, count)
                 end)
              (0, 0%nat) (range_incl startIdx endIdx) in
      let avgWidth := if (0 <? count)%nat then sum / INR count else 0 in
      let idealWidth := 20 in
      Rmin 100 ((avgWidth / idealWidth) * 100)
  end.

(** The two accumulation loops of [_calculatePositionScore] and the first
    loop of [_calculateCenterPoint] have this shape: the sum of the segment
    lengths for [i] in [a, b) with the guard [i < points.length - 1]. *)
Definition sumSegments (pts : list Point) (a b : nat) : R :=
  foldl (fun acc i =>
           if (i <? length pts - 1)%nat
           then acc + distance (pt pts i) (pt pts (i + 1))
           else acc)
        0 (range_excl a b).

Definition _calculatePositionScore (path : RiverPath) (startIdx endIdx : nat) : R :=
  let points := points path in
  let totalLength := path_length path in
  let distanceToSegmentStart := sumSegments points 0 startIdx in
  let segmentLength := sumSegments points startIdx endIdx in
  let segmentCenter := distanceToSegmentStart + segmentLength / 2 in
  let pathCenter := totalLength / 2 in
  let centerDistance := Rabs (segmentCenter - pathCenter) in
  let maxDistance := totalLength / 2 in
  if Rlt_dec 0 maxDistance
  then 100 * (1 - centerDistance / maxDistance)
  else 100.

(** [while (diff > Math.PI) diff -= 2 * Math.PI], run for at most [fuel]
    iterations. *)
Fixpoint wrapDown (fuel : nat) (diff : R) : R :=
  match fuel with
  | O => diff
  | S fuel' => if Rlt_dec PI diff then wrapDown fuel' (diff - 2 * PI) else diff
  end.

(** [while (diff < -Math.PI) diff += 2 * Math.PI], run for at most [fuel]
    iterations. *)
Fixpoint wrapUp (fuel : nat) (diff : R) : R :=
  match fuel with
  | O => diff
  | S fuel' => if Rlt_dec diff (- PI) then wrapUp fuel' (diff + 2 * PI) else diff
  end.

(** The two normalisation loops in sequence, in exact arithmetic: each
    loop moves [diff] by more than 6 per iteration, so [|diff|] rounded up
    bounds the iteration count of either (see [wrapAngle_range]). *)
Definition wrapAngle (diff : R) : R :=
  let fuel := Z.to_nat (up (Rabs diff)) in
  wrapUp fuel (wrapDown fuel diff).

Definition segmentAngles (pts : list Point) (startIdx endIdx : nat) : list R :=
  flat_map (fun i =>
              if (i <? length pts - 1)%nat
              then
                let p1 := pt pts i in
                let p2 := pt pts (i + 1) in
                [atan2 (py p2 - py p1) (px p2 - px p1)]
              else [])
           (range_excl startIdx endIdx).

Definition _calculateStraightnessScore (path : RiverPath) (startIdx endIdx : nat) : R :=
  let points := points path in
  if (endIdx - startIdx <? 2)%nat then 100
  else
    let angles := segmentAngles points startIdx endIdx in
    match angles with
    | [] => 100
    | _ =>
        let avgAngle := foldl (fun sum a => sum + a) 0 angles / INR (length angles) in
        let varianceSum :=
          foldl (fun acc angle =>
                   let diff := wrapAngle (angle - avgAngle) in
                   acc + diff * diff)
                0 angles in
        let variance := varianceSum / INR (length angles) in
        let varianceDegrees := sqrt variance * (180 / PI) in
        Rmax 0 (100 - varianceDegrees * 5)
    end.

Definition scoreSegment
    (path : RiverPath) (startIdx endIdx : nat) (metrics : GeometryMetrics)
    : R * Scores :=
  let curvatureScore := _calculateCurvatureScore path startIdx endIdx metrics in
  let widthScore := _calculateWidthScore path startIdx endIdx in
  let positionScore := _calculatePositionScore path startIdx endIdx in
  let straightnessScore := _calculateStraightnessScore path startIdx endIdx in
  let overallScore :=
    curvatureScore * 0.4 + widthScore * 0.2 + positionScore * 0.2
    + straightnessScore * 0.2 in
  (overallScore,
   mkScores curvatureScore widthScore positionScore straightnessScore).

(** Second loop of [_calculateCenterPoint]: walk the segments of the window
    until half of its length is covered; [None] when the loop ends without
    returning. *)
Fixpoint centerWalk (pts : list Point) (targetLength accumulatedLength : R)
    (idxs : list nat) : option Point :=
  match idxs with
  | [] => None
  | i :: rest =>
      if (i <? length pts - 1)%nat then
        let p1 := pt pts i in
        let p2 := pt pts (i + 1) in
        let segmentLength := distance p1 p2 in
        if Rge_dec (accumulatedLength + segmentLength) targetLength then
          let remainingLength := targetLength - accumulatedLength in
          let ratio := if Rlt_dec 0 segmentLength
                       then remainingLength / segmentLength else 0 in
          Some (mkPoint (px p1 + (px p2 - px p1) * ratio)
                        (py p1 + (py p2 - py p1) * ratio))
        else centerWalk pts targetLength (accumulatedLength + segmentLength) rest
      else centerWalk pts targetLength accumulatedLength rest
  end.

(** [None] stands for [undefined] (an empty [points] array). *)
Definition _calculateCenterPoint (path : RiverPath) (startIdx endIdx : nat)
    : option Point :=
  let points := points path in
  let totalLength := sumSegments points startIdx endIdx in
  let targetLength := totalLength / 2 in
  match centerWalk points targetLength 0 (range_excl startIdx endIdx) with
  | Some p => Some p
  | None =>
      match points !! endIdx with
      | Some p => Some p
      | None => points !! (length points - 1)%nat
      end
  end.

(** [for (let i = a; i <= b; i++) rejectedIndices.add(i)]. *)
Definition addRange (rejectedIndices : gset nat) (a b : nat) : gset nat :=
  foldl (fun s i => {[ i ]} ∪ s) rejectedIndices (range_incl a b).

(** The set built at the head of [findCandidates] and of
    [_findAllValidSegments] (the same statements in both). *)
Definition rejectedIndices (metrics : GeometryMetrics) : gset nat :=
  let s := foldl (fun s seg => addRange s (seg_startIdx seg) (seg_endIdx seg))
                 ∅ (sharpCurves metrics) in
  let s := foldl (fun s seg => addRange s (seg_startIdx seg) (seg_endIdx seg))
                 s (narrowSections metrics) in
  let edgeSections := edgeSections metrics in
  let s := addRange s (seg_startIdx (edge_start edgeSections))
                      (seg_endIdx (edge_start edgeSections)) in
  addRange s (seg_startIdx (edge_end edgeSections))
             (seg_endIdx (edge_end edgeSections)).

(** [for (let i = startIdx + 1; i < endIdx; i++) if (rejectedIndices.has(i))
    { hasRejectedPoint = true; break; }]. *)
Definition hasRejectedPoint (rejected : gset nat) (startIdx endIdx : nat) : bool :=
  existsb (fun i => bool_decide (i ∈ rejected)) (range_excl (startIdx + 1) endIdx).

Definition mkCand (path : RiverPath) (metrics : GeometryMetrics)
    (startIdx endIdx : nat) (segmentLength : R) : Candidate :=
  let scoreResult := scoreSegment path startIdx endIdx metrics in
  let centerPoint := _calculateCenterPoint path startIdx endIdx in
  mkCandidate (mkSegment startIdx endIdx segmentLength None)
              (fst scoreResult) (snd scoreResult) centerPoint.

(** Inner loop of [findCandidates] over the remaining values of [endIdx],
    with the running [segmentLength]; [break] ends the recursion. *)
Fixpoint extendFrom (path : RiverPath) (metrics : GeometryMetrics)
    (rejected : gset nat) (textLength : R) (startIdx : nat)
    (segmentLength : R) (endIdxs : list nat) : list Candidate :=
  match endIdxs with
  | [] => []
  | endIdx :: rest =>
      if bool_decide (endIdx ∈ rejected) then []
      else
        let p1 := pt (points path) (endIdx - 1) in
        let p2 := pt (points path) endIdx in
        let segmentLength := segmentLength + distance p1 p2 in
        if hasRejectedPoint rejected startIdx endIdx then []
        else
          (if Rge_dec segmentLength textLength
           then [mkCand path metrics startIdx endIdx segmentLength]
           else [])
          ++ extendFrom path metrics rejected textLength startIdx segmentLength rest
  end.

Definition findCandidates (path : RiverPath) (textLength : R)
    (metrics : GeometryMetrics) : list Candidate :=
  let points := points path in
  let rejected := rejectedIndices metrics in
  flat_map (fun startIdx =>
              if bool_decide (startIdx ∈ rejected) then []
              else extendFrom path metrics rejected textLength startIdx 0
                     (range_excl (startIdx + 1) (length points)))
           (range_excl 0 (length points - 1)).

(** Inner loop of [_findAllValidSegments]: extend from [startIdx] until a
    rejected index, returning the final [segmentLength] and [endIdx]. *)
Fixpoint runFrom (pts : list Point) (rejected : gset nat)
    (segmentLength : R) (endIdx : nat) (idxs : list nat) : R * nat :=
  match idxs with
  | [] => (segmentLength, endIdx)
  | i :: rest =>
      if bool_decide (i ∈ rejected) then (segmentLength, endIdx)
      else runFrom pts rejected
             (segmentLength + distance (pt pts (i - 1)) (pt pts i)) i rest
  end.

(** Outer loop of [_findAllValidSegments].  The source assigns the loop
    variable ([startIdx = endIdx]) before the increment, so the loop is a
    recursion on the next [startIdx]; [fuel] bounds the number of
    iterations and [length points] is always enough, [startIdx] growing by
    at least one each time. *)
Fixpoint validSegmentsFrom (fuel : nat) (path : RiverPath)
    (metrics : GeometryMetrics) (rejected : gset nat) (startIdx : nat)
    : list Candidate :=
  match fuel with
  | O => []
  | S fuel' =>
      if (startIdx <? length (points path) - 1)%nat then
        if bool_decide (startIdx ∈ rejected)
        then validSegmentsFrom fuel' path metrics rejected (startIdx + 1)
        else
          let '(segmentLength, endIdx) :=
            runFrom (points path) rejected 0 startIdx
                    (range_excl (startIdx + 1) (length (points path))) in
          if Rlt_dec 0 segmentLength then
            if (startIdx <? endIdx)%nat then
              mkCand path metrics startIdx endIdx segmentLength
              :: validSegmentsFrom fuel' path metrics rejected (endIdx + 1)
            else validSegmentsFrom fuel' path metrics rejected (startIdx + 1)
          else validSegmentsFrom fuel' path metrics rejected (startIdx + 1)
      else []
  end.

Definition _findAllValidSegments (path : RiverPath) (metrics : GeometryMetrics)
    : list Candidate :=
  validSegmentsFrom (length (points path)) path metrics (rejectedIndices metrics) 0.

(** [c.score === maxScore] on finite numbers. *)
Definition Reqb (a b : R) : bool := if Req_dec_T a b then true else false.

(** [selectOptimal].  With two or more candidates whose scores are all
    below the seed [-1], [topCandidates] is empty and reading
    [topCandidates[0].scores] throws. *)
Definition selectOptimal (candidates : list Candidate) : Result (option Candidate) :=
  match candidates with
  | [] => Ok None
  | [c] => Ok (Some c)
  | _ =>
      let maxScore :=
        foldl (fun maxScore candidate =>
                 if Rgt_dec (score candidate) maxScore
                 then score candidate else maxScore)
              (-1) candidates in
      let topCandidates := List.filter (fun c => Reqb (score c) maxScore) candidates in
      match topCandidates with
      | [] => Throw TypeError
      | [c] => Ok (Some c)
      | c0 :: rest =>
          let '(bestCandidate, bestPositionScore) :=
            foldl (fun '(bestCandidate, bestPositionScore) candidate =>
                     if Rgt_dec (sc_position (scores candidate)) bestPositionScore
                     then (candidate, sc_position (scores candidate))
                     else (bestCandidate, bestPositionScore))
                  (c0, sc_position (scores c0)) rest in
          Ok (Some bestCandidate)
      end
  end.

(** The two warning strings of [findOptimalPlacement]:
    ['No suitable placement found: entire river path has problematic
    geometry (sharp curves, narrow sections, or too short)'] and
    [`Text length (..px) exceeds longest suitable segment (..px). Text may
    be truncated or overlap.`], the latter carrying the two numbers it
    prints. *)
Inductive Warning :=
| EntirePathProblematic
| TextExceedsLongest (textLength longestLength : R).

Record PlacementResult := mkPlacementResult {
  placement : option Candidate;
  warning : option Warning;
  allCandidates : list Candidate;
  res_textLength : R
}.

(** The scan for the longest segment: a later segment replaces the current
    one only when strictly longer. *)
Definition longestOf (first : Candidate) (allSegments : list Candidate) : Candidate :=
  foldl (fun longestSegment seg =>
           if Rgt_dec (seg_length (segment seg)) (seg_length (segment longestSegment))
           then seg else longestSegment)
        first allSegments.

Section FindOptimalPlacement.

(** [measureTextLength] reads the canvas text metrics of the host (or
    [text.length * fontSize * 0.6] without a canvas); it is taken as a
    function of the text and the font size. *)
Variable measureTextLength : string -> R -> R.

Definition findOptimalPlacement (path : RiverPath) (text : string)
    (fontSize : R) (metrics : GeometryMetrics) : Result PlacementResult :=
  let textLength := measureTextLength text fontSize in
  let candidates := findCandidates path textLength metrics in
  match candidates with
  | _ :: _ =>
      match selectOptimal candidates with
      | Ok optimal => Ok (mkPlacementResult optimal None candidates textLength)
      | Throw e => Throw e
      end
  | [] =>
      let allSegments := _findAllValidSegments path metrics in
      match allSegments with
      | [] => Ok (mkPlacementResult None (Some EntirePathProblematic) [] textLength)
      | first :: _ =>
          let longestSegment := longestOf first allSegments in
          Ok (mkPlacementResult (Some longestSegment)
                (Some (TextExceedsLongest textLength
                         (seg_length (segment longestSegment))))
                allSegments textLength)
      end
  end.

End FindOptimalPlacement.

End PlacementScorer.

(* ====================================================================== *)
(** * TextPlacer (src/src/UIController.js, last file) *)
(* ====================================================================== *)

Module TextPlacer.

Local Open Scope R_scope.

Record Position := mkPosition { pos_x : R; pos_y : R; pos_angle : R }.

(** CharacterPlacement objects [{char, x, y, angle, width}]. *)
Record CharacterPlacement := mkCharacterPlacement {
  cp_char : ascii;
  cp_x : R;
  cp_y : R;
  cp_angle : R;
  cp_width : R
}.

(** The position built from [points[i]] and the direction from
    [points[j]] to [points[k]]; reading a missing element's [x] throws. *)
Definition positionAt (pts : list Point) (i j k : option nat) : Result Position :=
  match i ≫= (pts !!.), j ≫= (pts !!.), k ≫= (pts !!.) with
  | Some p, Some a, Some b =>
      let dx := px b - px a in
      let dy := py b - py a in
      Ok (mkPosition (px p) (py p) (atan2 dy dx))
  | _, _, _ => Throw TypeError
  end.

(** [i - 1] as an array index: [-1] addresses no element. *)
Definition predIdx (i : nat) : option nat :=
  match i with
  | O => None
  | S j => Some j
  end.

(** The [while (currentIdx < points.length - 1)] loop of
    [interpolatePosition] over the remaining values of [currentIdx];
    [None] when the loop ends without returning. *)
Fixpoint walkPath (pts : list Point) (remainingDistance : R) (idxs : list nat)
    : option Position :=
  match idxs with
  | [] => None
  | currentIdx :: rest =>
      let p1 := pt pts currentIdx in
      let p2 := pt pts (currentIdx + 1) in
      let dx := px p2 - px p1 in
      let dy := py p2 - py p1 in
      let segmentLength := sqrt (dx * dx + dy * dy) in
      if Rle_dec remainingDistance segmentLength then
        let t := remainingDistance / segmentLength in
        Some (mkPosition (px p1 + dx * t) (py p1 + dy * t) (atan2 dy dx))
      else walkPath pts (remainingDistance - segmentLength) rest
  end.

(** The text of [`Invalid startIdx: ${startIdx} (path has ${n} points)`]. *)
Definition invalidStartIdx (startIdx : Z) (n : nat) : string :=
  ("Invalid startIdx: " ++ pretty.pretty startIdx ++ " (path has "
   ++ pretty.pretty n ++ " points)")%string.

(** The two guards that open both [placeText] (after its test on the text)
    and [interpolatePosition].  [path] is [None] for [null], [undefined] or
    an object without [points]. *)
Definition checkPath (path : option RiverPath) (startIdx : Z) : Result (list Point * nat) :=
  match path with
  | None => Throw (Error "Invalid path: path must have points")
  | Some path =>
      match points path with
      | [] => Throw (Error "Invalid path: path must have points")
      | pts =>
          if (startIdx <? 0)%Z || (Z.of_nat (length pts) <=? startIdx)%Z
          then Throw (Error (invalidStartIdx startIdx (length pts)))
          else Ok (pts, Z.to_nat startIdx)
      end
  end.

Definition interpolatePosition (path : option RiverPath) (startIdx : Z) (distance : R)
    : Result Position :=
  match checkPath path startIdx with
  | Throw e => Throw e
  | Ok (points, currentIdx) =>
      if Req_dec_T distance 0 then
        if (currentIdx <? length points - 1)%nat
        then positionAt points (Some currentIdx) (Some currentIdx) (Some (currentIdx + 1)%nat)
        else positionAt points (Some currentIdx) (predIdx currentIdx) (Some currentIdx)
      else
        match walkPath points distance (range_excl currentIdx (length points - 1)) with
        | Some position => Ok position
        | None =>
            let lastIdx := (length points - 1)%nat in
            positionAt points (Some lastIdx) (predIdx lastIdx) (Some lastIdx)
        end
  end.

Section PlaceText.

(** [ctx.measureText(char).width] for the font size in use: the host's
    text metrics (or [fontSize * 0.6] without a canvas). *)
Variable measureText : R -> ascii -> R.

(** The character loop of [placeText] from [currentDistance] on; the first
    throw of [interpolatePosition] ends it. *)
Fixpoint placeChars (path : option RiverPath) (startIdx : Z) (fontSize : R)
    (currentDistance : R) (text : list ascii) : Result (list CharacterPlacement) :=
  match text with
  | [] => Ok []
  | char :: rest =>
      let charWidth := measureText fontSize char in
      match interpolatePosition path startIdx (currentDistance + charWidth / 2) with
      | Throw e => Throw e
      | Ok position =>
          match placeChars path startIdx fontSize (currentDistance + charWidth) rest with
          | Throw e => Throw e
          | Ok placements =>
              Ok (mkCharacterPlacement char (pos_x position) (pos_y position)
                    (pos_angle position) charWidth :: placements)
          end
      end
  end.

Definition placeText (text : string) (path : option RiverPath) (startIdx : Z)
    (fontSize : R) : Result (list CharacterPlacement) :=
  match list_ascii_of_string text with
  | [] => Ok []
  | chars =>
      match checkPath path startIdx with
      | Throw e => Throw e
      | Ok _ => placeChars path startIdx fontSize 0 chars
      end
  end.

End PlaceText.

End TextPlacer.

(* ====================================================================== *)
(** * Text measurement (src/src/PlacementScorer.js, src/src/UIController.js) *)
(* ====================================================================== *)

Module NoCanvas.

Local Open Scope R_scope.

(** [PlacementScorer.measureTextLength] where no 2D context can be
    created: [text.length * fontSize * 0.6]. *)
Definition measureTextLength (text : string) (fontSize : R) : R :=
  INR (String.length text) * fontSize * 0.6.

End NoCanvas.

Module TextMeasure.

Local Open Scope R_scope.

Section Glyphs.

(** [ctx.measureText(char).width] at a font size, as in [TextPlacer]. *)
Variable measureText : R -> ascii -> R.

(** [TextPlacer.measureTextLength(text, canvas)]: the widths of the
    characters at the font size 16, added up. *)
Definition measureTextLength (text : string) : R :=
  match list_ascii_of_string text with
  | [] => 0
  | chars => foldl (fun totalWidth char => totalWidth + measureText 16 char) 0 chars
  end.

End Glyphs.

End TextMeasure.

(* ====================================================================== *)
(** * UIController (src/src/UIController.js, first class) *)
(* ====================================================================== *)

Module UIController.

Import GeometryAnalyzer PlacementScorer TextPlacer.

Local Open Scope R_scope.

Section Host.

Variable measureTextLength : string -> R -> R.
Variable measureText : R -> ascii -> R.

(** The computation of [renderPipeline] on [this.currentRiver] and
    [this.currentRiverName]: the metrics, the placement result and the
    character placements it hands to the renderer.  The calls that draw,
    whose results are not read, are left out. *)
Definition renderPipeline (currentRiver : RiverPath) (currentRiverName : string)
    : Result (GeometryMetrics * PlacementResult * list CharacterPlacement) :=
  let metrics := analyzeGeometry currentRiver in
  match findOptimalPlacement measureTextLength currentRiver currentRiverName 16 metrics with
  | Throw e => Throw e
  | Ok result =>
      match placement result with
      | Some placement =>
          match placeText measureText currentRiverName (Some currentRiver)
                  (Z.of_nat (seg_startIdx (segment placement))) 16 with
          | Throw e => Throw e
          | Ok characterPlacements => Ok (metrics, result, characterPlacements)
          end
      | None => Ok (metrics, result, [])
      end
  end.

End Host.

End UIController.

(* ====================================================================== *)
(** * CanvasRenderer (src/unnamed/part_002) *)
(* ====================================================================== *)

Module CanvasRenderer.

Local Open Scope R_scope.

(** The current transformation of the 2D context, as far as [translate]
    and [scale] can change it from the identity: the point [(x, y)] is
    drawn at [(scaleX * x + shiftX, scaleY * y + shiftY)]. *)
Record Transform := mkTransform {
  scaleX : R;
  scaleY : R;
  shiftX : R;
  shiftY : R
}.

(** [ctx.setTransform(1, 0, 0, 1, 0, 0)]. *)
Definition identity : Transform := mkTransform 1 1 0 0.

(** [ctx.translate(x, y)]. *)
Definition translate (x y : R) (ctx : Transform) : Transform :=
  mkTransform (scaleX ctx) (scaleY ctx)
              (shiftX ctx + scaleX ctx * x) (shiftY ctx + scaleY ctx * y).

(** [ctx.scale(x, y)]. *)
Definition scale (x y : R) (ctx : Transform) : Transform :=
  mkTransform (scaleX ctx * x) (scaleY ctx * y) (shiftX ctx) (shiftY ctx).

(** Where the context draws a point. *)
Definition toCanvas (ctx : Transform) (p : Point) : Point :=
  mkPoint (scaleX ctx * px p + shiftX ctx) (scaleY ctx * py p + shiftY ctx).

(** [fitToCanvas] for a canvas of the given size; [path] is [None] for a
    missing path or a path without bounds.  The local [scale] of the
    source is [scale_] here. *)
Definition fitToCanvas (canvasWidth canvasHeight : R) (path : option RiverPath)
    (ctx : Transform) : Transform :=
  match path with
  | None => ctx
  | Some path =>
      let minX := minX (bounds path) in
      let maxX := maxX (bounds path) in
      let minY := minY (bounds path) in
      let maxY := maxY (bounds path) in
      let padding := 40 in
      let dataWidth := maxX - minX in
      let dataHeight := maxY - minY in
      if Req_dec_T dataWidth 0 then ctx
      else if Req_dec_T dataHeight 0 then ctx
      else
        let availableWidth := canvasWidth - padding * 2 in
        let availableHeight := canvasHeight - padding * 2 in
        let scale_ := Rmin (availableWidth / dataWidth) (availableHeight / dataHeight) in
        let offsetX := padding + (availableWidth - dataWidth * scale_) / 2 - minX * scale_ in
        let offsetY := padding + (availableHeight - dataHeight * scale_) / 2 - minY * scale_ in
        scale scale_ scale_ (translate offsetX offsetY ctx)
  end.

End CanvasRenderer.

(* ====================================================================== *)
(** * The analysis and the scoring over IEEE doubles *)
(* ====================================================================== *)

(** The functions that analyse a path without width data, enumerate and
    score its candidate windows and select one, and the two text
    measurements without a canvas, once more: over the binary64 numbers of
    the kernel instead of [R].  Every operation rounds as in the sources,
    a product that overflows is [infinity], [infinity - infinity] and
    [infinity / infinity] are [nan], and a comparison with [nan] is
    false.  A counter ([count++], an array length) used in an arithmetic
    expression is a double as well.

    [Math.sqrt] and [Math.abs] are the kernel's [sqrt] and [abs];
    [Math.pow(v, 2)] is the rounded product [v * v]; [Math.max] and
    [Math.min] follow ECMAScript ([NaN] when an argument is [NaN], [+0]
    above [-0]).  [Math.acos] and [Math.atan2] are fixed on the arguments
    for which ECMAScript fixes the result exactly; their other values are
    the host's, and a Section variable here. *)
Module Doubles.

Import PrimFloat.

Local Open Scope float_scope.

Record DPoint := mkDPoint { dpx : float; dpy : float }.

(** A path without width data: [{points, widths: null, length}]. *)
Record DPath := mkDPath { dpoints : list DPoint; dlength : float }.

Record DSegment := mkDSegment {
  dseg_startIdx : nat;
  dseg_endIdx : nat;
  dseg_length : float;
  dseg_reason : option Reason
}.

Record DMetrics := mkDMetrics {
  dcurvatures : list float;
  dsharpCurves : list DSegment;
  dnarrowSections : list DSegment;
  dedgeStart : DSegment;
  dedgeEnd : DSegment;
  davgCurvature : float;
  dmaxCurvature : float
}.

(** A candidate [{segment, score, scores}]; its [centerPoint], which
    neither the scores nor the selection read, is left out. *)
Record DCandidate := mkDCandidate {
  dsegment : DSegment;
  dscore : float;
  dcurvature : float;
  dwidth : float;
  dposition : float;
  dstraightness : float
}.

Definition dpt (pts : list DPoint) (i : nat) : DPoint := nth i pts (mkDPoint 0 0).

(** A count as a number. *)
Fixpoint ofNat (n : nat) : float :=
  match n with
  | O => 0
  | S m => ofNat m + 1
  end.

#[warnings="-inexact-float"]
Definition Math_PI : float := 3.141592653589793.

Definition Math_max (a b : float) : float :=
  if is_nan a || is_nan b then nan
  else if a <? b then b
  else if b <? a then a
  else if is_zero a then a + b
  else a.

Definition Math_min (a b : float) : float :=
  if is_nan a || is_nan b then nan
  else if a <? b then a
  else if b <? a then b
  else if is_zero a then - ((- a) + (- b))
  else a.

Definition pow2 (v : float) : float := v * v.

(** [Math.sqrt(Math.pow(p2.x - p1.x, 2) + Math.pow(p2.y - p1.y, 2))]. *)
Definition distance (p1 p2 : DPoint) : float :=
  sqrt (pow2 (dpx p2 - dpx p1) + pow2 (dpy p2 - dpy p1)).

(** What [validate] asks of an array of [[x, y]] entries: three entries or
    more, of finite numbers. *)
Definition accepted (points : list DPoint) : bool :=
  (3 <=? length points)%nat
  && forallb (fun p => is_finite (dpx p) && is_finite (dpy p)) points.

(** The length loop of [parse]. *)
Definition totalLengthOf (points : list DPoint) : float :=
  foldl (fun totalLength i =>
           let dx := dpx (dpt points i) - dpx (dpt points (i - 1)) in
           let dy := dpy (dpt points i) - dpy (dpt points (i - 1)) in
           totalLength + sqrt (dx * dx + dy * dy))
        0 (range_excl 1 (length points)).

(** The path [parse] returns on an accepted array of [[x, y]] entries. *)
Definition parse (points : list DPoint) : DPath :=
  mkDPath points (totalLengthOf points).

Definition _calculateSegmentLength (path : DPath) (startIdx endIdx : nat) : float :=
  foldl (fun len i => len + distance (dpt (dpoints path) i) (dpt (dpoints path) (i + 1)))
        0 (range_excl startIdx endIdx).

(** First loop of [getEdgeSections]: [startEndIdx] when the loop ends. *)
Fixpoint edgeScanForward (pts : list DPoint) (edgeThreshold accumulatedLength : float)
    (idxs : list nat) : nat :=
  match idxs with
  | [] => 0%nat
  | i :: rest =>
      let accumulatedLength := accumulatedLength + distance (dpt pts i) (dpt pts (i + 1)) in
      if edgeThreshold <=? accumulatedLength then (i + 1)%nat
      else edgeScanForward pts edgeThreshold accumulatedLength rest
  end.

(** Second loop of [getEdgeSections]; [dflt] is the initial
    [endStartIdx]. *)
Fixpoint edgeScanBackward (pts : list DPoint) (edgeThreshold accumulatedLength : float)
    (dflt : nat) (idxs : list nat) : nat :=
  match idxs with
  | [] => dflt
  | i :: rest =>
      let accumulatedLength := accumulatedLength + distance (dpt pts i) (dpt pts (i - 1)) in
      if edgeThreshold <=? accumulatedLength then (i - 1)%nat
      else edgeScanBackward pts edgeThreshold accumulatedLength dflt rest
  end.

#[warnings="-inexact-float"]
Definition getEdgeSections (path : DPath) : DSegment * DSegment :=
  let points := dpoints path in
  let n := length points in
  let totalLength := dlength path in
  let edgeThreshold := totalLength * 0.1 in
  let startEndIdx := edgeScanForward points edgeThreshold 0 (range_excl 0 (n - 1)) in
  let startEndIdx :=
    if ((startEndIdx =? 0) && (1 <? n))%nat then (n - 1)%nat else startEndIdx in
  let endStartIdx :=
    edgeScanBackward points edgeThreshold 0 (n - 1)%nat (rev (seq 1 (n - 1))) in
  let endStartIdx :=
    if ((endStartIdx =? n - 1) && (1 <? n))%nat then 0%nat else endStartIdx in
  let startSegmentLength := _calculateSegmentLength path 0 startEndIdx in
  let endSegmentLength := _calculateSegmentLength path endStartIdx (n - 1) in
  (mkDSegment 0 startEndIdx startSegmentLength (Some EdgeSection),
   mkDSegment endStartIdx (n - 1) endSegmentLength (Some EdgeSection)).

(** [PlacementScorer.measureTextLength] where no 2D context can be
    created: [text.length * fontSize * 0.6]. *)
#[warnings="-inexact-float"]
Definition measureTextLength (text : string) (fontSize : float) : float :=
  ofNat (String.length text) * fontSize * 0.6.

(** [ctx.measureText(char).width] with the mock context of
    [getMeasureContext]: [fontSize * 0.6] for every character. *)
#[warnings="-inexact-float"]
Definition mockWidth (fontSize : float) : float := fontSize * 0.6.

(** [TextPlacer.measureTextLength] with that context, at its font size
    16. *)
Definition placerTextLength (text : string) : float :=
  match list_ascii_of_string text with
  | [] => 0
  | chars => foldl (fun totalWidth (char : ascii) => totalWidth + mockWidth 16) 0 chars
  end.

(** The two normalisation loops of [_calculateStraightnessScore], for at
    most [fuel] iterations each; [None] when the exit test is still unmet
    then. *)
Fixpoint wrapDown (fuel : nat) (diff : float) : option float :=
  if Math_PI <? diff then
    match fuel with
    | O => None
    | S fuel' => wrapDown fuel' (diff - 2 * Math_PI)
    end
  else Some diff.

Fixpoint wrapUp (fuel : nat) (diff : float) : option float :=
  if diff <? - Math_PI then
    match fuel with
    | O => None
    | S fuel' => wrapUp fuel' (diff + 2 * Math_PI)
    end
  else Some diff.

(** [selectOptimal], as in [PlacementScorer.selectOptimal]. *)
Definition selectOptimal (candidates : list DCandidate) : Result (option DCandidate) :=
  match candidates with
  | [] => Ok None
  | [c] => Ok (Some c)
  | _ =>
      let maxScore :=
        foldl (fun maxScore candidate =>
                 if maxScore <? dscore candidate then dscore candidate else maxScore)
              (-1) candidates in
      let topCandidates := List.filter (fun c => dscore c =? maxScore) candidates in
      match topCandidates with
      | [] => Throw TypeError
      | [c] => Ok (Some c)
      | c0 :: rest =>
          let '(bestCandidate, bestPositionScore) :=
            foldl (fun '(bestCandidate, bestPositionScore) candidate =>
                     if bestPositionScore <? dposition candidate
                     then (candidate, dposition candidate)
                     else (bestCandidate, bestPositionScore))
                  (c0, dposition c0) rest in
          Ok (Some bestCandidate)
      end
  end.

Section Host.

(** [Math.acos] on the arguments below 1 and not below [-1]. *)
Variable acosInside : float -> float.

(** [Math.atan2] away from a zero [y] with a positive [x]. *)
Variable atan2Other : float -> float -> float.

Definition Math_acos (v : float) : float :=
  if is_nan v then nan
  else if 1 <? v then nan
  else if v <? -1 then nan
  else if v =? 1 then 0
  else acosInside v.

Definition Math_atan2 (y x : float) : float :=
  if is_nan y || is_nan x then nan
  else if is_zero y && (0 <? x) then y
  else atan2Other y x.

Definition rawCurvatureAt (pts : list DPoint) (i : nat) : float :=
  let p0 := dpt pts (i - 1) in
  let p1 := dpt pts i in
  let p2 := dpt pts (i + 1) in
  let v1x := dpx p1 - dpx p0 in
  let v1y := dpy p1 - dpy p0 in
  let v2x := dpx p2 - dpx p1 in
  let v2y := dpy p2 - dpy p1 in
  let mag1 := sqrt (v1x * v1x + v1y * v1y) in
  let mag2 := sqrt (v2x * v2x + v2y * v2y) in
  if (mag1 =? 0) || (mag2 =? 0) then 0
  else
    let dotProduct := v1x * v2x + v1y * v2y in
    let cosAngle := dotProduct / (mag1 * mag2) in
    let clampedCos := Math_max (-1) (Math_min 1 cosAngle) in
    let angleRad := Math_acos clampedCos in
    let angleDeg := angleRad * (180 / Math_PI) in
    let avgDistance := (mag1 + mag2) / 2 in
    if 0 <? avgDistance then angleDeg / avgDistance else 0.

Definition rawCurvatures (pts : list DPoint) : list float :=
  let n := length pts in
  map (fun i => if ((1 <=? i) && (i <? n - 1))%nat then rawCurvatureAt pts i else 0)
      (seq 0 n).

Definition smoothedAt (raw : list float) (n i : nat) : float :=
  if ((i =? 0) || (i =? n - 1))%nat then 0
  else if (i =? 1)%nat then (nth i raw 0 + nth (i + 1) raw 0) / 2
  else if (i =? n - 2)%nat then (nth (i - 1) raw 0 + nth i raw 0) / 2
  else (nth (i - 1) raw 0 + nth i raw 0 + nth (i + 1) raw 0) / 3.

Definition calculateCurvature (path : DPath) : list float :=
  let points := dpoints path in
  let n := length points in
  if (n <? 3)%nat then []
  else
    let rawCurvatures := rawCurvatures points in
    map (smoothedAt rawCurvatures n) (seq 0 n).

(** The run scanner of [findSharpCurves]. *)
Fixpoint scanRuns (path : DPath) (test : nat -> bool) (total : nat) (inRun : bool)
    (startIdx : nat) (idxs : list nat) : list DSegment :=
  let close endIdx :=
    mkDSegment startIdx endIdx (_calculateSegmentLength path startIdx endIdx)
               (Some SharpCurve) in
  match idxs with
  | [] => if inRun then [close (total - 1)%nat] else []
  | i :: rest =>
      if test i then
        (if inRun then scanRuns path test total true startIdx rest
         else scanRuns path test total true i rest)
      else
        (if inRun then close (i - 1)%nat :: scanRuns path test total false startIdx rest
         else scanRuns path test total false startIdx rest)
  end.

Definition findSharpCurves (path : DPath) (threshold : float) : list DSegment :=
  let curvatures := calculateCurvature path in
  if (length (dpoints path) <? 3)%nat then []
  else
    scanRuns path (fun i => threshold <? nth i curvatures 0)
             (length curvatures) false 0%nat (seq 0 (length curvatures)).

(** [analyzeGeometry] on a path without width data ([narrowSections] is
    empty then). *)
Definition analyzeGeometry (path : DPath) : DMetrics :=
  let curvatures := calculateCurvature path in
  let sharpCurves := findSharpCurves path 30 in
  let edgeSections := getEdgeSections path in
  let avgCurvature :=
    if (2 <? length curvatures)%nat then
      let interiorCurvatures := take (length curvatures - 2) (drop 1 curvatures) in
      foldl (fun acc val => acc + val) 0 interiorCurvatures
      / ofNat (length interiorCurvatures)
    else 0 in
  let maxCurvature :=
    match curvatures with
    | [] => 0
    | _ => foldl Math_max neg_infinity curvatures
    end in
  mkDMetrics curvatures sharpCurves [] (fst edgeSections) (snd edgeSections)
             avgCurvature maxCurvature.

(** [rejectedIndices.has(i)] in [findCandidates]. *)
Definition rejected (metrics : DMetrics) (i : nat) : bool :=
  existsb (fun segment => (dseg_startIdx segment <=? i) && (i <=? dseg_endIdx segment))%nat
          (dsharpCurves metrics ++ dnarrowSections metrics
           ++ [dedgeStart metrics; dedgeEnd metrics]).

Definition _calculateCurvatureScore (path : DPath) (startIdx endIdx : nat)
    (metrics : DMetrics) : float :=
  let curvatures := dcurvatures metrics in
  let '(sum, count) :=
    foldl (fun '(sum, count) i =>
             if (i <? length curvatures)%nat
             then (sum + nth i curvatures 0, count + 1)
             else (sum, count))
          (0, 0) (range_incl startIdx endIdx) in
  let avgCurvature := if 0 <? count then sum / count else 0 in
  Math_max 0 (100 - avgCurvature * 3).

(** [if (!path.widths || path.widths.length === 0) return 50]. *)
Definition _calculateWidthScore (path : DPath) (startIdx endIdx : nat) : float := 50.

Definition sumSegments (pts : list DPoint) (a b : nat) : float :=
  foldl (fun acc i =>
           if (i <? length pts - 1)%nat
           then acc + distance (dpt pts i) (dpt pts (i + 1))
           else acc)
        0 (range_excl a b).

Definition _calculatePositionScore (path : DPath) (startIdx endIdx : nat) : float :=
  let points := dpoints path in
  let totalLength := dlength path in
  let distanceToSegmentStart := sumSegments points 0 startIdx in
  let segmentLength := sumSegments points startIdx endIdx in
  let segmentCenter := distanceToSegmentStart + segmentLength / 2 in
  let pathCenter := totalLength / 2 in
  let centerDistance := abs (segmentCenter - pathCenter) in
  let maxDistance := totalLength / 2 in
  if 0 <? maxDistance
  then 100 * (1 - centerDistance / maxDistance)
  else 100.

Definition segmentAngles (pts : list DPoint) (startIdx endIdx : nat) : list float :=
  flat_map (fun i =>
              if (i <? length pts - 1)%nat
              then
                let p1 := dpt pts i in
                let p2 := dpt pts (i + 1) in
                [Math_atan2 (dpy p2 - dpy p1) (dpx p2 - dpx p1)]
              else [])
           (range_excl startIdx endIdx).

(** [None] when a normalisation loop is still running after [fuel]
    iterations. *)
Definition _calculateStraightnessScore (fuel : nat) (path : DPath)
    (startIdx endIdx : nat) : option float :=
  let points := dpoints path in
  if (endIdx - startIdx <? 2)%nat then Some 100
  else
    let angles := segmentAngles points startIdx endIdx in
    match angles with
    | [] => Some 100
    | _ =>
        let avgAngle := foldl (fun sum a => sum + a) 0 angles / ofNat (length angles) in
        let varianceSum :=
          foldl (fun acc angle =>
                   match acc with
                   | None => None
                   | Some varianceSum =>
                       match wrapDown fuel (angle - avgAngle) with
                       | None => None
                       | Some diff =>
                           match wrapUp fuel diff with
                           | None => None
                           | Some diff => Some (varianceSum + diff * diff)
                           end
                       end
                   end)
                (Some 0) angles in
        match varianceSum with
        | None => None
        | Some varianceSum =>
            let variance := varianceSum / ofNat (length angles) in
            let varianceDegrees := sqrt variance * (180 / Math_PI) in
            Some (Math_max 0 (100 - varianceDegrees * 5))
        end
    end.

#[warnings="-inexact-float"]
Definition scoreSegment (fuel : nat) (path : DPath) (startIdx endIdx : nat)
    (metrics : DMetrics) : option (float * (float * float * float * float)) :=
  let curvatureScore := _calculateCurvatureScore path startIdx endIdx metrics in
  let widthScore := _calculateWidthScore path startIdx endIdx in
  let positionScore := _calculatePositionScore path startIdx endIdx in
  match _calculateStraightnessScore fuel path startIdx endIdx with
  | None => None
  | Some straightnessScore =>
      let overallScore :=
        curvatureScore * 0.4 + widthScore * 0.2 + positionScore * 0.2
        + straightnessScore * 0.2 in
      Some (overallScore, (curvatureScore, widthScore, positionScore, straightnessScore))
  end.

Definition hasRejectedPoint (metrics : DMetrics) (startIdx endIdx : nat) : bool :=
  existsb (rejected metrics) (range_excl (startIdx + 1) endIdx).

(** Inner loop of [findCandidates]; [None] when a score ran out of
    fuel. *)
Fixpoint extendFrom (fuel : nat) (path : DPath) (textLength : float) (metrics : DMetrics)
    (startIdx : nat) (segmentLength : float) (endIdxs : list nat)
    : option (list DCandidate) :=
  match endIdxs with
  | [] => Some []
  | endIdx :: rest =>
      if rejected metrics endIdx then Some []
      else
        let p1 := dpt (dpoints path) (endIdx - 1) in
        let p2 := dpt (dpoints path) endIdx in
        let segmentLength := segmentLength + distance p1 p2 in
        if hasRejectedPoint metrics startIdx endIdx then Some []
        else
          let here :=
            if textLength <=? segmentLength
            then match scoreSegment fuel path startIdx endIdx metrics with
                 | None => None
                 | Some (score, (curvature, width, position, straightness)) =>
                     Some [mkDCandidate (mkDSegment startIdx endIdx segmentLength None)
                             score curvature width position straightness]
                 end
            else Some [] in
          match here, extendFrom fuel path textLength metrics startIdx segmentLength rest with
          | Some cs, Some more => Some (cs ++ more)
          | _, _ => None
          end
  end.

Definition findCandidates (fuel : nat) (path : DPath) (textLength : float)
    (metrics : DMetrics) : option (list DCandidate) :=
  foldl (fun acc startIdx =>
           match acc with
           | None => None
           | Some candidates =>
               if rejected metrics startIdx then Some candidates
               else
                 match extendFrom fuel path textLength metrics startIdx 0
                         (range_excl (startIdx + 1) (length (dpoints path))) with
                 | None => None
                 | Some cs => Some (candidates ++ cs)
                 end
           end)
        (Some []) (range_excl 0 (length (dpoints path) - 1)).

End Host.

(** A score between 0 and 100. *)
Definition inRange (v : float) : bool := (0 <=? v) && (v <=? 100).

(** The array
    [[[0,0],[1e160,0],[2e160,0],[3e160,0],[4e160,0],[5e160,0],[6e160,0],[7e160,0]]]. *)
#[warnings="-inexact-float"]
Definition hugeCoordinates : list DPoint :=
  [mkDPoint 0 0; mkDPoint 1e160 0; mkDPoint 2e160 0; mkDPoint 3e160 0;
   mkDPoint 4e160 0; mkDPoint 5e160 0; mkDPoint 6e160 0; mkDPoint 7e160 0].

(** The array [[[0,0],[4.3,0],[21.5,0],[43,0]]]. *)
#[warnings="-inexact-float"]
Definition tenthCoordinates : list DPoint :=
  [mkDPoint 0 0; mkDPoint 4.3 0; mkDPoint 21.5 0; mkDPoint 43 0].

End Doubles.


(* ====================================================================== *)
(** * Vocabulary of the statements, and the inputs they are tried on *)
(* ====================================================================== *)

Import WKTParser RiverPathParser GeometryAnalyzer PlacementScorer TextPlacer.

Arguments mkCand : simpl never.

Abbreviation segmentLength := GeometryAnalyzer._calculateSegmentLength.

(** A segment covers the indices between its two ends, both included. *)
Definition covers (seg : Segment) (i : nat) : Prop :=
  seg_startIdx seg <= i <= seg_endIdx seg.

(** The rejected regions of a metrics object: the sharp-curve regions, the
    narrow-section regions and the two edge regions. *)
Definition rejectedRegions (metrics : GeometryMetrics) : list Segment :=
  sharpCurves metrics ++ narrowSections metrics
  ++ [edge_start (edgeSections metrics); edge_end (edgeSections metrics)].

(** A maximal run of two or more consecutive non-rejected points that has
    some length: the windows [_findAllValidSegments] collects. *)
Definition validRun (path : RiverPath) (rejected : gset nat) (s e : nat) : Prop :=
  s < e < length (points path)
  /\ (forall i, s <= i <= e -> i ∉ rejected)
  /\ (s = 0 \/ s - 1 ∈ rejected)
  /\ (e + 1 = length (points path) \/ e + 1 ∈ rejected)
  /\ (0 < segmentLength path s e)%R.

(** No valid run starts before [k] and reaches [k]. *)
Definition atBoundary (path : RiverPath) (rejected : gset nat) (k : nat) : Prop :=
  forall s e, validRun path rejected s e -> ~ (s < k <= e).

(** The entries [validate] lets through: an array of two or of three
    finite numbers. *)
Inductive wellFormedCoord : JsValue -> Prop :=
| wf_xy (x y : R) : wellFormedCoord (JArray [JNumber x; JNumber y])
| wf_xyw (x y w : R) : wellFormedCoord (JArray [JNumber x; JNumber y; JNumber w]).

(** The width an entry carries, if any, and its point. *)
Definition coordWidth (coord : JsValue) : option R :=
  match coord with
  | JArray [_; _; JNumber w] => Some w
  | _ => None
  end.

Definition coordPoint (coord : JsValue) : Point :=
  match coord with
  | JArray (JNumber x :: JNumber y :: _) => mkPoint x y
  | _ => origin
  end.

(** The entries from the first one that carries a width on. *)
Fixpoint fromFirstWidth (coordinates : list JsValue) : list JsValue :=
  match coordinates with
  | [] => []
  | coord :: rest =>
      match coordWidth coord with
      | Some _ => coord :: rest
      | None => fromFirstWidth rest
      end
  end.

Section Vocabulary.

Local Open Scope R_scope.

Definition position (c : Candidate) : R := sc_position (scores c).

Definition maxStep (maxScore : R) (candidate : Candidate) : R :=
  if Rgt_dec (score candidate) maxScore then score candidate else maxScore.

Definition bestStep : Candidate * R -> Candidate -> Candidate * R :=
  fun '(bestCandidate, bestPositionScore) candidate =>
    if Rgt_dec (position candidate) bestPositionScore
    then (candidate, position candidate)
    else (bestCandidate, bestPositionScore).

(** What [selectOptimal] computes on a list of two or more candidates. *)
Definition selectAmong (candidates : list Candidate) : Result (option Candidate) :=
  let maxScore := foldl maxStep (-1) candidates in
  match List.filter (fun c => Reqb (score c) maxScore) candidates with
  | [] => Throw TypeError
  | c0 :: rest => Ok (Some (fst (foldl bestStep (c0, position c0) rest)))
  end.

Definition cand (overall positionScore : R) : Candidate :=
  mkCandidate (mkSegment 0 1 1 None) overall (mkScores 0 0 positionScore 0) None.

(** The last point of the path with the direction of its last segment:
    what [interpolatePosition] returns past the end of the path. *)
Definition clampedPosition (pts : list Point) : Position :=
  let lastIdx := (length pts - 1)%nat in
  mkPosition (px (pt pts lastIdx)) (py (pt pts lastIdx))
    (atan2 (py (pt pts lastIdx) - py (pt pts (lastIdx - 1)))
           (px (pt pts lastIdx) - px (pt pts (lastIdx - 1)))).

(** [Math.sqrt(dx * dx + dy * dy)] for the segment that starts at [i]. *)
Definition segmentLengthAt (pts : list Point) (i : nat) : R :=
  let dx := px (pt pts (i + 1)) - px (pt pts i) in
  let dy := py (pt pts (i + 1)) - py (pt pts i) in
  sqrt (dx * dx + dy * dy).

(** The length of the path from index [currentIdx] to its last point. *)
Definition remainingLength (pts : list Point) (currentIdx : nat) : R :=
  foldr (fun i acc => segmentLengthAt pts i + acc) 0
        (range_excl currentIdx (length pts - 1)).

(** The distance along the path at which each character is anchored: the
    widths of the characters before it plus half of its own. *)
Fixpoint anchorDistances (measureText : R -> ascii -> R)
    (fontSize currentDistance : R) (text : list ascii) : list R :=
  match text with
  | [] => []
  | char :: rest =>
      (currentDistance + measureText fontSize char / 2)
      :: anchorDistances measureText fontSize (currentDistance + measureText fontSize char) rest
  end.

(** A placement sits where [interpolatePosition] puts its anchor. *)
Definition placedAt (path : option RiverPath) (startIdx : Z)
    (placement : CharacterPlacement) (distance : R) : Prop :=
  interpolatePosition path startIdx distance
  = Ok (mkPosition (cp_x placement) (cp_y placement) (cp_angle placement)).

(** A host whose every glyph is [0.6 * fontSize] wide, as the source
    assumes without a canvas. *)
Definition fallbackMeasure (fontSize : R) (_ : ascii) : R := fontSize * 0.6.

Definition shortPath : RiverPath :=
  mkRiverPath [mkPoint 0 0; mkPoint 10 0] None 10 (mkBounds 0 10 0 0).

Definition singlePointPath : RiverPath :=
  mkRiverPath [mkPoint 0 0] None 0 (mkBounds 0 0 0 0).

Definition inRange (v : R) : Prop := 0 <= v <= 100.

(** The four scores and their weighted sum, for a window. *)
Definition scoresInRange (c : Candidate) : Prop :=
  inRange (sc_curvature (scores c))
  /\ inRange (sc_width (scores c))
  /\ inRange (sc_position (scores c))
  /\ inRange (sc_straightness (scores c))
  /\ inRange (score c).

(** The path [parse] builds from [[[0,0,20],[10,0],[20,0,20]]]. *)
Definition gapPath : RiverPath :=
  mkRiverPath [mkPoint 0 0; mkPoint 10 0; mkPoint 20 0]
              (Some [Some 20; None; Some 20])
              (RiverPathParser.totalLengthOf [mkPoint 0 0; mkPoint 10 0; mkPoint 20 0])
              (RiverPathParser.boundsOf [mkPoint 0 0; mkPoint 10 0; mkPoint 20 0]).

(** The path [[(0,0),(10,0),(10,10)]] with its length and bounds. *)
Definition rightAnglePath : RiverPath :=
  mkRiverPath [mkPoint 0 0; mkPoint 10 0; mkPoint 10 10] None 20
              (mkBounds 0 10 0 10).

Definition triangle : list (R * R) := [(0, 0); (4, 0); (0, 3)].

(** The straight path [[(0,0),(10,0),(20,0),(30,0),(40,0)]]. *)
Definition straightCoords : list JsValue :=
  [JArray [JNumber 0; JNumber 0]; JArray [JNumber 10; JNumber 0];
   JArray [JNumber 20; JNumber 0]; JArray [JNumber 30; JNumber 0];
   JArray [JNumber 40; JNumber 0]].

Definition straightPath : RiverPath :=
  mkRiverPath [mkPoint 0 0; mkPoint 10 0; mkPoint 20 0; mkPoint 30 0; mkPoint 40 0]
              None 40 (mkBounds 0 40 0 0).

Definition straightMetrics : GeometryMetrics :=
  mkGeometryMetrics [0; 0; 0; 0; 0] [] []
    (mkEdgeSections (mkSegment 0 1 10 (Some EdgeSection))
                    (mkSegment 3 4 10 (Some EdgeSection)))
    0 0.

(** A label measured at 100 pixels whatever the text. *)
Definition wideLabel (_ : string) (_ : R) : R := 100.

(** The coordinate list
    [[[0,0],[10,0],[20,0,-5],[30,0,20],[40,0,20],[50,0,20]]]: the first two
    points carry no width, the third one a negative width. *)
Definition lateWidthCoords : list JsValue :=
  [JArray [JNumber 0; JNumber 0]; JArray [JNumber 10; JNumber 0];
   JArray [JNumber 20; JNumber 0; JNumber (-5)];
   JArray [JNumber 30; JNumber 0; JNumber 20];
   JArray [JNumber 40; JNumber 0; JNumber 20];
   JArray [JNumber 50; JNumber 0; JNumber 20]].

Definition lateWidthPath : RiverPath :=
  mkRiverPath [mkPoint 0 0; mkPoint 10 0; mkPoint 20 0; mkPoint 30 0;
               mkPoint 40 0; mkPoint 50 0]
              (Some [Some (-5); Some 20; Some 20; Some 20])
              50 (mkBounds 0 50 0 0).

Definition lateWidthMetrics : GeometryMetrics :=
  mkGeometryMetrics [0; 0; 0; 0; 0; 0] []
    [mkSegment 0 0 0 (Some NarrowSection)]
    (mkEdgeSections (mkSegment 0 1 10 (Some EdgeSection))
                    (mkSegment 4 5 10 (Some EdgeSection)))
    0 0.

(** A label measured at 1000 pixels whatever the text. *)
Definition hugeLabel (_ : string) (_ : R) : R := 1000.

End Vocabulary.

(* ====================================================================== *)
(** * Further vocabulary and inputs *)
(* ====================================================================== *)

Section MoreVocabulary.

Local Open Scope R_scope.

(** One step of the bounding-box loop of [parse]. *)
Definition boundsStep (pts : list Point) (b : Bounds) (i : nat) : Bounds :=
  mkBounds (Rmin (minX b) (px (pt pts i))) (Rmax (maxX b) (px (pt pts i)))
           (Rmin (minY b) (py (pt pts i))) (Rmax (maxY b) (py (pt pts i))).

(** Consecutive segments of a list are separated: each one ends at least
    two indices before the next one starts. *)
Definition separated (segs : list Segment) : Prop :=
  ForallOrdPairs (fun a b => (seg_endIdx a + 1 < seg_startIdx b)%nat) segs.

(** The point of the segment that starts at index [i], at the fraction
    [t] of the way to the next point, with the direction of that
    segment. *)
Definition onSegment (pts : list Point) (i : nat) (t : R) : Position :=
  mkPosition (px (pt pts i) + (px (pt pts (i + 1)) - px (pt pts i)) * t)
             (py (pt pts i) + (py (pt pts (i + 1)) - py (pt pts i)) * t)
             (atan2 (py (pt pts (i + 1)) - py (pt pts i))
                    (px (pt pts (i + 1)) - px (pt pts i))).

(** A placement sits on the path inside the window [startIdx..endIdx]. *)
Definition insideWindow (path : RiverPath) (startIdx endIdx : nat)
    (placement : CharacterPlacement) : Prop :=
  exists i t,
    (startIdx <= i < endIdx)%nat /\ 0 <= t <= 1
    /\ mkPosition (cp_x placement) (cp_y placement) (cp_angle placement)
       = onSegment (points path) i t.

(** The width and the point of a centerline entry [[x, y, width]]. *)
Definition entryWidth (entry : R * R * R) : R := snd entry.

Definition entryPoint (entry : R * R * R) : Point :=
  mkPoint (fst (fst entry)) (snd (fst entry)).

(** The point at the fraction [t] of the edge of the ring that starts at
    vertex [i] and ends at the next vertex, the first one after the
    last. *)
Definition onEdge (polygonCoords : list (R * R)) (i : nat) (t : R) : Point :=
  let p1 := nth i polygonCoords (0, 0) in
  let p2 := nth ((i + 1) mod length polygonCoords) polygonCoords (0, 0) in
  mkPoint (fst p1 + t * (fst p2 - fst p1)) (snd p1 + t * (snd p2 - snd p1)).

(** The sampling line: [x = value] or [y = value]. *)
Definition onLine (direction : Direction) (value : R) (p : Point) : Prop :=
  match direction with
  | vertical => px p = value
  | horizontal => py p = value
  end.

(** The coordinate list [[[0,0],[10,0],[10,10]]] of [rightAnglePath]. *)
Definition rightAngleCoords : list JsValue :=
  [JArray [JNumber 0; JNumber 0]; JArray [JNumber 10; JNumber 0];
   JArray [JNumber 10; JNumber 10]].

(** The ring [[(0,0),(20,0),(40,0),(40,4),(20,4),(0,4)]]: a band of width
    4 along the x axis, and the path [parse] makes of it. *)
Definition bandRing : list (R * R) :=
  [(0, 0); (20, 0); (40, 0); (40, 4); (20, 4); (0, 4)].

Definition bandPath : RiverPath :=
  mkRiverPath [mkPoint 10 2; mkPoint 20 2; mkPoint 30 2]
              (Some [Some 4; Some 4; Some 4]) 20 (mkBounds 10 30 2 2).

End MoreVocabulary.

(** ** Doubles: statement vocabulary *)
Module DoublesVocabulary.

Import PrimFloat Doubles.

Local Open Scope float_scope.

(** [accumulatedLength] in the first loop of [getEdgeSections] when the
    point [j] has been reached. *)
Definition walked (path : DPath) (j : nat) : float :=
  _calculateSegmentLength path 0 j.

(** [accumulatedLength] in the second loop of [getEdgeSections] when the
    point [j] has been reached from the last point. *)
Definition walkedBack (path : DPath) (j : nat) : float :=
  foldl (fun len i => len + distance (dpt (dpoints path) i) (dpt (dpoints path) (i - 1)))
        0 (rev (seq (j + 1) (length (dpoints path) - 1 - j))).

(** [edgeThreshold] in [getEdgeSections]. *)
#[warnings="-inexact-float"]
Definition edgeThresholdOf (path : DPath) : float := dlength path * 0.1.

(** [accumulatedLength >= edgeThreshold]. *)
Definition reaches (path : DPath) (accumulatedLength : float) : bool :=
  edgeThresholdOf path <=? accumulatedLength.

Definition window (c : DCandidate) : nat * nat :=
  (dseg_startIdx (dsegment c), dseg_endIdx (dsegment c)).

End DoublesVocabulary.


(* ====================================================================== *)
(** * Proof automation *)
(* ====================================================================== *)

(** Settle one comparison of two real numbers that [lra] can decide. *)
Ltac Rsettle d :=
  let H := fresh "Hcmp" in
  first [ destruct d as [H | H]; [exfalso; clear - H; lra | clear H]
        | destruct d as [H | H]; [clear H | exfalso; clear - H; lra] ].

Ltac Rdecide :=
  repeat match goal with
         | |- context [Rgt_dec ?a ?b] => Rsettle (Rgt_dec a b)
         | |- context [Rge_dec ?a ?b] => Rsettle (Rge_dec a b)
         | |- context [Rlt_dec ?a ?b] => Rsettle (Rlt_dec a b)
         | |- context [Rle_dec ?a ?b] => Rsettle (Rle_dec a b)
         | |- context [Req_dec_T ?a ?b] => Rsettle (Req_dec_T a b)
         end.

Lemma sqrt_of_square (a b : R) : (0 <= a)%R -> b = (a * a)%R -> sqrt b = a.
Proof. intros Ha ->. apply sqrt_square. exact Ha. Qed.

(** Replace the square roots of the goal that are the length of a segment
    of length 10 or 0. *)
Ltac eval_sqrt :=
  repeat match goal with
         | |- context [sqrt ?e] =>
             first [ rewrite (sqrt_of_square 10 e) by lra
                   | rewrite (sqrt_of_square 0 e) by lra ]
         end.

(* ====================================================================== *)
(** * Candidate windows (C1) *)
(* ====================================================================== *)

Lemma in_range_incl (a b i : nat) : In i (range_incl a b) <-> a <= i <= b.
Proof. unfold range_incl. rewrite in_seq. lia. Qed.

Lemma in_range_excl (a b i : nat) : In i (range_excl a b) <-> a <= i < b.
Proof. unfold range_excl. rewrite in_seq. lia. Qed.

Lemma range_excl_snoc (a b : nat) :
  a <= b -> range_excl a (S b) = range_excl a b ++ [b].
Proof.
  intros Hab. unfold range_excl.
  replace (S b - a) with (S (b - a)) by lia.
  rewrite seq_S. do 2 f_equal. lia.
Qed.

Module ScorerFacts.
Import PlacementScorer.

Lemma elem_of_foldl_insert (l : list nat) (s : gset nat) (i : nat) :
  i ∈ foldl (fun s j => {[ j ]} ∪ s) s l <-> i ∈ s \/ In i l.
Proof.
  revert s. induction l as [|j l IH]; intros s; simpl.
  - tauto.
  - rewrite IH, elem_of_union, elem_of_singleton. intuition (subst; auto).
Qed.

Lemma elem_of_addRange (s : gset nat) (a b i : nat) :
  i ∈ addRange s a b <-> i ∈ s \/ a <= i <= b.
Proof. unfold addRange. rewrite elem_of_foldl_insert, in_range_incl. tauto. Qed.

Lemma elem_of_foldl_addRange (segs : list Segment) (s : gset nat) (i : nat) :
  i ∈ foldl (fun s seg => addRange s (seg_startIdx seg) (seg_endIdx seg)) s segs
  <-> i ∈ s \/ exists seg, In seg segs /\ covers seg i.
Proof.
  revert s. induction segs as [|seg segs IH]; intros s; simpl.
  - split; [tauto | intros [H | (seg & [] & _)]; exact H].
  - rewrite IH, elem_of_addRange. unfold covers. split.
    + intros [[H | H] | (seg' & Hin & Hc)]; eauto.
    + intros [H | (seg' & [-> | Hin] & Hc)]; eauto.
Qed.

(** The set built by the scorer holds exactly the indices covered by some
    rejected region. *)
Lemma elem_of_rejectedIndices (metrics : GeometryMetrics) (i : nat) :
  i ∈ rejectedIndices metrics
  <-> exists seg, In seg (rejectedRegions metrics) /\ covers seg i.
Proof.
  unfold rejectedIndices, rejectedRegions.
  rewrite !elem_of_addRange, !elem_of_foldl_addRange.
  split.
  - intros [[[[H | (seg & Hin & Hc)] | (seg & Hin & Hc)] | H] | H].
    + exfalso. revert H. apply not_elem_of_empty.
    + exists seg. rewrite in_app_iff. auto.
    + exists seg. rewrite !in_app_iff. auto.
    + eexists. rewrite !in_app_iff. split; [right; right; left; reflexivity | exact H].
    + eexists. rewrite !in_app_iff. split; [right; right; right; left; reflexivity | exact H].
  - intros (seg & Hin & Hc). rewrite !in_app_iff in Hin.
    destruct Hin as [Hin | [Hin | [<- | [<- | []]]]]; eauto 8.
Qed.

Lemma hasRejectedPoint_false (rejected : gset nat) (startIdx endIdx : nat) :
  hasRejectedPoint rejected startIdx endIdx = false ->
  forall i, startIdx < i < endIdx -> i ∉ rejected.
Proof.
  unfold hasRejectedPoint. intros H i Hi Hin.
  assert (existsb (fun i => bool_decide (i ∈ rejected))
            (range_excl (startIdx + 1) endIdx) = true) as Ht.
  { apply existsb_exists. exists i. split.
    - apply in_range_excl. lia.
    - apply bool_decide_eq_true. exact Hin. }
  congruence.
Qed.

(** The accumulated length the scorer carries for a window is the
    analyzer's segment length between the two indices. *)
Lemma segmentLength_snoc (path : RiverPath) (a b : nat) :
  a <= b ->
  GeometryAnalyzer._calculateSegmentLength path a (S b)
  = (GeometryAnalyzer._calculateSegmentLength path a b
     + distance (pt (points path) b) (pt (points path) (b + 1)))%R.
Proof.
  intros Hab. unfold GeometryAnalyzer._calculateSegmentLength.
  rewrite range_excl_snoc by exact Hab.
  rewrite foldl_app. reflexivity.
Qed.

Lemma segmentLength_empty (path : RiverPath) (a : nat) :
  GeometryAnalyzer._calculateSegmentLength path a a = 0%R.
Proof.
  unfold GeometryAnalyzer._calculateSegmentLength, range_excl.
  rewrite Nat.sub_diag. reflexivity.
Qed.

(** What the inner loop of [findCandidates] emits from the state it is in
    when [endIdx] is about to take the value [k]. *)
Lemma extendFrom_spec (path : RiverPath) (metrics : GeometryMetrics)
    (rejected : gset nat) (textLength : R) (startIdx : nat) :
  forall (len k : nat) (segmentLength : R) (c : Candidate),
    startIdx < k ->
    segmentLength = GeometryAnalyzer._calculateSegmentLength path startIdx (k - 1) ->
    In c (extendFrom path metrics rejected textLength startIdx segmentLength (seq k len)) ->
    exists endIdx,
      k <= endIdx < k + len
      /\ c = mkCand path metrics startIdx endIdx
               (GeometryAnalyzer._calculateSegmentLength path startIdx endIdx)
      /\ (forall i, startIdx < i <= endIdx -> i ∉ rejected)
      /\ (textLength <= GeometryAnalyzer._calculateSegmentLength path startIdx endIdx)%R.
Proof.
  induction len as [|len IH]; intros k segmentLength c Hk Hlen Hin; simpl in Hin.
  - destruct Hin.
  - destruct (bool_decide (k ∈ rejected)) eqn:Hrej; [destruct Hin|].
    apply bool_decide_eq_false in Hrej.
    destruct (hasRejectedPoint rejected startIdx k) eqn:Hmid; [destruct Hin|].
    assert (segmentLength + distance (pt (points path) (k - 1)) (pt (points path) k)
            = GeometryAnalyzer._calculateSegmentLength path startIdx k)%R as Hstep.
    { subst segmentLength.
      replace k with (S (k - 1)) at 3 4 by lia.
      rewrite segmentLength_snoc by lia.
      do 3 f_equal. lia. }
    rewrite Hstep in Hin.
    apply in_app_iff in Hin. destruct Hin as [Hin | Hin].
    + destruct (Rge_dec _ textLength) as [Hge | Hlt]; [|destruct Hin].
      destruct Hin as [<- | []].
      exists k. split; [lia|]. split; [reflexivity|]. split.
      * intros i Hi. destruct (decide (i = k)) as [-> | Hne]; [exact Hrej|].
        apply (hasRejectedPoint_false _ _ _ Hmid). lia.
      * apply Rge_le. exact Hge.
    + apply IH in Hin; [|lia|].
      * destruct Hin as (endIdx & Hr & Hc & Hfree & Hlong).
        exists endIdx. split; [lia|]. auto.
      * replace (S k - 1) with k by lia. reflexivity.
Qed.

(** Every candidate of [findCandidates] is built by [mkCand] for a window
    inside the path, none of whose indices is in the rejected set, with the
    sum of the segment lengths of the window, which is at least the text
    length. *)
Lemma findCandidates_inv (path : RiverPath) (textLength : R)
    (metrics : GeometryMetrics) (c : Candidate) :
  In c (findCandidates path textLength metrics) ->
  exists startIdx endIdx,
    startIdx < endIdx < length (points path)
    /\ c = mkCand path metrics startIdx endIdx
             (GeometryAnalyzer._calculateSegmentLength path startIdx endIdx)
    /\ (forall i, startIdx <= i <= endIdx -> i ∉ rejectedIndices metrics)
    /\ (textLength <= GeometryAnalyzer._calculateSegmentLength path startIdx endIdx)%R.
Proof.
  intros Hin. unfold findCandidates in Hin.
  apply in_flat_map in Hin. destruct Hin as (startIdx & Hstart & Hin).
  apply in_range_excl in Hstart.
  destruct (bool_decide (startIdx ∈ rejectedIndices metrics)) eqn:Hrej;
    [destruct Hin|].
  apply bool_decide_eq_false in Hrej.
  unfold range_excl in Hin.
  apply extendFrom_spec in Hin.
  - destruct Hin as (endIdx & Hr & -> & Hfree & Hlong).
    exists startIdx, endIdx. split; [lia|]. split; [reflexivity|].
    split; [|exact Hlong].
    intros i Hi. destruct (decide (i = startIdx)) as [-> | Hne]; [exact Hrej|].
    apply Hfree. lia.
  - lia.
  - replace (startIdx + 1 - 1) with startIdx by lia.
    symmetry. apply segmentLength_empty.
Qed.

End ScorerFacts.

Import PlacementScorer ScorerFacts.

(** C1.  Every candidate emitted by [findCandidates] has a window
    [startIdx..endIdx] inside the path that contains no index covered by a
    rejected region (sharp-curve, narrow-section or either edge region),
    and the accumulated length stored for the window, which is the sum of
    its segment lengths, is at least the text length. *)
Theorem findCandidates_windows_avoid_rejected_and_fit
    (path : RiverPath) (textLength : R) (metrics : GeometryMetrics) :
  Forall (fun c =>
            let startIdx := seg_startIdx (segment c) in
            let endIdx := seg_endIdx (segment c) in
            startIdx < endIdx < length (points path)
            /\ (forall i seg, startIdx <= i <= endIdx ->
                              In seg (rejectedRegions metrics) -> ~ covers seg i)
            /\ seg_length (segment c)
               = GeometryAnalyzer._calculateSegmentLength path startIdx endIdx
            /\ (textLength <= seg_length (segment c))%R)
         (findCandidates path textLength metrics).
Proof.
  apply List.Forall_forall. intros c Hin.
  apply findCandidates_inv in Hin.
  destruct Hin as (startIdx & endIdx & Hr & -> & Hfree & Hlong). simpl.
  split; [exact Hr|]. split; [|split; [reflexivity | exact Hlong]].
  intros i seg Hi Hseg Hc. apply (Hfree i Hi).
  apply elem_of_rejectedIndices. exists seg. auto.
Qed.

(* ====================================================================== *)
(** * Selection (C2) *)
(* ====================================================================== *)

Module SelectFacts.
Import PlacementScorer.
Local Open Scope R_scope.

(** The first scan of [selectOptimal] ends above its seed and above every
    score, on the seed or on one of the scores. *)
Lemma maxScore_spec (candidates : list Candidate) (seed : R) :
  let m := foldl maxStep seed candidates in
  seed <= m
  /\ (forall c, In c candidates -> score c <= m)
  /\ (m = seed \/ exists c, In c candidates /\ score c = m).
Proof.
  revert seed. induction candidates as [|c0 cs IH]; intros seed; simpl.
  - split; [lra|]. split; [intros c []|]. left. reflexivity.
  - specialize (IH (maxStep seed c0)). simpl in IH.
    destruct IH as (Hseed & Hall & Hex).
    assert (seed <= maxStep seed c0 /\ score c0 <= maxStep seed c0) as [H1 H2].
    { unfold maxStep. destruct (Rgt_dec (score c0) seed); lra. }
    split; [lra|]. split.
    + intros c [<- | Hin]; [lra | auto].
    + destruct Hex as [Hm | (c & Hin & Hc)].
      * assert (maxStep seed c0 = seed \/ maxStep seed c0 = score c0) as [Hs | Hs].
        { unfold maxStep. destruct (Rgt_dec (score c0) seed); auto. }
        -- left. congruence.
        -- right. exists c0. split; [left; reflexivity | congruence].
      * right. exists c. auto.
Qed.

(** The tie-break scan keeps the first candidate of highest position score
    among the ones scanned so far. *)
Lemma bestStep_spec (rest pre : list Candidate) (b0 : Candidate) (post0 : list Candidate) :
  (forall c, In c pre -> position c < position b0) ->
  (forall c, In c post0 -> position c <= position b0) ->
  let '(best, bestPos) := foldl bestStep (b0, position b0) rest in
  bestPos = position best
  /\ exists pre' post',
       pre ++ b0 :: post0 ++ rest = pre' ++ best :: post'
       /\ (forall c, In c pre' -> position c < position best)
       /\ (forall c, In c post' -> position c <= position best).
Proof.
  revert pre b0 post0.
  induction rest as [|c rest IH]; intros pre b0 post0 Hpre Hpost; simpl.
  - split; [reflexivity|]. exists pre, post0. rewrite app_nil_r. auto.
  - destruct (Rgt_dec (position c) (position b0)) as [Hgt | Hle].
    + specialize (IH (pre ++ b0 :: post0) c []).
      destruct (foldl bestStep (c, position c) rest) as [best bestPos].
      destruct IH as (Hb & pre' & post' & Heq & H1 & H2).
      * intros c' Hin. apply in_app_iff in Hin.
        destruct Hin as [Hin | [<- | Hin]].
        -- specialize (Hpre _ Hin). lra.
        -- lra.
        -- specialize (Hpost _ Hin). lra.
      * intros c' [].
      * split; [exact Hb|]. exists pre', post'. split; [|auto].
        rewrite <- Heq. rewrite <- !app_assoc. simpl. reflexivity.
    + specialize (IH pre b0 (post0 ++ [c])).
      destruct (foldl bestStep (b0, position b0) rest) as [best bestPos].
      destruct IH as (Hb & pre' & post' & Heq & H1 & H2).
      * exact Hpre.
      * intros c' Hin. apply in_app_iff in Hin.
        destruct Hin as [Hin | [<- | []]]; [auto | lra].
      * split; [exact Hb|]. exists pre', post'. split; [|auto].
        rewrite <- Heq. rewrite <- !app_assoc. simpl. reflexivity.
Qed.

(** An occurrence in a filtered list comes from an occurrence in the list. *)
Lemma filter_split {A : Type} (f : A -> bool) (l : list A) :
  forall pre x post,
    List.filter f l = pre ++ x :: post ->
    exists pre' post',
      l = pre' ++ x :: post'
      /\ List.filter f pre' = pre /\ List.filter f post' = post.
Proof.
  induction l as [|a l IH]; intros pre x post Heq; simpl in Heq.
  - destruct pre; discriminate.
  - destruct (f a) eqn:Hfa.
    + destruct pre as [|p pre]; simpl in Heq.
      * injection Heq as -> Hrest. exists [], l. simpl. auto.
      * injection Heq as -> Hrest.
        destruct (IH _ _ _ Hrest) as (pre' & post' & -> & Hp & Hq).
        exists (p :: pre'), post'. simpl. rewrite Hfa, Hp. auto.
    + destruct (IH _ _ _ Heq) as (pre' & post' & -> & Hp & Hq).
      exists (a :: pre'), post'. simpl. rewrite Hfa. auto.
Qed.

Lemma Reqb_true (a b : R) : Reqb a b = true <-> a = b.
Proof. unfold Reqb. destruct (Req_dec_T a b); split; auto; discriminate. Qed.

Lemma selectOptimal_two_or_more (c1 c2 : Candidate) (cs : list Candidate) :
  selectOptimal (c1 :: c2 :: cs) = selectAmong (c1 :: c2 :: cs).
Proof.
  unfold selectOptimal, selectAmong.
  change (fun maxScore candidate =>
            if Rgt_dec (score candidate) maxScore then score candidate else maxScore)
    with maxStep.
  destruct (List.filter _ (c1 :: c2 :: cs)) as [|c0 [|c0' rest]]; try reflexivity.
  unfold bestStep, position.
  destruct (foldl _ _ (c0' :: rest)). reflexivity.
Qed.

Lemma selectAmong_spec (candidates : list Candidate) :
  (exists c, In c candidates /\ -1 <= score c) ->
  exists best pre post,
    selectAmong candidates = Ok (Some best)
    /\ candidates = pre ++ best :: post
    /\ (forall c, In c candidates -> score c <= score best)
    /\ (forall c, In c candidates -> score c = score best ->
                  position c <= position best)
    /\ (forall c, In c pre ->
                  ~ (score c = score best /\ position c = position best)).
Proof.
  intros (cw & Hcw & Hge).
  unfold selectAmong.
  pose proof (maxScore_spec candidates (-1)) as Hmax. simpl in Hmax.
  set (m := foldl maxStep (-1) candidates) in *.
  destruct Hmax as (Hseed & Hall & Hex).
  assert (exists c, In c candidates /\ score c = m) as (cm & Hcm & Hscm).
  { destruct Hex as [Hm | Hex]; [|exact Hex].
    exists cw. split; [exact Hcw|]. specialize (Hall _ Hcw). lra. }
  destruct (List.filter (fun c => Reqb (score c) m) candidates) as [|c0 rest] eqn:Hf.
  - exfalso.
    assert (In cm (List.filter (fun c => Reqb (score c) m) candidates)) as Hin.
    { apply filter_In. split; [exact Hcm|]. apply Reqb_true. exact Hscm. }
    rewrite Hf in Hin. destruct Hin.
  - pose proof (bestStep_spec rest [] c0 []) as Hb.
    destruct (foldl bestStep (c0, position c0) rest) as [best bestPos].
    destruct Hb as (_ & pre & post & Heq & Hlt & Hle);
      [intros c [] | intros c [] |].
    simpl in Heq. rewrite Heq in Hf.
    destruct (filter_split _ _ _ _ _ Hf) as (pre' & post' & Hl & Hp & Hq).
    assert (score best = m) as Hbest.
    { assert (In best (List.filter (fun c => Reqb (score c) m) candidates)) as Hin.
      { rewrite Hf. apply in_app_iff. right. left. reflexivity. }
      apply filter_In in Hin. apply Reqb_true. tauto. }
    exists best, pre', post'. simpl.
    split; [reflexivity|]. split; [exact Hl|]. split; [|split].
    + intros c Hin. rewrite Hbest. auto.
    + intros c Hin Hsc.
      assert (In c (pre ++ best :: post)) as Hin'.
      { rewrite <- Hf. apply filter_In. split; [exact Hin|].
        apply Reqb_true. congruence. }
      apply in_app_iff in Hin'. destruct Hin' as [Hin' | [<- | Hin']].
      * specialize (Hlt _ Hin'). lra.
      * lra.
      * auto.
    + intros c Hin [Hsc Hpos].
      assert (In c pre) as Hin'.
      { rewrite <- Hp. apply filter_In. split; [exact Hin|].
        apply Reqb_true. congruence. }
      specialize (Hlt _ Hin'). lra.
Qed.

End SelectFacts.

Import PlacementScorer SelectFacts.

Section Selection.

Local Open Scope R_scope.

(** C2.  For every non-empty candidate list whose overall scores lie in
    [0, 100], the range of every score of the data model,
    [selectOptimal] returns a candidate of the list whose overall score is
    the maximum over the list; among the candidates tied at that maximum
    it has the highest position score; and it is the first candidate in
    list order with that overall score and that position score. *)
Theorem selectOptimal_maximal_first (candidates : list Candidate) :
  candidates <> [] ->
  Forall (fun c => inRange (score c)) candidates ->
  exists best pre post,
    selectOptimal candidates = Ok (Some best)
    /\ candidates = pre ++ best :: post
    /\ (forall c, In c candidates -> score c <= score best)
    /\ (forall c, In c candidates -> score c = score best ->
                  position c <= position best)
    /\ (forall c, In c pre ->
                  ~ (score c = score best /\ position c = position best)).
Proof.
  intros Hne Hscores.
  destruct candidates as [|c1 [|c2 cs]]; [congruence | |].
  - exists c1, [], []. simpl. split; [reflexivity|]. split; [reflexivity|].
    split; [|split].
    + intros c [<- | []]. lra.
    + intros c [<- | []] _. lra.
    + intros c [].
  - rewrite selectOptimal_two_or_more. apply selectAmong_spec.
    exists c1. split; [left; reflexivity|].
    inversion Hscores as [|? ? H1 _]; subst. unfold inRange in H1. lra.
Qed.

Lemma selectOptimal_maximal_first_witness :
  [cand 10 5; cand 70 20; cand 70 90; cand 70 90] <> []
  /\ Forall (fun c => inRange (score c)) [cand 10 5; cand 70 20; cand 70 90; cand 70 90]
  /\ exists best pre post,
       selectOptimal [cand 10 5; cand 70 20; cand 70 90; cand 70 90]
       = Ok (Some best)
       /\ [cand 10 5; cand 70 20; cand 70 90; cand 70 90] = pre ++ best :: post
       /\ (forall c, In c [cand 10 5; cand 70 20; cand 70 90; cand 70 90] ->
                     score c <= score best)
       /\ (forall c, In c [cand 10 5; cand 70 20; cand 70 90; cand 70 90] ->
                     score c = score best -> position c <= position best)
       /\ (forall c, In c pre ->
                     ~ (score c = score best /\ position c = position best)).
Proof.
  assert ([cand 10 5; cand 70 20; cand 70 90; cand 70 90] <> []) as H1 by discriminate.
  assert (Forall (fun c => inRange (score c))
                 [cand 10 5; cand 70 20; cand 70 90; cand 70 90]) as H2.
  { repeat constructor; unfold cand; simpl; lra. }
  split; [exact H1|]. split; [exact H2|].
  exact (selectOptimal_maximal_first _ H1 H2).
Defined.

(** The selection relies on that range.  The maximum scan starts from the
    seed [-1]: on two candidates that both score [-5], a value no score
    of the data model takes, the scan keeps the seed, no candidate equals
    it, and the read of [topCandidates[0].scores] throws. *)
Lemma selectOptimal_all_below_seed_throws :
  [cand (-5) 50; cand (-5) 60] <> []
  /\ selectOptimal [cand (-5) 50; cand (-5) 60] = Throw TypeError.
Proof.
  split; [discriminate|].
  rewrite selectOptimal_two_or_more.
  unfold selectAmong, maxStep, Reqb, cand. simpl. Rdecide. reflexivity.
Qed.

End Selection.

(* ====================================================================== *)
(** * Parsing (C5) *)
(* ====================================================================== *)

Module ParserFacts.
Import RiverPathParser.

Lemma validateCoord_None (i : nat) (coord : JsValue) :
  validateCoord i coord = None <-> wellFormedCoord coord.
Proof.
  split.
  - destruct coord as [| | | | | | |elems]; simpl; try discriminate.
    destruct elems as [|a [|b [|c [|d elems]]]]; simpl; try discriminate.
    + destruct a, b; simpl; try discriminate. intros _. constructor.
    + destruct a, b, c; simpl; try discriminate. intros _. constructor.
  - intros []; reflexivity.
Qed.

Lemma validateFrom_Valid (coordinates : list JsValue) (i : nat) :
  validateFrom i coordinates = Valid <-> Forall wellFormedCoord coordinates.
Proof.
  revert i. induction coordinates as [|coord rest IH]; intros i; simpl.
  - split; [constructor | reflexivity].
  - destruct (validateCoord i coord) eqn:Hc.
    + split; [discriminate|]. intros H. inversion H as [|? ? Hwf _]; subst.
      apply (validateCoord_None i) in Hwf. congruence.
    + rewrite IH. apply validateCoord_None in Hc.
      split; [intros H; constructor; assumption | intros H; inversion H; assumption].
Qed.

(** [validate] accepts exactly the arrays of three or more entries that
    each hold two or three finite numbers; no field is tested for sign. *)
Lemma validate_Valid (coordinates : list JsValue) :
  validate (JArray coordinates) = Valid
  <-> 3 <= length coordinates /\ Forall wellFormedCoord coordinates.
Proof.
  unfold validate. destruct (length coordinates <? 3) eqn:Hlen.
  - apply Nat.ltb_lt in Hlen. split; [discriminate | lia].
  - apply Nat.ltb_ge in Hlen. rewrite validateFrom_Valid. tauto.
Qed.

(** The extraction loop, in closed form.  Once a width has been seen every
    entry contributes one slot of [widths]; before that, entries without a
    width contribute none. *)
Lemma extract_after_width (coordinates : list JsValue)
    (points : list Point) (widths : list (option R)) :
  Forall wellFormedCoord coordinates ->
  foldl extractStep (points, widths, true) coordinates
  = (points ++ map coordPoint coordinates, widths ++ map coordWidth coordinates, true).
Proof.
  intros Hwf. revert points widths.
  induction Hwf as [|coord rest Hc _ IH]; intros points widths; simpl.
  - rewrite !app_nil_r. reflexivity.
  - destruct Hc; simpl; rewrite IH, <- !app_assoc; reflexivity.
Qed.

Lemma extract_before_width (coordinates : list JsValue)
    (points : list Point) (widths : list (option R)) :
  Forall wellFormedCoord coordinates ->
  foldl extractStep (points, widths, false) coordinates
  = (points ++ map coordPoint coordinates,
     widths ++ map coordWidth (fromFirstWidth coordinates),
     match fromFirstWidth coordinates with [] => false | _ => true end).
Proof.
  intros Hwf. revert points widths.
  induction Hwf as [|coord rest Hc Hrest IH]; intros points widths; simpl.
  - rewrite !app_nil_r. reflexivity.
  - destruct Hc; simpl.
    + rewrite IH, <- !app_assoc. reflexivity.
    + rewrite extract_after_width by exact Hrest.
      rewrite <- !app_assoc. reflexivity.
Qed.

(** The RiverPath [parse] builds from a coordinate array it accepts. *)
Lemma build_Ok (coordinates : list JsValue) :
  3 <= length coordinates ->
  Forall wellFormedCoord coordinates ->
  build (JArray coordinates)
  = Ok (mkRiverPath
          (map coordPoint coordinates)
          (match fromFirstWidth coordinates with
           | [] => None
           | rest => Some (map coordWidth rest)
           end)
          (totalLengthOf (map coordPoint coordinates))
          (boundsOf (map coordPoint coordinates))).
Proof.
  intros Hlen Hwf. unfold build.
  assert (validate (JArray coordinates) = Valid) as -> by (apply validate_Valid; auto).
  rewrite extract_before_width by exact Hwf. simpl.
  destruct (fromFirstWidth coordinates); reflexivity.
Qed.

Lemma build_Ok_inv (coordinates : list JsValue) (path : RiverPath) :
  build (JArray coordinates) = Ok path ->
  3 <= length coordinates /\ Forall wellFormedCoord coordinates.
Proof.
  unfold build. destruct (validate (JArray coordinates)) eqn:Hv; [|discriminate].
  intros _. apply validate_Valid. exact Hv.
Qed.

End ParserFacts.

Import RiverPathParser ParserFacts.

Section Parsing.

Local Open Scope R_scope.

(** The part of C5 that holds on every accepted input: one point per
    entry, in order; and when the first entry carries a width, one slot of
    [widths] per entry, holding that entry's width or [null]. *)
Lemma parse_points_and_aligned_widths (coordinates : list JsValue) (path : RiverPath) :
  build (JArray coordinates) = Ok path ->
  points path = map coordPoint coordinates
  /\ length (points path) = length coordinates
  /\ (forall c rest, coordinates = c :: rest -> coordWidth c <> None ->
        widths path = Some (map coordWidth coordinates)).
Proof.
  intros Hb. destruct (build_Ok_inv _ _ Hb) as [Hlen Hwf].
  rewrite build_Ok in Hb by assumption. injection Hb as <-. simpl.
  split; [reflexivity|]. split; [apply length_map|].
  intros c rest -> Hw. simpl.
  destruct (coordWidth c) eqn:Hc; [rewrite Hc; reflexivity | congruence].
Qed.

(** C5 at the input [[[0,0],[10,10,5],[20,0]]]: three points are stored,
    but [widths] has two slots, and the width [5] of the point at index 1
    sits at index 0. *)
Lemma parse_leading_point_without_width :
  exists path,
    build (JArray [JArray [JNumber 0; JNumber 0];
                   JArray [JNumber 10; JNumber 10; JNumber 5];
                   JArray [JNumber 20; JNumber 0]]) = Ok path
    /\ length (points path) = 3%nat
    /\ widths path = Some [Some 5; None].
Proof.
  eexists. split.
  - apply build_Ok; [simpl; lia | repeat constructor].
  - simpl. split; reflexivity.
Qed.

End Parsing.

(* ====================================================================== *)
(** * Narrow sections (C6) *)
(* ====================================================================== *)

Module AnalyzerFacts.
Import GeometryAnalyzer.

Section ScanRuns.

Variables (path : RiverPath) (reason : Reason) (test : nat -> bool) (total : nat).

(** Every segment the scanner pushes lies inside the array, covers only
    indices that pass the test, and carries the scanner's reason. *)
Lemma scanRuns_sound (len : nat) :
  forall (k : nat) (inRun : bool) (startIdx : nat) (seg : Segment),
    k + len = total ->
    (inRun = true -> startIdx < k /\ forall j, startIdx <= j < k -> test j = true) ->
    In seg (scanRuns path reason test total inRun startIdx (seq k len)) ->
    seg_startIdx seg <= seg_endIdx seg < total
    /\ seg_reason seg = Some reason
    /\ forall j, covers seg j -> test j = true.
Proof.
  induction len as [|len IH]; intros k inRun startIdx seg Hk Hinv Hin; simpl in Hin.
  - destruct inRun; [|destruct Hin]. destruct (Hinv eq_refl) as [Hs Hrun].
    destruct Hin as [<- | []]. unfold covers. simpl.
    split; [lia|]. split; [reflexivity|]. intros j Hj. apply Hrun. lia.
  - destruct (test k) eqn:Htk.
    + destruct inRun.
      * destruct (Hinv eq_refl) as [Hs Hrun].
        apply (IH (S k) true startIdx seg); [lia | | exact Hin].
        intros _. split; [lia|]. intros j Hj.
        destruct (decide (j = k)) as [-> | Hne]; [exact Htk | apply Hrun; lia].
      * apply (IH (S k) true k seg); [lia | | exact Hin].
        intros _. split; [lia|]. intros j Hj.
        replace j with k by lia. exact Htk.
    + destruct inRun.
      * destruct (Hinv eq_refl) as [Hs Hrun].
        destruct Hin as [<- | Hin].
        -- unfold covers. simpl. split; [lia|]. split; [reflexivity|].
           intros j Hj. apply Hrun. lia.
        -- apply (IH (S k) false startIdx seg); [lia | discriminate | exact Hin].
      * apply (IH (S k) false startIdx seg); [lia | discriminate | exact Hin].
Qed.

(** Every index that passes the test is covered by a pushed segment. *)
Lemma scanRuns_cover (len : nat) :
  forall (k : nat) (inRun : bool) (startIdx j : nat),
    k + len = total ->
    (inRun = true -> startIdx < k) ->
    test j = true ->
    (k <= j < total \/ (inRun = true /\ startIdx <= j < k)) ->
    exists seg,
      In seg (scanRuns path reason test total inRun startIdx (seq k len))
      /\ covers seg j.
Proof.
  induction len as [|len IH]; intros k inRun startIdx j Hk Hinv Htj Hj; simpl.
  - destruct Hj as [Hj | [-> Hj]]; [lia|].
    eexists. split; [left; reflexivity|]. unfold covers. simpl. lia.
  - destruct (test k) eqn:Htk.
    + destruct inRun.
      * apply IH; [lia | lia | exact Htj |].
        destruct Hj as [Hj | [_ Hj]]; [|right; split; [reflexivity | lia]].
        destruct (decide (j = k)) as [-> | Hne].
        -- right. specialize (Hinv eq_refl). split; [reflexivity | lia].
        -- left. lia.
      * apply IH; [lia | lia | exact Htj |].
        destruct Hj as [Hj | [Hf _]]; [|discriminate].
        destruct (decide (j = k)) as [-> | Hne].
        -- right. split; [reflexivity | lia].
        -- left. lia.
    + destruct inRun.
      * destruct Hj as [Hj | [_ Hj]].
        -- destruct (IH (S k) false startIdx j) as (seg & Hin & Hc);
             [lia | discriminate | exact Htj | | ].
           ++ left. assert (j <> k) by congruence. lia.
           ++ exists seg. split; [right; exact Hin | exact Hc].
        -- eexists. split; [left; reflexivity|]. unfold covers. simpl. lia.
      * destruct Hj as [Hj | [Hf _]]; [|discriminate].
        apply IH; [lia | discriminate | exact Htj |].
        left. assert (j <> k) by congruence. lia.
Qed.

End ScanRuns.

Local Open Scope R_scope.

(** A narrow-section region covers only indices whose entry of [widths],
    read as a number, is below the minimum. *)
Lemma findNarrowSections_sound (path : RiverPath) (minWidth : R) (seg : Segment) :
  In seg (findNarrowSections path minWidth) ->
  exists ws,
    widths path = Some ws
    /\ seg_reason seg = Some NarrowSection
    /\ forall i, covers seg i ->
         (i < length ws)%nat /\ toNumber (nth i ws None) < minWidth.
Proof.
  unfold findNarrowSections. destruct (widths path) as [[|w ws]|]; try (intros []).
  intros Hin. exists (w :: ws). split; [reflexivity|].
  apply scanRuns_sound in Hin; [|reflexivity | discriminate].
  destruct Hin as (Hr & Hreason & Htest). split; [exact Hreason|].
  intros i Hi. split; [unfold covers in Hi; lia|].
  specialize (Htest i Hi).
  destruct (Rlt_dec (toNumber (nth i (w :: ws) None)) minWidth); [assumption | discriminate].
Qed.

(** Every index whose entry of [widths], read as a number, is below the
    minimum is covered by a narrow-section region. *)
Lemma findNarrowSections_cover (path : RiverPath) (minWidth : R)
    (ws : list (option R)) (i : nat) :
  widths path = Some ws ->
  (i < length ws)%nat ->
  toNumber (nth i ws None) < minWidth ->
  exists seg, In seg (findNarrowSections path minWidth) /\ covers seg i.
Proof.
  intros Hw Hi Hlt. unfold findNarrowSections. rewrite Hw.
  destruct ws as [|w ws]; [simpl in Hi; lia|].
  apply scanRuns_cover; [reflexivity | discriminate | | left; lia].
  destruct (Rlt_dec (toNumber (nth i (w :: ws) None)) minWidth); [reflexivity | contradiction].
Qed.

End AnalyzerFacts.

Import GeometryAnalyzer AnalyzerFacts.

Section NarrowSections.

Local Open Scope R_scope.

(** C6 at the input [[[0,0,20],[10,0],[20,0,20]]]: the point at index 1 has
    no width, its slot of [widths] is [null], and [findNarrowSections] with
    the default minimum [10] returns the region [1..1] for it. *)
Lemma findNarrowSections_null_width_is_narrow :
  RiverPathParser.build
    (JArray [JArray [JNumber 0; JNumber 0; JNumber 20];
             JArray [JNumber 10; JNumber 0];
             JArray [JNumber 20; JNumber 0; JNumber 20]]) = Ok gapPath
  /\ nth 1 [Some 20; None; Some 20] None = None
  /\ findNarrowSections gapPath 10
     = [mkSegment 1 1 (_calculateSegmentLength gapPath 1 1) (Some NarrowSection)].
Proof.
  split; [|split; [reflexivity|]].
  - unfold RiverPathParser.build. simpl. reflexivity.
  - unfold findNarrowSections. simpl. unfold toNumber. Rdecide. reflexivity.
Qed.

(** On every width-aware path and for every positive minimum, a [null]
    slot of [widths] is covered by a narrow-section region. *)
Lemma findNarrowSections_covers_null (path : RiverPath) (minWidth : R)
    (ws : list (option R)) (i : nat) :
  widths path = Some ws ->
  ws !! i = Some None ->
  0 < minWidth ->
  exists seg,
    In seg (findNarrowSections path minWidth)
    /\ covers seg i /\ seg_reason seg = Some NarrowSection.
Proof.
  intros Hw Hi Hmin.
  assert (i < length ws)%nat as Hlen by (apply lookup_lt_is_Some; eauto).
  assert (nth i ws None = None) as Hnth by (apply nth_lookup_Some with (x := None); exact Hi).
  destruct (findNarrowSections_cover path minWidth ws i Hw Hlen) as (seg & Hin & Hc).
  { rewrite Hnth. exact Hmin. }
  exists seg. split; [exact Hin|]. split; [exact Hc|].
  destruct (findNarrowSections_sound _ _ _ Hin) as (ws' & _ & Hr & _). exact Hr.
Qed.

End NarrowSections.

(* ====================================================================== *)
(** * Curvature (C8) *)
(* ====================================================================== *)

Module CurvatureFacts.
Import GeometryAnalyzer.
Local Open Scope R_scope.

Lemma nth_map_seq (f : nat -> R) (n i : nat) :
  (i < n)%nat -> nth i (map f (seq 0 n)) 0 = f i.
Proof.
  intros Hi. rewrite nth_lookup.
  change (map f (seq 0 n)) with (f <$> seq 0 n).
  rewrite list_lookup_fmap, lookup_seq_lt by exact Hi. reflexivity.
Qed.

Lemma nth_map_seq_overflow (f : nat -> R) (n i : nat) :
  (n <= i)%nat -> nth i (map f (seq 0 n)) 0 = 0.
Proof. intros Hi. apply nth_overflow. rewrite length_map, length_seq. exact Hi. Qed.

(** The raw curvature is a quotient of non-negative numbers. *)
Lemma rawCurvatureAt_nonneg (pts : list Point) (i : nat) :
  0 <= rawCurvatureAt pts i.
Proof.
  unfold rawCurvatureAt.
  set (mag1 := sqrt _). set (mag2 := sqrt _).
  destruct (Req_dec_T mag1 0); [lra|].
  destruct (Req_dec_T mag2 0); [lra|].
  destruct (Rlt_dec 0 ((mag1 + mag2) / 2)) as [Havg | _]; [|lra].
  set (c := Rmax (-1) (Rmin 1 _)).
  pose proof (acos_bound c) as [Hac _].
  pose proof PI_RGT_0 as Hpi.
  apply Rmult_le_pos; [|left; apply Rinv_0_lt_compat; exact Havg].
  apply Rmult_le_pos; [exact Hac|].
  apply Rmult_le_pos; [lra | left; apply Rinv_0_lt_compat; exact Hpi].
Qed.

Lemma nth_rawCurvatures_nonneg (pts : list Point) (i : nat) :
  0 <= nth i (rawCurvatures pts) 0.
Proof.
  unfold rawCurvatures.
  destruct (Nat.lt_ge_cases i (length pts)) as [Hi | Hi].
  - rewrite nth_map_seq by exact Hi.
    destruct ((1 <=? i) && (i <? length pts - 1))%nat;
      [apply rawCurvatureAt_nonneg | lra].
  - rewrite nth_map_seq_overflow by exact Hi. lra.
Qed.

Lemma smoothedAt_nonneg (pts : list Point) (n i : nat) :
  0 <= smoothedAt (rawCurvatures pts) n i.
Proof.
  unfold smoothedAt.
  pose proof (nth_rawCurvatures_nonneg pts (i - 1)).
  pose proof (nth_rawCurvatures_nonneg pts i).
  pose proof (nth_rawCurvatures_nonneg pts (i + 1)).
  destruct ((i =? 0) || (i =? n - 1))%nat; [lra|].
  destruct (i =? 1)%nat; [lra|].
  destruct (i =? n - 2)%nat; lra.
Qed.

(** Every smoothed curvature is non-negative. *)
Lemma calculateCurvature_nonneg (path : RiverPath) (i : nat) :
  0 <= nth i (calculateCurvature path) 0.
Proof.
  unfold calculateCurvature.
  destruct (length (points path) <? 3)%nat; [destruct i; simpl; lra|].
  set (n := length (points path)).
  destruct (Nat.lt_ge_cases i n) as [Hi | Hi].
  - rewrite nth_map_seq by exact Hi. apply smoothedAt_nonneg.
  - rewrite nth_map_seq_overflow by exact Hi. lra.
Qed.

Lemma calculateCurvature_length (path : RiverPath) :
  (3 <= length (points path))%nat ->
  length (calculateCurvature path) = length (points path).
Proof.
  intros Hn. unfold calculateCurvature.
  destruct (length (points path) <? 3)%nat eqn:Hlt; [apply Nat.ltb_lt in Hlt; lia|].
  rewrite length_map, length_seq. reflexivity.
Qed.

End CurvatureFacts.

Import GeometryAnalyzer CurvatureFacts.

Section Curvature.

Local Open Scope R_scope.

Lemma rawCurvature_rightAngle :
  rawCurvatureAt [mkPoint 0 0; mkPoint 10 0; mkPoint 10 10] 1 = 9.
Proof.
  unfold rawCurvatureAt. simpl.
  rewrite (sqrt_of_square 10 ((10 - 0) * (10 - 0) + (0 - 0) * (0 - 0))) by lra.
  rewrite (sqrt_of_square 10 ((10 - 10) * (10 - 10) + (10 - 0) * (10 - 0))) by lra.
  Rdecide.
  replace (((10 - 0) * (10 - 10) + (0 - 0) * (10 - 0)) / (10 * 10)) with 0 by lra.
  unfold Rmin, Rmax. Rdecide.
  rewrite acos_0. field. apply PI_neq0.
Qed.

Lemma rightAngle_curvature_profile :
  calculateCurvature rightAnglePath = [0; 9 / 2; 0].
Proof.
  unfold calculateCurvature, rawCurvatures, smoothedAt. simpl.
  rewrite rawCurvature_rightAngle. f_equal. f_equal. lra.
Qed.

(** C8 (as amended).  On the path [[(0,0),(10,0),(10,10)]] the smoothed
    curvature profile is exactly [0] at indices 0 and 2, and at index 1 it
    is strictly positive and equals [4.5]: the 90 degree turn over segments
    of length 10 is 9 degrees per unit, halved by the smoothing. *)
Theorem calculateCurvature_rightAngle :
  calculateCurvature rightAnglePath = [0; 9 / 2; 0]
  /\ nth 0 (calculateCurvature rightAnglePath) 0 = 0
  /\ nth 2 (calculateCurvature rightAnglePath) 0 = 0
  /\ 0 < nth 1 (calculateCurvature rightAnglePath) 0
  /\ nth 1 (calculateCurvature rightAnglePath) 0 = 4.5.
Proof.
  rewrite rightAngle_curvature_profile. simpl. repeat split; lra.
Qed.

(** C8, as stated, fails: the value at index 1 is 40.5 away from 45. *)
Lemma calculateCurvature_rightAngle_not_45 :
  Rabs (nth 1 (calculateCurvature rightAnglePath) 0 - 45) = 40.5
  /\ ~ (44 <= nth 1 (calculateCurvature rightAnglePath) 0 <= 46).
Proof.
  rewrite rightAngle_curvature_profile. simpl. split.
  - rewrite Rabs_left by lra. lra.
  - lra.
Qed.

End Curvature.

(* ====================================================================== *)
(** * Centerline extraction (C7) *)
(* ====================================================================== *)

Module CenterlineFacts.
Import WKTParser.

Lemma sampleEntry_unusable (polygonCoords : list (R * R)) (isHorizontal : bool)
    (minV extent : R) (numSamples i : nat) :
  length (sampleIntersections polygonCoords isHorizontal minV extent numSamples i) < 2 ->
  sampleEntry polygonCoords isHorizontal minV extent numSamples i = [].
Proof.
  intros Hlt. unfold sampleEntry.
  destruct (2 <=? length _) eqn:Hle; [apply Nat.leb_le in Hle; lia | reflexivity].
Qed.

Lemma flat_map_all_nil {A B : Type} (f : A -> list B) (l : list A) :
  (forall a, In a l -> f a = []) -> flat_map f l = [].
Proof.
  induction l as [|a l IH]; intros H; simpl; [reflexivity|].
  rewrite (H a) by (left; reflexivity). apply IH. intros b Hb. apply H. right. exact Hb.
Qed.

(** A ring of three vertices is sampled once, at a position that is not a
    number, and the sample meets no edge. *)
Lemma triangle_has_no_cross_section (a b c : R * R) (isHorizontal : bool)
    (minV extent : R) (i : nat) :
  sampleIntersections [a; b; c] isHorizontal minV extent 1 i = [].
Proof. reflexivity. Qed.

End CenterlineFacts.

Import WKTParser RiverPathParser CenterlineFacts.

Section Centerline.

Local Open Scope R_scope.

(** C7 (as amended).  For every polygon ring of at least 3 vertices in
    which no sample position yields 2 or more intersections,
    [extractCenterline] does not fail: it returns the empty centerline, and
    [parse] then turns the input down through [validate] with the error
    ['River path must have at least 3 coordinate points']. *)
Theorem extractCenterline_no_cross_sections
    (parsePolygon : string -> Result (list (R * R)))
    (data : string) (polygonCoords : list (R * R)) :
  (3 <= length polygonCoords)%nat ->
  (let '(isHorizontal, minV, extent, numSamples) := samplingFrame polygonCoords in
   forall i, (i < numSamples)%nat ->
     (length (sampleIntersections polygonCoords isHorizontal minV extent numSamples i)
      < 2)%nat) ->
  extractCenterline polygonCoords = Ok []
  /\ (parsePolygon data = Ok polygonCoords ->
      parse parsePolygon (WKTString data)
      = Throw (Error "River path must have at least 3 coordinate points")).
Proof.
  intros Hn Hnone.
  assert (extractCenterline polygonCoords = Ok []) as Hex.
  { unfold extractCenterline.
    destruct (length polygonCoords <? 3)%nat eqn:Hlt; [apply Nat.ltb_lt in Hlt; lia|].
    destruct (samplingFrame polygonCoords) as [[[isHorizontal minV] extent] numSamples].
    rewrite flat_map_all_nil; [reflexivity|].
    intros i Hi. apply in_seq in Hi. apply sampleEntry_unusable. apply Hnone. lia. }
  split; [exact Hex|].
  intros Hp. unfold parse. rewrite Hp, Hex. reflexivity.
Qed.

Lemma extractCenterline_no_cross_sections_witness :
  extractCenterline triangle = Ok []
  /\ parse (fun _ => Ok triangle) (WKTString "POLYGON((0 0, 4 0, 0 3))")
     = Throw (Error "River path must have at least 3 coordinate points").
Proof.
  destruct (extractCenterline_no_cross_sections
              (fun _ => Ok triangle) "POLYGON((0 0, 4 0, 0 3))" triangle)
    as [Hempty Hparse].
  - simpl. lia.
  - unfold samplingFrame. simpl length. simpl Nat.min.
    destruct (if Rgt_dec _ _ then true else false);
      intros i _; unfold triangle;
      rewrite triangle_has_no_cross_section; simpl; lia.
  - split; [exact Hempty | apply Hparse; reflexivity].
Defined.

(** C7, as stated, fails: the triangle [(0,0), (4,0), (0,3)] has no sample
    with two intersections, and [extractCenterline] returns the empty
    centerline instead of failing. *)
Lemma extractCenterline_triangle_returns_empty :
  (3 <= length triangle)%nat
  /\ (forall isHorizontal minV extent i,
        sampleIntersections triangle isHorizontal minV extent 1 i = [])
  /\ snd (samplingFrame triangle) = 1%nat
  /\ extractCenterline triangle = Ok []
  /\ (forall e, extractCenterline triangle <> Throw e).
Proof.
  assert (extractCenterline triangle = Ok []) as Hex.
  { unfold extractCenterline, samplingFrame. simpl length. simpl Nat.min. simpl.
    destruct (Rgt_dec _ _); reflexivity. }
  split; [simpl; lia|]. split; [reflexivity|]. split.
  - unfold samplingFrame. destruct (if Rgt_dec _ _ then true else false); reflexivity.
  - split; [exact Hex|]. intros e. rewrite Hex. discriminate.
Qed.

End Centerline.

(* ====================================================================== *)
(** * Glyph placement (C9) *)
(* ====================================================================== *)

Lemma lookup_pt (pts : list Point) (i : nat) :
  i < length pts -> pts !! i = Some (pt pts i).
Proof.
  intros Hi. unfold pt.
  destruct (nth_lookup_or_length pts i origin) as [H | H]; [exact H | lia].
Qed.

Module PlacerFacts.
Import TextPlacer.
Local Open Scope R_scope.

Lemma positionAt_Ok (pts : list Point) (i j k : nat) :
  (i < length pts)%nat -> (j < length pts)%nat -> (k < length pts)%nat ->
  positionAt pts (Some i) (Some j) (Some k)
  = Ok (mkPosition (px (pt pts i)) (py (pt pts i))
          (atan2 (py (pt pts k) - py (pt pts j)) (px (pt pts k) - px (pt pts j)))).
Proof.
  intros Hi Hj Hk. unfold positionAt. simpl.
  rewrite !lookup_pt by assumption. reflexivity.
Qed.

Lemma checkPath_Ok (p : RiverPath) (startIdx : Z) :
  (0 <= startIdx < Z.of_nat (length (points p)))%Z ->
  checkPath (Some p) startIdx = Ok (points p, Z.to_nat startIdx).
Proof.
  intros Hr. unfold checkPath.
  destruct (points p) as [|p0 rest] eqn:Hp; [simpl in Hr; lia|].
  destruct (startIdx <? 0)%Z eqn:H1; [apply Z.ltb_lt in H1; lia|].
  destruct (Z.of_nat (length (p0 :: rest)) <=? startIdx)%Z eqn:H2;
    [apply Z.leb_le in H2; lia|].
  reflexivity.
Qed.

Lemma checkPath_no_points (path : option RiverPath) (startIdx : Z) :
  (path = None \/ exists p, path = Some p /\ points p = []) ->
  checkPath path startIdx = Throw (Error "Invalid path: path must have points").
Proof.
  intros [-> | (p & -> & Hp)]; unfold checkPath; [|rewrite Hp]; reflexivity.
Qed.

Lemma checkPath_bad_index (p : RiverPath) (startIdx : Z) :
  points p <> [] ->
  (startIdx < 0 \/ Z.of_nat (length (points p)) <= startIdx)%Z ->
  checkPath (Some p) startIdx
  = Throw (Error (invalidStartIdx startIdx (length (points p)))).
Proof.
  intros Hne Hr. unfold checkPath.
  destruct (points p) as [|p0 rest] eqn:Hp; [congruence|].
  destruct (startIdx <? 0)%Z eqn:H1; [reflexivity|].
  destruct (Z.of_nat (length (p0 :: rest)) <=? startIdx)%Z eqn:H2; [reflexivity|].
  apply Z.ltb_ge in H1. apply Z.leb_gt in H2. lia.
Qed.

(** On a path of two or more points [interpolatePosition] returns a
    position for every distance. *)
Lemma interpolatePosition_Ok (p : RiverPath) (startIdx : Z) (distance : R) :
  (2 <= length (points p))%nat ->
  (0 <= startIdx < Z.of_nat (length (points p)))%Z ->
  exists position, interpolatePosition (Some p) startIdx distance = Ok position.
Proof.
  intros Hn Hr. unfold interpolatePosition.
  rewrite checkPath_Ok by exact Hr.
  set (cur := Z.to_nat startIdx). assert (cur < length (points p))%nat by lia.
  destruct (Req_dec_T distance 0).
  - destruct (cur <? length (points p) - 1)%nat eqn:Hc.
    + apply Nat.ltb_lt in Hc. rewrite positionAt_Ok by lia. eauto.
    + apply Nat.ltb_ge in Hc. destruct cur as [|c]; [lia|]. simpl predIdx.
      rewrite positionAt_Ok by lia. eauto.
  - destruct (walkPath _ _ _); [eauto|].
    destruct (length (points p) - 1)%nat as [|l] eqn:Hl; [lia|]. simpl predIdx.
    rewrite positionAt_Ok by lia. eauto.
Qed.

Lemma segmentLengthAt_nonneg (pts : list Point) (i : nat) :
  0 <= segmentLengthAt pts i.
Proof. unfold segmentLengthAt. apply sqrt_pos. Qed.

Lemma lengthFrom_nonneg (pts : list Point) (idxs : list nat) :
  0 <= foldr (fun i acc => segmentLengthAt pts i + acc) 0 idxs.
Proof.
  induction idxs as [|j rest IH]; simpl; [lra|].
  pose proof (segmentLengthAt_nonneg pts j). lra.
Qed.

Lemma walkPath_cons (pts : list Point) (d : R) (i : nat) (rest : list nat) :
  walkPath pts d (i :: rest)
  = if Rle_dec d (segmentLengthAt pts i)
    then Some (mkPosition
                 (px (pt pts i)
                  + (px (pt pts (i + 1)) - px (pt pts i)) * (d / segmentLengthAt pts i))
                 (py (pt pts i)
                  + (py (pt pts (i + 1)) - py (pt pts i)) * (d / segmentLengthAt pts i))
                 (atan2 (py (pt pts (i + 1)) - py (pt pts i))
                        (px (pt pts (i + 1)) - px (pt pts i))))
    else walkPath pts (d - segmentLengthAt pts i) rest.
Proof. reflexivity. Qed.

Lemma walkPath_past_end (pts : list Point) (idxs : list nat) (remainingDistance : R) :
  foldr (fun i acc => segmentLengthAt pts i + acc) 0 idxs < remainingDistance ->
  walkPath pts remainingDistance idxs = None.
Proof.
  revert remainingDistance.
  induction idxs as [|i rest IH]; intros d Hd; [reflexivity|].
  rewrite walkPath_cons. simpl in Hd.
  pose proof (lengthFrom_nonneg pts rest) as Hpos.
  destruct (Rle_dec d (segmentLengthAt pts i)) as [Hle | Hgt]; [lra|].
  apply IH. lra.
Qed.

(** A distance beyond the rest of the path is clamped to the final point,
    with the direction of the last segment. *)
Lemma interpolatePosition_clamps (p : RiverPath) (startIdx : Z) (distance : R) :
  (2 <= length (points p))%nat ->
  (0 <= startIdx < Z.of_nat (length (points p)))%Z ->
  remainingLength (points p) (Z.to_nat startIdx) < distance ->
  interpolatePosition (Some p) startIdx distance = Ok (clampedPosition (points p)).
Proof.
  intros Hn Hr Hd. unfold interpolatePosition.
  rewrite checkPath_Ok by exact Hr.
  assert (0 <= remainingLength (points p) (Z.to_nat startIdx)) as Hpos
    by apply lengthFrom_nonneg.
  destruct (Req_dec_T distance 0) as [H0 | _]; [lra|].
  rewrite walkPath_past_end by exact Hd.
  unfold clampedPosition.
  destruct (length (points p) - 1)%nat as [|l] eqn:Hl; [lia|]. simpl predIdx.
  rewrite positionAt_Ok by lia.
  replace (S l - 1)%nat with l by lia. reflexivity.
Qed.

Section Placing.

Variable measureText : R -> ascii -> R.

Lemma placeChars_Ok (p : RiverPath) (startIdx : Z) (fontSize : R) (text : list ascii) :
  (2 <= length (points p))%nat ->
  (0 <= startIdx < Z.of_nat (length (points p)))%Z ->
  forall currentDistance,
  exists placements,
    placeChars measureText (Some p) startIdx fontSize currentDistance text = Ok placements
    /\ map cp_char placements = text
    /\ Forall2 (placedAt (Some p) startIdx) placements
               (anchorDistances measureText fontSize currentDistance text).
Proof.
  intros Hn Hr. induction text as [|char rest IH]; intros cur; simpl.
  - exists []. repeat split. constructor.
  - destruct (interpolatePosition_Ok p startIdx (cur + measureText fontSize char / 2) Hn Hr)
      as [[x y a] Hpos].
    rewrite Hpos.
    destruct (IH (cur + measureText fontSize char)) as (pls & -> & Hchars & Hat).
    eexists. split; [reflexivity|]. simpl. split; [congruence|].
    constructor; [exact Hpos | exact Hat].
Qed.

End Placing.

End PlacerFacts.

Import TextPlacer PlacerFacts.

Section GlyphPlacement.

Local Open Scope R_scope.

(** C9 (as amended).  The empty label yields the empty list, before the
    path and the start index are looked at.  On a path of two or more
    points and a start index inside it, a non-empty label yields one
    placement per character, in label order, each where
    [interpolatePosition] puts the character's anchor distance; an anchor
    beyond the rest of the path is put on the final point with the last
    segment's direction.  A non-empty label on a path without points fails
    with the error ['Invalid path: path must have points'], and on a path
    with points and a start index outside [0, pointCount-1] with the error
    ['Invalid startIdx: ...']. *)
Theorem placeText_results
    (measureText : R -> ascii -> R) (text : string) (path : option RiverPath)
    (startIdx : Z) (fontSize : R) :
  placeText measureText "" path startIdx fontSize = Ok []
  /\ (forall p,
        path = Some p ->
        (2 <= length (points p))%nat ->
        (0 <= startIdx < Z.of_nat (length (points p)))%Z ->
        exists placements,
          placeText measureText text path startIdx fontSize = Ok placements
          /\ map cp_char placements = list_ascii_of_string text
          /\ length placements = String.length text
          /\ Forall2 (placedAt path startIdx) placements
               (anchorDistances measureText fontSize 0 (list_ascii_of_string text))
          /\ (forall distance,
                remainingLength (points p) (Z.to_nat startIdx) < distance ->
                interpolatePosition path startIdx distance
                = Ok (clampedPosition (points p))))
  /\ (text <> ""%string ->
      (path = None \/ exists p, path = Some p /\ points p = []) ->
      placeText measureText text path startIdx fontSize
      = Throw (Error "Invalid path: path must have points"))
  /\ (text <> ""%string ->
      forall p,
        path = Some p -> points p <> [] ->
        (startIdx < 0 \/ Z.of_nat (length (points p)) <= startIdx)%Z ->
        placeText measureText text path startIdx fontSize
        = Throw (Error (invalidStartIdx startIdx (length (points p))))).
Proof.
  assert (forall t : string, t <> ""%string ->
            exists c cs, list_ascii_of_string t = c :: cs) as Hne.
  { intros [|c cs] Ht; [congruence|]. simpl. eauto. }
  split; [reflexivity|]. split; [|split].
  - intros p -> Hn Hr.
    destruct (placeChars_Ok measureText p startIdx fontSize
                (list_ascii_of_string text) Hn Hr 0) as (pls & Hpl & Hchars & Hat).
    exists pls. split; [|split; [exact Hchars | split; [|split; [exact Hat|]]]].
    + unfold placeText.
      destruct (list_ascii_of_string text) as [|c cs] eqn:Ht.
      * simpl in Hpl. congruence.
      * rewrite checkPath_Ok by exact Hr. exact Hpl.
    + rewrite <- (length_map cp_char), Hchars.
      clear. induction text as [|c cs IH]; simpl; [reflexivity | f_equal; exact IH].
    + intros d Hd. apply interpolatePosition_clamps; assumption.
  - intros Ht Hp. destruct (Hne _ Ht) as (c & cs & Hcs).
    unfold placeText. rewrite Hcs, checkPath_no_points by exact Hp. reflexivity.
  - intros Ht p -> Hp Hr. destruct (Hne _ Ht) as (c & cs & Hcs).
    unfold placeText. rewrite Hcs, checkPath_bad_index by assumption. reflexivity.
Qed.

Lemma placeText_results_witness :
  exists placements,
    placeText fallbackMeasure "VERYLONGTEXT" (Some shortPath) 0 16 = Ok placements
    /\ map cp_char placements = list_ascii_of_string "VERYLONGTEXT"
    /\ length placements = 12%nat.
Proof.
  destruct (placeText_results fallbackMeasure "VERYLONGTEXT" (Some shortPath) 0 16)
    as (_ & H & _).
  destruct (H shortPath) as (pls & Hpl & Hchars & Hlen & _).
  - reflexivity.
  - simpl. lia.
  - simpl. lia.
  - exists pls. auto.
Defined.

(** C9, as stated, fails at two inputs.  With the empty label an invalid
    start index is not reported: the empty list is returned.  On a path of
    one point a non-empty label gets no placement: reading the point before
    the last one throws a [TypeError]. *)
Lemma placeText_empty_label_and_single_point :
  placeText fallbackMeasure "" (Some shortPath) 5 16 = Ok []
  /\ placeText fallbackMeasure "" None 0 16 = Ok []
  /\ placeText fallbackMeasure "A" (Some singlePointPath) 0 16 = Throw TypeError.
Proof.
  split; [reflexivity|]. split; [reflexivity|].
  unfold placeText, fallbackMeasure. simpl.
  unfold interpolatePosition. simpl.
  destruct (Req_dec_T _ 0); reflexivity.
Qed.

End GlyphPlacement.

(* ====================================================================== *)
(** * Fallback placement (C4) *)
(* ====================================================================== *)

Module FallbackFacts.
Import PlacementScorer ScorerFacts.

Lemma distance_nonneg (p1 p2 : Point) : (0 <= distance p1 p2)%R.
Proof. unfold distance. apply sqrt_pos. Qed.

Lemma segmentLength_split (path : RiverPath) (a b c : nat) :
  a <= b -> b <= c ->
  segmentLength path a c = (segmentLength path a b + segmentLength path b c)%R.
Proof.
  intros Hab Hbc. induction Hbc as [|c Hbc IH].
  - rewrite segmentLength_empty. lra.
  - rewrite !segmentLength_snoc by lia. rewrite IH. lra.
Qed.

Lemma segmentLength_nonneg (path : RiverPath) (a b : nat) :
  (0 <= segmentLength path a b)%R.
Proof.
  destruct (Nat.le_ge_cases a b) as [Hab | Hba].
  - induction Hab as [|b Hab IH].
    + rewrite segmentLength_empty. lra.
    + rewrite segmentLength_snoc by lia.
      pose proof (distance_nonneg (pt (points path) b) (pt (points path) (b + 1))). lra.
  - unfold GeometryAnalyzer._calculateSegmentLength, range_excl.
    replace (b - a) with 0 by lia. simpl. lra.
Qed.

Section Runs.

Variables (path : RiverPath) (metrics : GeometryMetrics) (rejected : gset nat).

Let n := length (points path).

(** The inner loop stops on the last index before the next rejected one
    (or on the last point), with the length walked. *)
Lemma runFrom_spec (s : nat) (len : nat) :
  forall (k : nat) (L : R),
    s < k -> k + len = n ->
    (forall i, s <= i < k -> i ∉ rejected) ->
    L = segmentLength path s (k - 1) ->
    let '(L', e) := runFrom (points path) rejected L (k - 1) (seq k len) in
    k - 1 <= e < n
    /\ (forall i, s <= i <= e -> i ∉ rejected)
    /\ (e + 1 = n \/ e + 1 ∈ rejected)
    /\ L' = segmentLength path s e.
Proof.
  induction len as [|len IH]; intros k L Hsk Hk Hfree HL; simpl.
  - split; [lia|]. split; [intros i Hi; apply Hfree; lia|]. split; [left; lia | exact HL].
  - destruct (bool_decide (k ∈ rejected)) eqn:Hrej.
    + apply bool_decide_eq_true in Hrej.
      split; [lia|]. split; [intros i Hi; apply Hfree; lia|].
      split; [right; replace (k - 1 + 1) with k by lia; exact Hrej | exact HL].
    + apply bool_decide_eq_false in Hrej.
      specialize (IH (S k) (L + distance (pt (points path) (k - 1)) (pt (points path) k))%R).
      replace (S k - 1) with k in IH by lia.
      destruct (runFrom _ _ _ k (seq (S k) len)) as [L' e].
      destruct IH as (He & Hfree' & Hend & HL'); [lia | lia | | | ].
      * intros i Hi. destruct (decide (i = k)) as [-> | Hne]; [exact Hrej|].
        apply Hfree. lia.
      * pose proof (segmentLength_snoc path s (k - 1)) as Hs.
        replace (S (k - 1)) with k in Hs by lia.
        replace (k - 1 + 1) with k in Hs by lia.
        rewrite Hs by lia. subst L. reflexivity.
      * split; [lia|]. auto.
Qed.

(** Every non-rejected index has a leftmost non-rejected index to its
    left with none rejected in between. *)
Lemma leftmost_free (k : nat) :
  k ∉ rejected ->
  exists s, s <= k /\ (forall i, s <= i <= k -> i ∉ rejected)
            /\ (s = 0 \/ s - 1 ∈ rejected).
Proof.
  induction k as [|k IH]; intros Hk.
  - exists 0. split; [lia|]. split; [|left; reflexivity].
    intros i Hi. replace i with 0 by lia. exact Hk.
  - destruct (decide (k ∈ rejected)) as [Hin | Hout].
    + exists (S k). split; [lia|]. split.
      * intros i Hi. replace i with (S k) by lia. exact Hk.
      * right. replace (S k - 1) with k by lia. exact Hin.
    + destruct (IH Hout) as (s & Hs & Hfree & Hleft).
      exists s. split; [lia|]. split; [|exact Hleft].
      intros i Hi. destruct (decide (i = S k)) as [-> | Hne]; [exact Hk|].
      apply Hfree. lia.
Qed.

(** Two valid runs that share an index are the same run. *)
Lemma validRun_unique_end (s e e' : nat) :
  validRun path rejected s e ->
  s <= e' < n -> (forall i, s <= i <= e' -> i ∉ rejected) ->
  (e' + 1 = n \/ e' + 1 ∈ rejected) ->
  e = e'.
Proof.
  intros (Hse & Hfree & _ & Hend & _) He' Hfree' Hend'. fold n in Hse, Hend.
  destruct (Nat.lt_trichotomy e e') as [Hlt | [Heq | Hgt]]; [|exact Heq|].
  - exfalso. destruct Hend as [Hend | Hend]; [lia|].
    apply (Hfree' (e + 1)); [lia | exact Hend].
  - exfalso. destruct Hend' as [Hend' | Hend']; [lia|].
    apply (Hfree (e' + 1)); [lia | exact Hend'].
Qed.

Lemma atBoundary_0 : atBoundary path rejected 0.
Proof. intros s e _ H. lia. Qed.

Let loop (fuel k : nat) := validSegmentsFrom fuel path metrics rejected k.

(** The state of the outer loop at a non-rejected [k]. *)
Lemma run_at (k : nat) :
  k < n - 1 -> k ∉ rejected ->
  let '(L, e) := runFrom (points path) rejected 0 k (range_excl (k + 1) n) in
  k <= e < n
  /\ (forall i, k <= i <= e -> i ∉ rejected)
  /\ (e + 1 = n \/ e + 1 ∈ rejected)
  /\ L = segmentLength path k e.
Proof.
  intros Hk Hfree.
  pose proof (runFrom_spec k (n - (k + 1)) (k + 1) 0%R) as H.
  replace (k + 1 - 1) with k in H by lia. unfold range_excl.
  destruct (runFrom _ _ _ k (seq (k + 1) (n - (k + 1)))) as [L e].
  destruct H as (He & Hf & Hend & HL); [lia | lia | | | ].
  - intros i Hi. replace i with k by lia. exact Hfree.
  - symmetry. apply segmentLength_empty.
  - split; [lia|]. auto.
Qed.

Lemma pushed_run_is_valid (k e : nat) :
  atBoundary path rejected k ->
  k < e < n -> (forall i, k <= i <= e -> i ∉ rejected) ->
  (e + 1 = n \/ e + 1 ∈ rejected) ->
  (0 < segmentLength path k e)%R ->
  validRun path rejected k e.
Proof.
  intros Hb Hke Hfree Hend Hpos.
  split; [exact Hke|]. split; [exact Hfree|]. split; [|split; [exact Hend | exact Hpos]].
  destruct k as [|k]; [left; reflexivity|]. right.
  replace (S k - 1) with k by lia.
  destruct (decide (k ∈ rejected)) as [Hin | Hout]; [exact Hin|].
  exfalso. destruct (leftmost_free k Hout) as (s & Hs & Hsfree & Hleft).
  apply (Hb s e); [|lia].
  split; [fold n; lia|]. split; [|split; [exact Hleft | split; [exact Hend|]]].
  - intros i Hi. destruct (Nat.le_gt_cases i k); [apply Hsfree | apply Hfree]; lia.
  - rewrite (segmentLength_split path s (S k) e) by lia.
    pose proof (segmentLength_nonneg path s (S k)). lra.
Qed.

Lemma atBoundary_after_rejected (k : nat) :
  atBoundary path rejected k -> k ∈ rejected -> atBoundary path rejected (k + 1).
Proof.
  intros Hb Hk s e Hv Hr.
  destruct (decide (s = k)) as [-> | Hne].
  - destruct Hv as (_ & Hfree & _). apply (Hfree k); [lia | exact Hk].
  - apply (Hb s e Hv). lia.
Qed.

Lemma atBoundary_after_run (e : nat) :
  (e + 1 = n \/ e + 1 ∈ rejected) -> atBoundary path rejected (e + 1).
Proof.
  intros Hend s e' Hv Hr. destruct Hv as (Hse & Hfree & _). fold n in Hse.
  destruct Hend as [Hend | Hend]; [lia|].
  apply (Hfree (e + 1)); [lia | exact Hend].
Qed.

Lemma atBoundary_after_skip (k e : nat) :
  atBoundary path rejected k -> ~ validRun path rejected k e ->
  k <= e < n -> (forall i, k <= i <= e -> i ∉ rejected) ->
  (e + 1 = n \/ e + 1 ∈ rejected) ->
  atBoundary path rejected (k + 1).
Proof.
  intros Hb Hnot Hke Hfree Hend s e' Hv Hr.
  destruct (decide (s = k)) as [-> | Hne].
  - assert (e' = e) as -> by (apply (validRun_unique_end k); auto).
    exact (Hnot Hv).
  - apply (Hb s e' Hv). lia.
Qed.

(** What the outer loop collects from [k] on: the valid runs that start at
    [k] or later, each once. *)
Lemma validSegmentsFrom_sound (fuel : nat) :
  forall k c,
    atBoundary path rejected k ->
    In c (loop fuel k) ->
    exists s e, k <= s /\ validRun path rejected s e
                /\ c = mkCand path metrics s e (segmentLength path s e).
Proof.
  induction fuel as [|fuel IH]; intros k c Hb Hin; unfold loop in Hin;
    simpl in Hin; [destruct Hin|].
  fold n in Hin.
  destruct (k <? n - 1) eqn:Hk; [|destruct Hin]. apply Nat.ltb_lt in Hk.
  destruct (bool_decide (k ∈ rejected)) eqn:Hrej.
  - apply bool_decide_eq_true in Hrej.
    destruct (IH (k + 1) c (atBoundary_after_rejected k Hb Hrej) Hin)
      as (s & e & Hs & Hv & Hc).
    exists s, e. split; [lia | auto].
  - apply bool_decide_eq_false in Hrej.
    pose proof (run_at k Hk Hrej) as Hrun.
    destruct (runFrom _ _ _ k _) as [L e].
    destruct Hrun as (He & Hfree & Hend & ->).
    assert (~ validRun path rejected k e -> In c (loop fuel (k + 1)) ->
            exists s e', k <= s /\ validRun path rejected s e'
              /\ c = mkCand path metrics s e' (segmentLength path s e')) as Hskip.
    { intros Hnot Hc.
      destruct (IH (k + 1) c) as (s & e' & Hs & Hv & Hcc); [|exact Hc|].
      - apply (atBoundary_after_skip k e); auto.
      - exists s, e'. split; [lia | auto]. }
    destruct (Rlt_dec 0 (segmentLength path k e)) as [Hpos | Hnpos].
    + destruct (k <? e) eqn:Hke.
      * apply Nat.ltb_lt in Hke.
        assert (validRun path rejected k e) as Hv by (apply pushed_run_is_valid; auto; lia).
        destruct Hin as [<- | Hin].
        -- exists k, e. auto.
        -- destruct (IH (e + 1) c (atBoundary_after_run e Hend) Hin)
             as (s & e' & Hs & Hv' & Hc).
           exists s, e'. split; [lia | auto].
      * apply Nat.ltb_ge in Hke. apply Hskip; [|exact Hin].
        intros (Hlt & _). lia.
    + apply Hskip; [|exact Hin].
      intros (_ & _ & _ & _ & Hp). contradiction.
Qed.

Lemma validSegmentsFrom_complete (fuel : nat) :
  forall k s e,
    atBoundary path rejected k -> n - 1 <= k + fuel ->
    validRun path rejected s e -> k <= s ->
    In (mkCand path metrics s e (segmentLength path s e)) (loop fuel k).
Proof.
  induction fuel as [|fuel IH]; intros k s e Hb Hfuel Hv Hks.
  - exfalso. destruct Hv as (Hse & _). fold n in Hse. lia.
  - assert (s < e < n) as Hse by (destruct Hv as (Hse & _); exact Hse).
    unfold loop. simpl. fold n.
    destruct (k <? n - 1) eqn:Hk; [|apply Nat.ltb_ge in Hk; lia].
    apply Nat.ltb_lt in Hk.
    destruct (bool_decide (k ∈ rejected)) eqn:Hrej.
    + apply bool_decide_eq_true in Hrej.
      apply (IH (k + 1)); [apply atBoundary_after_rejected; auto | lia | exact Hv |].
      destruct (decide (s = k)) as [-> | Hne]; [|lia].
      exfalso. destruct Hv as (_ & Hfree & _). apply (Hfree k); [lia | exact Hrej].
    + apply bool_decide_eq_false in Hrej.
      pose proof (run_at k Hk Hrej) as Hrun.
      destruct (runFrom _ _ _ k _) as [L e'].
      destruct Hrun as (He & Hfree & Hend & ->).
      destruct (decide (s = k)) as [-> | Hne].
      * assert (e = e') as <- by (apply (validRun_unique_end k); auto).
        destruct Hv as (Hlt & _ & _ & _ & Hpos).
        destruct (Rlt_dec 0 (segmentLength path k e)); [|contradiction].
        destruct (k <? e) eqn:Hke; [left; reflexivity|].
        apply Nat.ltb_ge in Hke. lia.
      * assert (e' < s) as Hes.
        { destruct (Nat.lt_ge_cases e' s) as [H | H]; [exact H|]. exfalso.
          destruct Hv as (_ & _ & [Hs0 | Hleft] & _); [lia|].
          apply (Hfree (s - 1)); [lia | exact Hleft]. }
        assert (~ validRun path rejected k e' ->
                In (mkCand path metrics s e (segmentLength path s e))
                   (loop fuel (k + 1))) as Hnext.
        { intros Hnot. apply IH; [|lia | exact Hv | lia].
          apply (atBoundary_after_skip k e'); auto. }
        destruct (Rlt_dec 0 (segmentLength path k e')) as [Hpos | Hnpos].
        -- destruct (k <? e') eqn:Hke.
           ++ right. apply IH;
                [apply atBoundary_after_run; exact Hend | lia | exact Hv | lia].
           ++ apply Nat.ltb_ge in Hke. apply Hnext. intros (Hlt & _). lia.
        -- apply Hnext. intros (_ & _ & _ & _ & Hp). contradiction.
Qed.

End Runs.

(** [_findAllValidSegments] returns exactly the valid runs. *)
Lemma _findAllValidSegments_spec (path : RiverPath) (metrics : GeometryMetrics)
    (c : Candidate) :
  In c (_findAllValidSegments path metrics)
  <-> exists s e,
        validRun path (rejectedIndices metrics) s e
        /\ c = mkCand path metrics s e (segmentLength path s e).
Proof.
  unfold _findAllValidSegments. split.
  - intros Hin. apply validSegmentsFrom_sound in Hin; [|apply atBoundary_0].
    destruct Hin as (s & e & _ & Hv & Hc). eauto.
  - intros (s & e & Hv & ->).
    apply validSegmentsFrom_complete; [apply atBoundary_0 | lia | exact Hv | lia].
Qed.

(** The scan for the longest segment returns an element of the list that
    no element exceeds. *)
Lemma longestOf_spec (all : list Candidate) (first : Candidate) :
  let longest := longestOf first all in
  (longest = first \/ In longest all)
  /\ (seg_length (segment first) <= seg_length (segment longest))%R
  /\ (forall c, In c all ->
        (seg_length (segment c) <= seg_length (segment longest))%R).
Proof.
  unfold longestOf. revert first.
  induction all as [|a all IH]; intros first; simpl.
  - split; [left; reflexivity|]. split; [lra | intros c []].
  - destruct (Rgt_dec (seg_length (segment a)) (seg_length (segment first))) as [Hgt | Hle].
    + destruct (IH a) as (Hin & Hfirst & Hall). split; [|split].
      * destruct Hin as [-> | Hin]; auto.
      * lra.
      * intros c [<- | Hc]; auto.
    + destruct (IH first) as (Hin & Hfirst & Hall). split; [|split].
      * destruct Hin as [-> | Hin]; auto.
      * exact Hfirst.
      * intros c [<- | Hc]; [lra | auto].
Qed.

(** Membership in the rejected set, as a test on the rejected regions. *)
Lemma rejected_test (metrics : GeometryMetrics) (i : nat) :
  bool_decide (i ∈ rejectedIndices metrics)
  = existsb (fun seg => (seg_startIdx seg <=? i) && (i <=? seg_endIdx seg))
            (rejectedRegions metrics).
Proof.
  destruct (existsb _ (rejectedRegions metrics)) eqn:Hex.
  - apply bool_decide_eq_true, elem_of_rejectedIndices.
    apply existsb_exists in Hex. destruct Hex as (seg & Hin & Hc).
    apply andb_true_iff in Hc. destruct Hc as [H1 H2].
    apply Nat.leb_le in H1. apply Nat.leb_le in H2.
    exists seg. unfold covers. auto.
  - apply bool_decide_eq_false. rewrite elem_of_rejectedIndices.
    intros (seg & Hin & Hc).
    assert (existsb (fun seg => (seg_startIdx seg <=? i) && (i <=? seg_endIdx seg))
              (rejectedRegions metrics) = true) as Ht; [|congruence].
    apply existsb_exists. exists seg. split; [exact Hin|].
    unfold covers in Hc. apply andb_true_iff.
    split; apply Nat.leb_le; lia.
Qed.

End FallbackFacts.

Import PlacementScorer ScorerFacts FallbackFacts.

Section Fallback.

Local Open Scope R_scope.

(** C4 (as amended).  When no candidate fits the text, the fallback looks
    at the valid runs: the maximal runs of two or more consecutive
    non-rejected points with positive length, which are exactly the
    segments [_findAllValidSegments] returns, whatever the label.  If there
    is none, the result has no placement, the warning that the entire path
    is problematic, and the empty candidate list.  If there is one, the
    result has a valid run no other valid run is longer than, the warning
    that the text exceeds the longest segment, and the list of the valid
    runs as candidate list. *)
Theorem findOptimalPlacement_fallback
    (measureTextLength : string -> R -> R) (path : RiverPath) (text : string)
    (fontSize : R) (metrics : GeometryMetrics) :
  let textLength := measureTextLength text fontSize in
  let rejected := rejectedIndices metrics in
  findCandidates path textLength metrics = [] ->
  (forall c, In c (_findAllValidSegments path metrics)
             <-> exists s e, validRun path rejected s e
                             /\ c = mkCand path metrics s e (segmentLength path s e))
  /\ ((forall s e, ~ validRun path rejected s e) ->
      findOptimalPlacement measureTextLength path text fontSize metrics
      = Ok (mkPlacementResult None (Some EntirePathProblematic) [] textLength))
  /\ (forall s e, validRun path rejected s e ->
      exists longest,
        findOptimalPlacement measureTextLength path text fontSize metrics
        = Ok (mkPlacementResult (Some longest)
                (Some (TextExceedsLongest textLength (seg_length (segment longest))))
                (_findAllValidSegments path metrics) textLength)
        /\ In longest (_findAllValidSegments path metrics)
        /\ validRun path rejected (seg_startIdx (segment longest))
                    (seg_endIdx (segment longest))
        /\ forall s' e', validRun path rejected s' e' ->
             segmentLength path s' e' <= seg_length (segment longest)).
Proof.
  intros textLength rejected Hnone.
  split; [apply _findAllValidSegments_spec|]. split.
  - intros Hno. unfold findOptimalPlacement. fold textLength. rewrite Hnone.
    destruct (_findAllValidSegments path metrics) as [|first rest] eqn:Hsegs;
      [reflexivity|].
    exfalso.
    assert (In first (_findAllValidSegments path metrics)) as Hin
      by (rewrite Hsegs; left; reflexivity).
    apply _findAllValidSegments_spec in Hin. destruct Hin as (s & e & Hv & _).
    exact (Hno s e Hv).
  - intros s e Hv. unfold findOptimalPlacement. fold textLength. rewrite Hnone.
    assert (In (mkCand path metrics s e (segmentLength path s e))
              (_findAllValidSegments path metrics)) as Hin
      by (apply _findAllValidSegments_spec; eauto).
    destruct (_findAllValidSegments path metrics) as [|first rest] eqn:Hsegs;
      [destruct Hin|].
    pose proof (longestOf_spec (first :: rest) first) as Hl. cbv zeta in Hl.
    set (longest := longestOf first (first :: rest)) in *.
    destruct Hl as (Hmem & _ & Hall).
    assert (In longest (first :: rest)) as Hlin.
    { destruct Hmem as [-> | Hmem]; [left; reflexivity | exact Hmem]. }
    exists longest. split; [reflexivity|]. split; [exact Hlin|].
    assert (forall c, In c (first :: rest) ->
              exists s e, validRun path rejected s e
                          /\ c = mkCand path metrics s e (segmentLength path s e)) as Hspec.
    { intros c Hc. rewrite <- Hsegs in Hc.
      apply _findAllValidSegments_spec in Hc. exact Hc. }
    split.
    + destruct (Hspec _ Hlin) as (s0 & e0 & Hv0 & ->). exact Hv0.
    + intros s' e' Hv'.
      assert (In (mkCand path metrics s' e' (segmentLength path s' e')) (first :: rest)) as Hc.
      { rewrite <- Hsegs. apply _findAllValidSegments_spec. eauto. }
      exact (Hall _ Hc).
Qed.

End Fallback.

(* ====================================================================== *)
(** * The analysis of a straight path *)
(* ====================================================================== *)

(** Evaluate the tests of membership in the rejected set of [metrics]. *)
Ltac eval_rejected metrics :=
  rewrite ?(rejected_test metrics); unfold rejectedRegions; simpl.

Module StraightPaths.
Import GeometryAnalyzer CurvatureFacts.
Local Open Scope R_scope.

(** Three points in a row on a horizontal line, walked left to right, make
    no turn. *)
Lemma rawCurvatureAt_collinear (pts : list Point) (i : nat) :
  py (pt pts (i - 1)) = py (pt pts i) ->
  py (pt pts i) = py (pt pts (i + 1)) ->
  px (pt pts (i - 1)) < px (pt pts i) ->
  px (pt pts i) < px (pt pts (i + 1)) ->
  rawCurvatureAt pts i = 0.
Proof.
  intros Hy1 Hy2 Hx1 Hx2. unfold rawCurvatureAt.
  set (a := px (pt pts i) - px (pt pts (i - 1))).
  set (b := px (pt pts (i + 1)) - px (pt pts i)).
  replace (py (pt pts i) - py (pt pts (i - 1))) with 0 by lra.
  replace (py (pt pts (i + 1)) - py (pt pts i)) with 0 by lra.
  assert (0 < a) by (unfold a; lra). assert (0 < b) by (unfold b; lra).
  rewrite (sqrt_of_square a (a * a + 0 * 0)) by lra.
  rewrite (sqrt_of_square b (b * b + 0 * 0)) by lra.
  destruct (Req_dec_T a 0); [lra|]. destruct (Req_dec_T b 0); [lra|].
  replace ((a * b + 0 * 0) / (a * b)) with 1 by (field; lra).
  replace (Rmax (-1) (Rmin 1 1)) with 1
    by (unfold Rmin, Rmax; Rdecide; reflexivity).
  rewrite acos_1.
  destruct (Rlt_dec 0 ((a + b) / 2)); [|reflexivity].
  unfold Rdiv. rewrite !Rmult_0_l. reflexivity.
Qed.

End StraightPaths.

Import GeometryAnalyzer CurvatureFacts StraightPaths.

Section StraightPath.

Local Open Scope R_scope.

Lemma build_straightPath :
  RiverPathParser.build (JArray straightCoords) = Ok straightPath.
Proof.
  unfold RiverPathParser.build, straightPath. simpl.
  unfold RiverPathParser.totalLengthOf, RiverPathParser.boundsOf. simpl.
  eval_sqrt. unfold Rmin, Rmax. Rdecide.
  do 2 f_equal. lra.
Qed.

Lemma calculateCurvature_straightPath :
  calculateCurvature straightPath = [0; 0; 0; 0; 0].
Proof.
  unfold calculateCurvature, rawCurvatures, smoothedAt. simpl.
  rewrite !rawCurvatureAt_collinear by (simpl; lra).
  repeat (f_equal; try lra).
Qed.

Lemma analyzeGeometry_straightPath :
  analyzeGeometry straightPath = straightMetrics.
Proof.
  unfold analyzeGeometry, findSharpCurves, getEdgeSections.
  rewrite calculateCurvature_straightPath. simpl.
  Rdecide. unfold _calculateSegmentLength, distance. simpl.
  eval_sqrt. Rdecide. simpl.
  unfold straightMetrics, Rmax. Rdecide. eval_sqrt.
  f_equal; [|lra]. f_equal; f_equal; lra.
Qed.

End StraightPath.

(* ====================================================================== *)
(** * Fallback and widths on concrete paths (C4, C10) *)
(* ====================================================================== *)

Section ConcretePaths.

Local Open Scope R_scope.
(** C4, as stated, fails: on the straight five-point path the analyzer
    rejects the indices 0, 1, 3 and 4, the index 2 is a run of one
    non-rejected point, no candidate fits, and the result has no placement
    and the warning that the entire path is problematic. *)
Lemma findOptimalPlacement_single_free_point :
  RiverPathParser.build (JArray straightCoords) = Ok straightPath
  /\ (2%nat ∉ rejectedIndices (analyzeGeometry straightPath))
  /\ findCandidates straightPath (wideLabel "Elbe" 16) (analyzeGeometry straightPath) = []
  /\ findOptimalPlacement wideLabel straightPath "Elbe" 16 (analyzeGeometry straightPath)
     = Ok (mkPlacementResult None (Some EntirePathProblematic) [] 100).
Proof.
  rewrite analyzeGeometry_straightPath.
  assert (findCandidates straightPath (wideLabel "Elbe" 16) straightMetrics = []) as Hnone.
  { unfold findCandidates. simpl. eval_rejected straightMetrics. reflexivity. }
  split; [exact build_straightPath|]. split; [|split; [exact Hnone|]].
  - apply (bool_decide_eq_false_1 (2%nat ∈ rejectedIndices straightMetrics)).
    eval_rejected straightMetrics. reflexivity.
  - unfold findOptimalPlacement. rewrite Hnone.
    unfold _findAllValidSegments. simpl. eval_rejected straightMetrics.
    Rdecide. reflexivity.
Qed.

Lemma build_lateWidthPath :
  RiverPathParser.build (JArray lateWidthCoords) = Ok lateWidthPath.
Proof.
  unfold RiverPathParser.build, lateWidthPath. simpl.
  unfold RiverPathParser.totalLengthOf, RiverPathParser.boundsOf. simpl.
  eval_sqrt. unfold Rmin, Rmax. Rdecide.
  do 2 f_equal. lra.
Qed.

Lemma calculateCurvature_lateWidthPath :
  calculateCurvature lateWidthPath = [0; 0; 0; 0; 0; 0].
Proof.
  unfold calculateCurvature, rawCurvatures, smoothedAt. simpl.
  rewrite !rawCurvatureAt_collinear by (simpl; lra).
  repeat (f_equal; try lra).
Qed.

Lemma analyzeGeometry_lateWidthPath :
  analyzeGeometry lateWidthPath = lateWidthMetrics.
Proof.
  unfold analyzeGeometry, findSharpCurves, findNarrowSections, getEdgeSections.
  rewrite calculateCurvature_lateWidthPath. simpl.
  unfold toNumber. Rdecide. unfold _calculateSegmentLength, distance. simpl.
  eval_sqrt. Rdecide. simpl.
  unfold lateWidthMetrics, Rmax. Rdecide. eval_sqrt.
  f_equal; [|lra]. f_equal; f_equal; lra.
Qed.

(** The candidates of [lateWidthPath] for a text of length 10: the one
    window the rejected indices 0, 1, 4 and 5 leave. *)
Lemma findCandidates_lateWidthPath :
  findCandidates lateWidthPath 10 lateWidthMetrics
  = [mkCand lateWidthPath lateWidthMetrics 2 3 10].
Proof.
  unfold findCandidates. simpl. eval_rejected lateWidthMetrics.
  unfold hasRejectedPoint, distance. simpl. eval_sqrt. Rdecide.
  eval_rejected lateWidthMetrics. f_equal. f_equal. lra.
Qed.

(** C10 at the input [lateWidthCoords]: the list is accepted, the point at
    index 2 carries the width [-5], no narrow-section region covers index
    2 (the width is stored at index 0), and the window [2..3] of the only
    candidate for a text of length 10 contains it. *)
Lemma negative_width_point_inside_candidate :
  RiverPathParser.validate (JArray lateWidthCoords) = RiverPathParser.Valid
  /\ RiverPathParser.build (JArray lateWidthCoords) = Ok lateWidthPath
  /\ coordWidth (nth 2 lateWidthCoords JNull) = Some (-5)
  /\ widths lateWidthPath = Some [Some (-5); Some 20; Some 20; Some 20]
  /\ (forall seg, In seg (narrowSections (analyzeGeometry lateWidthPath)) ->
        ~ covers seg 2)
  /\ exists c,
       In c (findCandidates lateWidthPath 10 (analyzeGeometry lateWidthPath))
       /\ seg_startIdx (segment c) = 2%nat /\ seg_endIdx (segment c) = 3%nat.
Proof.
  rewrite analyzeGeometry_lateWidthPath.
  split; [reflexivity|]. split; [exact build_lateWidthPath|].
  split; [reflexivity|]. split; [reflexivity|]. split.
  - intros seg [<- | []]. unfold covers. simpl. lia.
  - rewrite findCandidates_lateWidthPath. eexists. split; [left; reflexivity|].
    split; reflexivity.
Qed.

Lemma findCandidates_lateWidthPath_huge :
  findCandidates lateWidthPath 1000 lateWidthMetrics = [].
Proof.
  unfold findCandidates. simpl. eval_rejected lateWidthMetrics.
  unfold hasRejectedPoint, distance. simpl. eval_sqrt. Rdecide.
  eval_rejected lateWidthMetrics. reflexivity.
Qed.

Lemma validRun_lateWidthPath :
  validRun lateWidthPath (rejectedIndices lateWidthMetrics) 2 3.
Proof.
  assert (forall i b,
            existsb (fun seg => (seg_startIdx seg <=? i)%nat && (i <=? seg_endIdx seg)%nat)
                    (rejectedRegions lateWidthMetrics) = b ->
            if b then i ∈ rejectedIndices lateWidthMetrics
            else i ∉ rejectedIndices lateWidthMetrics) as Hdec.
  { intros i b <-. rewrite <- rejected_test.
    destruct (bool_decide _) eqn:Hb;
      [apply bool_decide_eq_true in Hb | apply bool_decide_eq_false in Hb]; exact Hb. }
  split; [simpl; lia|]. split; [|split; [|split]].
  - intros i Hi. assert (i = 2 \/ i = 3)%nat as [-> | ->] by lia.
    + exact (Hdec 2%nat false eq_refl).
    + exact (Hdec 3%nat false eq_refl).
  - right. exact (Hdec 1%nat true eq_refl).
  - right. exact (Hdec 4%nat true eq_refl).
  - unfold GeometryAnalyzer._calculateSegmentLength, distance. simpl. eval_sqrt. lra.
Qed.

Lemma findOptimalPlacement_fallback_witness :
  exists longest,
    findOptimalPlacement hugeLabel lateWidthPath "Elbe" 16 lateWidthMetrics
    = Ok (mkPlacementResult (Some longest)
            (Some (TextExceedsLongest 1000 (seg_length (segment longest))))
            (_findAllValidSegments lateWidthPath lateWidthMetrics) 1000)
    /\ In longest (_findAllValidSegments lateWidthPath lateWidthMetrics)
    /\ seg_startIdx (segment longest) = 2%nat
    /\ seg_endIdx (segment longest) = 3%nat.
Proof.
  destruct (findOptimalPlacement_fallback hugeLabel lateWidthPath "Elbe" 16
              lateWidthMetrics findCandidates_lateWidthPath_huge)
    as (Hspec & _ & Hsome).
  destruct (Hsome 2%nat 3%nat validRun_lateWidthPath)
    as (longest & Hres & Hin & Hvalid & Hmax).
  exists longest. split; [exact Hres|]. split; [exact Hin|].
  assert (forall i b,
            existsb (fun seg => (seg_startIdx seg <=? i)%nat && (i <=? seg_endIdx seg)%nat)
                    (rejectedRegions lateWidthMetrics) = b ->
            b = true -> i ∈ rejectedIndices lateWidthMetrics) as Hdec.
  { intros i b <- Hb. rewrite <- rejected_test in Hb.
    apply bool_decide_eq_true in Hb. exact Hb. }
  destruct Hvalid as (Hse & Hfree & _). simpl in Hse.
  set (s := seg_startIdx (segment longest)) in *.
  set (e := seg_endIdx (segment longest)) in *.
  assert (forall i, (i = 0 \/ i = 1 \/ i = 4 \/ i = 5)%nat -> ~ (s <= i <= e)%nat) as Hout.
  { intros i Hi Hr. apply (Hfree i Hr).
    destruct Hi as [-> | [-> | [-> | ->]]]; apply (Hdec _ true); reflexivity. }
  pose proof (Hout 0%nat). pose proof (Hout 1%nat).
  pose proof (Hout 4%nat). pose proof (Hout 5%nat). lia.
Defined.

End ConcretePaths.

(* ====================================================================== *)
(** * Score ranges (C3) *)
(* ====================================================================== *)

Module ScoreFacts.
Import GeometryAnalyzer PlacementScorer ScorerFacts FallbackFacts CurvatureFacts AnalyzerFacts.
Local Open Scope R_scope.

Lemma penalty_in_range (v k : R) : 0 <= v -> 0 <= k -> inRange (Rmax 0 (100 - v * k)).
Proof.
  intros Hv Hk. unfold inRange, Rmax.
  pose proof (Rmult_le_pos v k Hv Hk).
  destruct (Rle_dec 0 (100 - v * k)); lra.
Qed.

Lemma INR_pos_of_ltb (count : nat) : (0 <? count)%nat = true -> 0 < INR count.
Proof. intros H. apply Nat.ltb_lt in H. apply lt_0_INR. exact H. Qed.

Lemma quotient_nonneg (a b : R) : 0 <= a -> 0 < b -> 0 <= a / b.
Proof.
  intros Ha Hb. apply Rmult_le_pos; [exact Ha|].
  left. apply Rinv_0_lt_compat. exact Hb.
Qed.

(** Curvature score: the mean of non-negative curvatures is non-negative. *)
Lemma curvatureScore_in_range (path : RiverPath) (startIdx endIdx : nat)
    (metrics : GeometryMetrics) :
  (forall i, 0 <= nth i (curvatures metrics) 0) ->
  inRange (_calculateCurvatureScore path startIdx endIdx metrics).
Proof.
  intros Hc. unfold _calculateCurvatureScore.
  assert (forall l s0 (c0 : nat), 0 <= s0 ->
            0 <= fst (foldl (fun '(sum, count) i =>
                               if (i <? length (curvatures metrics))%nat
                               then (sum + nth i (curvatures metrics) 0, S count)
                               else (sum, count)) (s0, c0) l)) as Hsum.
  { induction l as [|i l IH]; intros s0 c0 Hs0; simpl; [exact Hs0|].
    destruct (i <? length (curvatures metrics))%nat; apply IH; [|exact Hs0].
    specialize (Hc i). lra. }
  specialize (Hsum (range_incl startIdx endIdx) 0 0%nat (Rle_refl 0)).
  destruct (foldl _ _ (range_incl startIdx endIdx)) as [sum count]. simpl in Hsum.
  apply penalty_in_range; [|lra].
  destruct (0 <? count)%nat eqn:Hcount; [|lra].
  apply quotient_nonneg; [exact Hsum | apply INR_pos_of_ltb; exact Hcount].
Qed.

(** Width score: the mean of non-negative widths is non-negative. *)
Lemma widthScore_in_range (path : RiverPath) (startIdx endIdx : nat) :
  (forall ws i w, widths path = Some ws -> (startIdx <= i <= endIdx)%nat ->
                  ws !! i = Some (Some w) -> 0 <= w) ->
  inRange (_calculateWidthScore path startIdx endIdx).
Proof.
  intros Hw. unfold _calculateWidthScore.
  destruct (widths path) as [ws|] eqn:Hws; [|unfold inRange; lra].
  destruct ws as [|w0 ws']; [unfold inRange; lra|].
  set (ws := w0 :: ws') in *.
  assert (forall l s0 (c0 : nat),
            (forall i, In i l -> (startIdx <= i <= endIdx)%nat) -> 0 <= s0 ->
            0 <= fst (foldl (fun '(sum, count) i =>
                               match ws !! i with
                               | Some (Some w) => (sum + w, S count)
                               | _ => (sum, count)
                               end) (s0, c0) l)) as Hsum.
  { induction l as [|i l IH]; intros s0 c0 Hl Hs0; simpl; [exact Hs0|].
    assert (forall j, In j l -> (startIdx <= j <= endIdx)%nat) as Hl'
      by (intros j Hj; apply Hl; right; exact Hj).
    destruct (ws !! i) as [[w|]|] eqn:Hi; apply IH; try assumption.
    assert (0 <= w) by (apply (Hw ws i w eq_refl); [apply Hl; left; reflexivity | exact Hi]).
    lra. }
  specialize (Hsum (range_incl startIdx endIdx) 0 0%nat
                (fun i Hi => proj1 (in_range_incl startIdx endIdx i) Hi) (Rle_refl 0)).
  destruct (foldl _ _ (range_incl startIdx endIdx)) as [sum count]. simpl in Hsum.
  assert (0 <= (if (0 <? count)%nat then sum / INR count else 0)) as Havg.
  { destruct (0 <? count)%nat eqn:Hcount; [|lra].
    apply quotient_nonneg; [exact Hsum | apply INR_pos_of_ltb; exact Hcount]. }
  set (avg := if (0 <? count)%nat then sum / INR count else 0) in *.
  unfold inRange, Rmin. destruct (Rle_dec 100 (avg / 20 * 100)); lra.
Qed.

Lemma foldl_ext_in {A B : Type} (f g : A -> B -> A) (l : list B) (a : A) :
  (forall acc b, In b l -> f acc b = g acc b) -> foldl f a l = foldl g a l.
Proof.
  revert a. induction l as [|b l IH]; intros a H; simpl; [reflexivity|].
  rewrite H by (left; reflexivity). apply IH.
  intros acc b' Hb. apply H. right. exact Hb.
Qed.

(** Inside the path the guarded sums of the scorer are the analyzer's
    segment length. *)
Lemma sumSegments_segmentLength (path : RiverPath) (a b : nat) :
  (b <= length (points path) - 1)%nat ->
  sumSegments (points path) a b = segmentLength path a b.
Proof.
  intros Hb. unfold sumSegments, GeometryAnalyzer._calculateSegmentLength.
  apply foldl_ext_in. intros acc i Hi. apply in_range_excl in Hi.
  destruct (i <? length (points path) - 1)%nat eqn:Hlt; [reflexivity|].
  apply Nat.ltb_ge in Hlt. lia.
Qed.

(** The length [parse] stores is the sum of all segment lengths. *)
Lemma totalLengthOf_segmentLength (path : RiverPath) :
  RiverPathParser.totalLengthOf (points path)
  = segmentLength path 0 (length (points path) - 1).
Proof.
  unfold RiverPathParser.totalLengthOf, GeometryAnalyzer._calculateSegmentLength, range_excl.
  rewrite Nat.sub_0_r, <- seq_shift.
  change (map S (seq 0 (length (points path) - 1)))
    with (S <$> seq 0 (length (points path) - 1)).
  rewrite foldl_fmap. apply foldl_ext_in. intros acc i _.
  unfold distance. replace (S i - 1)%nat with i by lia.
  replace (S i) with (i + 1)%nat by lia.
  do 2 f_equal. ring.
Qed.

(** Position score: the centre of a window inside the path lies between
    the two ends of the path. *)
Lemma positionScore_in_range (path : RiverPath) (startIdx endIdx : nat) :
  path_length path = segmentLength path 0 (length (points path) - 1) ->
  (startIdx <= endIdx <= length (points path) - 1)%nat ->
  inRange (_calculatePositionScore path startIdx endIdx).
Proof.
  intros Hlen Hr. unfold _calculatePositionScore.
  rewrite !sumSegments_segmentLength by lia. rewrite Hlen.
  pose proof (segmentLength_nonneg path 0 startIdx) as H1.
  pose proof (segmentLength_nonneg path startIdx endIdx) as H2.
  pose proof (segmentLength_nonneg path endIdx (length (points path) - 1)) as H3.
  rewrite (segmentLength_split path 0 endIdx (length (points path) - 1)) by lia.
  rewrite (segmentLength_split path 0 startIdx endIdx) by lia.
  set (a := segmentLength path 0 startIdx) in *.
  set (b := segmentLength path startIdx endIdx) in *.
  set (c := segmentLength path endIdx (length (points path) - 1)) in *.
  destruct (Rlt_dec 0 ((a + b + c) / 2)) as [Hpos | _]; [|unfold inRange; lra].
  set (m := (a + b + c) / 2) in *.
  assert (Rabs (a + b / 2 - m) <= m) as Habs.
  { apply Rabs_le. unfold m. lra. }
  pose proof (Rabs_pos (a + b / 2 - m)) as Hge.
  set (d := Rabs (a + b / 2 - m)) in *.
  assert (0 <= d / m) as Hq0 by (apply quotient_nonneg; assumption).
  assert (d / m <= 1) as Hq1.
  { apply (Rmult_le_reg_r m); [exact Hpos|].
    replace (d / m * m) with d by (field; lra). lra. }
  unfold inRange. lra.
Qed.

(** Straightness score: a penalty on a non-negative spread. *)
Lemma straightnessScore_in_range (path : RiverPath) (startIdx endIdx : nat) :
  inRange (_calculateStraightnessScore path startIdx endIdx).
Proof.
  unfold _calculateStraightnessScore.
  destruct (endIdx - startIdx <? 2)%nat; [unfold inRange; lra|].
  destruct (segmentAngles (points path) startIdx endIdx) as [|a angles];
    [unfold inRange; lra|].
  apply penalty_in_range; [|lra].
  apply Rmult_le_pos; [apply sqrt_pos|].
  apply quotient_nonneg; [lra | exact PI_RGT_0].
Qed.

Lemma mkCand_scores_in_range (path : RiverPath) (metrics : GeometryMetrics)
    (startIdx endIdx : nat) (len : R) :
  inRange (_calculateCurvatureScore path startIdx endIdx metrics) ->
  inRange (_calculateWidthScore path startIdx endIdx) ->
  inRange (_calculatePositionScore path startIdx endIdx) ->
  inRange (_calculateStraightnessScore path startIdx endIdx) ->
  scoresInRange (mkCand path metrics startIdx endIdx len).
Proof.
  unfold scoresInRange, mkCand, scoreSegment, inRange. simpl.
  intros H1 H2 H3 H4. repeat split; lra.
Qed.

(** What [parse] returns on success is what [build] returns on some
    coordinate array. *)
Lemma parse_Ok_build (parsePolygon : string -> Result (list (R * R)))
    (data : RiverPathParser.ParseInput) (path : RiverPath) :
  RiverPathParser.parse parsePolygon data = Ok path ->
  exists coordinates, RiverPathParser.build (JArray coordinates) = Ok path.
Proof.
  unfold RiverPathParser.parse. destruct data as [wkt | coordinates |].
  - destruct (parsePolygon wkt) as [polygonCoords | e]; [|discriminate].
    destruct (WKTParser.extractCenterline polygonCoords) as [centerline | e];
      [|discriminate].
    unfold RiverPathParser.centerlineValue. eauto.
  - eauto.
  - discriminate.
Qed.

Lemma build_path_length (coordinates : list JsValue) (path : RiverPath) :
  RiverPathParser.build (JArray coordinates) = Ok path ->
  path_length path = segmentLength path 0 (length (points path) - 1).
Proof.
  intros Hb. destruct (build_Ok_inv _ _ Hb) as [Hlen Hwf].
  rewrite build_Ok in Hb by assumption.
  rewrite <- totalLengthOf_segmentLength. injection Hb as <-. reflexivity.
Qed.

(** In a window that avoids the narrow-section regions of the analysis,
    every width read by the scorer is at least the minimum 10. *)
Lemma window_widths_at_least_10 (path : RiverPath) (ws : list (option R))
    (i : nat) (w : R) :
  widths path = Some ws ->
  ws !! i = Some (Some w) ->
  i ∉ rejectedIndices (analyzeGeometry path) ->
  10 <= w.
Proof.
  intros Hws Hi Hfree.
  destruct (Rle_dec 10 w) as [Hle | Hlt]; [exact Hle|]. exfalso. apply Hfree.
  assert (i < length ws)%nat as Hlen by (apply lookup_lt_is_Some; eauto).
  assert (nth i ws None = Some w) as Hnth
    by (apply nth_lookup_Some with (x := Some w); exact Hi).
  destruct (findNarrowSections_cover path 10 ws i Hws Hlen) as (seg & Hin & Hc).
  { rewrite Hnth. simpl. lra. }
  apply elem_of_rejectedIndices. exists seg. split; [|exact Hc].
  unfold rejectedRegions. rewrite !in_app_iff. right. left.
  unfold analyzeGeometry. simpl. rewrite Hws.
  destruct ws as [|w0 ws']; [simpl in Hlen; lia | exact Hin].
Qed.

(** The scores of a window of a parsed path that avoids the rejected
    indices of its analysis. *)
Lemma window_scores_in_range (coordinates : list JsValue) (path : RiverPath)
    (startIdx endIdx : nat) (len : R) :
  RiverPathParser.build (JArray coordinates) = Ok path ->
  (startIdx <= endIdx < length (points path))%nat ->
  (forall i, (startIdx <= i <= endIdx)%nat ->
             i ∉ rejectedIndices (analyzeGeometry path)) ->
  scoresInRange (mkCand path (analyzeGeometry path) startIdx endIdx len).
Proof.
  intros Hb Hr Hfree. apply mkCand_scores_in_range.
  - apply curvatureScore_in_range. intros i. apply calculateCurvature_nonneg.
  - apply widthScore_in_range. intros ws i w Hws Hi Hw.
    pose proof (window_widths_at_least_10 path ws i w Hws Hw (Hfree i Hi)). lra.
  - apply positionScore_in_range; [exact (build_path_length _ _ Hb) | lia].
  - apply straightnessScore_in_range.
Qed.

End ScoreFacts.

Import GeometryAnalyzer PlacementScorer ScorerFacts CurvatureFacts ScoreFacts.

Section ScoreRanges.

Local Open Scope R_scope.

(** The range of the scores in exact arithmetic.  For every path model
    returned by the parser, with the metrics of [analyzeGeometry], every
    candidate of [findCandidates] has its four component scores
    (curvature, width, position, straightness) and its weighted overall
    score in the closed interval [0, 100], as long as no operation rounds
    or overflows: the formulas are written for that range. *)
Lemma pipeline_scores_in_range
    (parsePolygon : string -> Result (list (R * R)))
    (data : RiverPathParser.ParseInput) (path : RiverPath) (textLength : R) :
  RiverPathParser.parse parsePolygon data = Ok path ->
  Forall scoresInRange (findCandidates path textLength (analyzeGeometry path)).
Proof.
  intros Hparse. destruct (parse_Ok_build _ _ _ Hparse) as (coordinates & Hb).
  apply List.Forall_forall. intros c Hin.
  apply findCandidates_inv in Hin.
  destruct Hin as (startIdx & endIdx & Hr & -> & Hfree & _).
  apply (window_scores_in_range coordinates); [exact Hb | lia | exact Hfree].
Qed.

(** In exact arithmetic the segments of the fallback list have their
    scores in the same interval. *)
Lemma fallback_scores_in_range
    (parsePolygon : string -> Result (list (R * R)))
    (data : RiverPathParser.ParseInput) (path : RiverPath) :
  RiverPathParser.parse parsePolygon data = Ok path ->
  Forall scoresInRange (_findAllValidSegments path (analyzeGeometry path)).
Proof.
  intros Hparse. destruct (parse_Ok_build _ _ _ Hparse) as (coordinates & Hb).
  apply List.Forall_forall. intros c Hin.
  apply FallbackFacts._findAllValidSegments_spec in Hin.
  destruct Hin as (s & e & (Hr & Hfree & _) & ->).
  apply (window_scores_in_range coordinates); [exact Hb | lia | exact Hfree].
Qed.

End ScoreRanges.

(* ====================================================================== *)
(** * Doubles: overflow, rounding and the edge scans (C3) *)
(* ====================================================================== *)

Module DoublesFacts.

Import PrimFloat Doubles DoublesVocabulary.

Local Open Scope float_scope.

Lemma walked_S (path : DPath) (j : nat) :
  walked path (S j)
  = walked path j + distance (dpt (dpoints path) j) (dpt (dpoints path) (j + 1)).
Proof.
  unfold walked, _calculateSegmentLength, range_excl.
  rewrite !Nat.sub_0_r, seq_S, foldl_app. reflexivity.
Qed.

Lemma walkedBack_pred (path : DPath) (j : nat) :
  (j + 1 <= length (dpoints path) - 1)%nat ->
  walkedBack path j
  = walkedBack path (j + 1)
    + distance (dpt (dpoints path) (j + 1)) (dpt (dpoints path) (j + 1 - 1)).
Proof.
  intros Hj. unfold walkedBack.
  replace (length (dpoints path) - 1 - j)%nat
    with (S (length (dpoints path) - 1 - (j + 1)))%nat by lia.
  cbn [seq]. cbn [rev]. rewrite foldl_app.
  replace (S (j + 1)) with (j + 1 + 1)%nat by lia. reflexivity.
Qed.

Lemma walkedBack_last (path : DPath) :
  walkedBack path (length (dpoints path) - 1) = 0.
Proof.
  unfold walkedBack. replace (_ - 1 - _)%nat with 0%nat by lia. reflexivity.
Qed.

(** The first loop stops at the first point at which the test holds. *)
Lemma edgeScanForward_stops (path : DPath) (len : nat) :
  forall a acc,
    acc = walked path a ->
    let r := edgeScanForward (dpoints path) (edgeThresholdOf path) acc (seq a len) in
    (r = 0%nat /\ forall j, (a < j <= a + len)%nat -> reaches path (walked path j) = false)
    \/ ((a < r <= a + len)%nat
        /\ reaches path (walked path r) = true
        /\ forall j, (a < j < r)%nat -> reaches path (walked path j) = false).
Proof.
  induction len as [|len IH]; intros a acc Hacc; cbv zeta.
  - left. split; [reflexivity|]. intros j Hj. lia.
  - cbn [seq edgeScanForward].
    assert (acc + distance (dpt (dpoints path) a) (dpt (dpoints path) (a + 1))
            = walked path (S a)) as Hnext by (rewrite walked_S, Hacc; reflexivity).
    rewrite Hnext.
    destruct (edgeThresholdOf path <=? walked path (S a)) eqn:Htest.
    + right. split; [lia|]. replace (a + 1)%nat with (S a) by lia.
      split; [exact Htest|]. intros j Hj. lia.
    + specialize (IH (S a) (walked path (S a)) eq_refl). cbv zeta in IH.
      destruct IH as [(Hr & Hall) | (Hr & Hreach & Hmin)].
      * left. split; [exact Hr|]. intros j Hj.
        destruct (Nat.eq_dec j (S a)) as [-> | Hne]; [exact Htest | apply Hall; lia].
      * right. split; [lia|]. split; [exact Hreach|]. intros j Hj.
        destruct (Nat.eq_dec j (S a)) as [-> | Hne]; [exact Htest | apply Hmin; lia].
Qed.

(** The second loop stops at the first point, coming from the last one, at
    which the test holds. *)
Lemma edgeScanBackward_stops (path : DPath) (dflt : nat) (k : nat) :
  forall acc,
    (k <= length (dpoints path) - 1)%nat ->
    acc = walkedBack path k ->
    let r := edgeScanBackward (dpoints path) (edgeThresholdOf path) acc dflt
               (rev (seq 1 k)) in
    (r = dflt /\ forall j, (j < k)%nat -> reaches path (walkedBack path j) = false)
    \/ ((r < k)%nat
        /\ reaches path (walkedBack path r) = true
        /\ forall j, (r < j < k)%nat -> reaches path (walkedBack path j) = false).
Proof.
  induction k as [|k IH]; intros acc Hk Hacc; cbv zeta.
  - left. split; [reflexivity|]. intros j Hj. lia.
  - rewrite seq_S, rev_app_distr. cbn [rev app edgeScanBackward].
    replace (1 + k)%nat with (k + 1)%nat by lia.
    assert (acc + distance (dpt (dpoints path) (k + 1)) (dpt (dpoints path) (k + 1 - 1))
            = walkedBack path k) as Hnext.
    { rewrite (walkedBack_pred path k) by lia. rewrite Hacc.
      replace (S k) with (k + 1)%nat by lia. reflexivity. }
    rewrite Hnext.
    destruct (edgeThresholdOf path <=? walkedBack path k) eqn:Htest.
    + right. replace (k + 1 - 1)%nat with k by lia. split; [lia|].
      split; [exact Htest|]. intros j Hj. lia.
    + specialize (IH (walkedBack path k) ltac:(lia) eq_refl). cbv zeta in IH.
      destruct IH as [(Hr & Hall) | (Hr & Hreach & Hmin)].
      * left. split; [exact Hr|]. intros j Hj.
        destruct (Nat.eq_dec j k) as [-> | Hne]; [exact Htest | apply Hall; lia].
      * right. split; [lia|]. split; [exact Hreach|]. intros j Hj.
        destruct (Nat.eq_dec j k) as [-> | Hne]; [exact Htest | apply Hmin; lia].
Qed.

(** The placer's measurement depends on the number of characters only. *)
Lemma placerTextLength_by_length (text : string) :
  placerTextLength text
  = foldl (fun totalWidth (_ : unit) => totalWidth + mockWidth 16) 0
          (repeat tt (String.length text)).
Proof.
  unfold placerTextLength.
  assert (forall (chars : list ascii) acc,
            foldl (fun totalWidth (char : ascii) => totalWidth + mockWidth 16) acc chars
            = foldl (fun totalWidth (_ : unit) => totalWidth + mockWidth 16) acc
                    (repeat tt (length chars))) as Hfold.
  { induction chars as [|c cs IH]; intros acc; [reflexivity | apply IH]. }
  assert (length (list_ascii_of_string text) = String.length text) as Hlen.
  { induction text as [|c cs IH]; simpl; [reflexivity | f_equal; exact IH]. }
  rewrite <- Hlen.
  destruct (list_ascii_of_string text) as [|c cs] eqn:Ht; [reflexivity|].
  apply Hfold.
Qed.

(** Far outside the interval the first normalisation loop is written
    for, its subtraction changes nothing: on [1e17], [diff - 2 * Math.PI]
    is [diff] again, and the loop is still running after any number of
    iterations.  The differences the straightness score forms are within
    a full turn, where one subtraction is enough. *)
Lemma wrapDown_makes_no_progress (fuel : nat) : wrapDown fuel 1e17 = None.
Proof.
  induction fuel as [|fuel IH]; [reflexivity|].
  change (wrapDown (S fuel) 1e17) with (wrapDown fuel (1e17 - 2 * Math_PI)).
  replace (1e17 - 2 * Math_PI) with 1e17 by (vm_compute; reflexivity).
  exact IH.
Qed.

End DoublesFacts.

Section DoubleScores.

Import PrimFloat Doubles DoublesVocabulary DoublesFacts.

Local Open Scope float_scope.

(** C3.  In the program's own arithmetic the scores of the pipeline leave
    the interval [0, 100].  [validate] accepts the eight points
    [(k * 1e160, 0)], [k = 0 .. 7]; the squares of the steps overflow, so
    the path length [parse] stores is [Infinity] and the curvature at
    every interior point is [NaN].  For a text length of 48,
    [findCandidates] on that path and the metrics of [analyzeGeometry]
    returns the six windows between the indices 2 and 5; the curvature
    score, the position score and the overall score of each of them are
    [NaN], which is no number between 0 and 100 (the width score is 50 and
    the straightness score 100), and [selectOptimal] on the six throws a
    [TypeError]. *)
Theorem scores_leave_range_on_overflow
    (acosInside : float -> float) (atan2Other : float -> float -> float) :
  accepted hugeCoordinates = true
  /\ dlength (parse hugeCoordinates) = infinity
  /\ exists candidates,
       findCandidates atan2Other 0 (parse hugeCoordinates) 48
         (analyzeGeometry acosInside (parse hugeCoordinates)) = Some candidates
       /\ map window candidates = [(2, 3); (2, 4); (2, 5); (3, 4); (3, 5); (4, 5)]%nat
       /\ Forall (fun c => is_nan (dcurvature c) = true
                           /\ is_nan (dposition c) = true
                           /\ is_nan (dscore c) = true
                           /\ inRange (dcurvature c) = false
                           /\ inRange (dposition c) = false
                           /\ inRange (dscore c) = false
                           /\ inRange (dwidth c) = true
                           /\ inRange (dstraightness c) = true)
                 candidates
       /\ selectOptimal candidates = Throw TypeError.
Proof.
  split; [vm_compute; reflexivity|]. split; [vm_compute; reflexivity|].
  eexists. split; [vm_compute; reflexivity|].
  split; [vm_compute; reflexivity|].
  split; [|vm_compute; reflexivity].
  repeat constructor.
Qed.

End DoubleScores.

(* ====================================================================== *)
(** * Angle wrapping, and aligned widths (C10) *)
(* ====================================================================== *)

Module WrapFacts.
Import PlacementScorer.
Local Open Scope R_scope.

Lemma wrapDown_upper (fuel : nat) :
  forall diff, diff <= PI + INR fuel * (2 * PI) -> wrapDown fuel diff <= PI.
Proof.
  induction fuel as [|fuel IH]; intros diff Hd.
  - simpl in *. lra.
  - rewrite S_INR in Hd. simpl.
    destruct (Rlt_dec PI diff); [apply IH; lra | lra].
Qed.

Lemma wrapDown_lower (fuel : nat) :
  forall diff, wrapDown fuel diff = diff \/ - PI < wrapDown fuel diff.
Proof.
  pose proof PI_RGT_0 as Hpi.
  induction fuel as [|fuel IH]; intros diff; simpl; [left; reflexivity|].
  destruct (Rlt_dec PI diff) as [Hgt | _]; [|left; reflexivity].
  right. destruct (IH (diff - 2 * PI)) as [-> | H]; lra.
Qed.

Lemma wrapUp_lower (fuel : nat) :
  forall diff, - PI - INR fuel * (2 * PI) <= diff -> - PI <= wrapUp fuel diff.
Proof.
  induction fuel as [|fuel IH]; intros diff Hd.
  - simpl in *. lra.
  - rewrite S_INR in Hd. simpl.
    destruct (Rlt_dec diff (- PI)); [apply IH; lra | lra].
Qed.

Lemma wrapUp_upper (fuel : nat) :
  forall diff, diff <= PI -> wrapUp fuel diff <= PI.
Proof.
  pose proof PI_RGT_0 as Hpi.
  induction fuel as [|fuel IH]; intros diff Hd; simpl; [exact Hd|].
  destruct (Rlt_dec diff (- PI)); [apply IH; lra | exact Hd].
Qed.

(** The iteration bound of [wrapAngle] is enough: both loops have met
    their exit test, so the value is the one the source computes, and it
    lies in the interval from [-PI] to [PI]. *)
Lemma wrapAngle_range (diff : R) : - PI <= wrapAngle diff <= PI.
Proof.
  unfold wrapAngle. set (fuel := Z.to_nat (up (Rabs diff))).
  pose proof PI_RGT_0 as Hpi. pose proof PI2_3_2 as Hpi2.
  assert (Rabs diff <= INR fuel) as Hfuel.
  { unfold fuel. destruct (archimed (Rabs diff)) as [Hup _].
    pose proof (Rabs_pos diff) as Habs.
    assert (0 < up (Rabs diff))%Z as Hz by (apply lt_IZR; lra).
    rewrite INR_IZR_INZ, Z2Nat.id by lia. lra. }
  pose proof (Rle_abs diff) as H1.
  pose proof (Rle_abs (- diff)) as H2. rewrite Rabs_Ropp in H2.
  assert (0 <= INR fuel) as Hf0 by apply pos_INR.
  assert (INR fuel <= INR fuel * (2 * PI)) as Hscale by nra.
  assert (wrapDown fuel diff <= PI) as Hdown by (apply wrapDown_upper; lra).
  split.
  - apply wrapUp_lower. destruct (wrapDown_lower fuel diff) as [-> | H]; lra.
  - apply wrapUp_upper. exact Hdown.
Qed.

End WrapFacts.

Import GeometryAnalyzer PlacementScorer ScorerFacts AnalyzerFacts RiverPathParser ParserFacts.

Section AlignedWidths.

Local Open Scope R_scope.

(** When the first entry of an accepted list carries a width, every point
    whose width is below 10 (zero and negative widths included) is covered
    by a narrow-section region of the analysis and lies in no candidate
    window. *)
Lemma aligned_narrow_points_excluded (coordinates : list JsValue) (path : RiverPath)
    (c0 : JsValue) (rest : list JsValue) (i : nat) (w : R) :
  build (JArray coordinates) = Ok path ->
  coordinates = c0 :: rest -> coordWidth c0 <> None ->
  coordWidth (nth i coordinates JNull) = Some w -> w < 10 ->
  (exists seg, In seg (narrowSections (analyzeGeometry path))
               /\ covers seg i /\ seg_reason seg = Some NarrowSection)
  /\ forall textLength,
       Forall (fun c => ~ (seg_startIdx (segment c) <= i <= seg_endIdx (segment c))%nat)
              (findCandidates path textLength (analyzeGeometry path)).
Proof.
  intros Hb Hc Hw0 Hw Hlt.
  destruct (parse_points_and_aligned_widths _ _ Hb) as (_ & _ & Hws).
  specialize (Hws c0 rest Hc Hw0).
  assert (i < length coordinates)%nat as Hi.
  { destruct (Nat.lt_ge_cases i (length coordinates)) as [H | H]; [exact H|].
    rewrite nth_overflow in Hw by exact H. discriminate. }
  assert (nth i (map coordWidth coordinates) None = Some w) as Hnth.
  { change None with (coordWidth JNull). rewrite map_nth. exact Hw. }
  destruct (findNarrowSections_cover path 10 _ i Hws) as (seg & Hin & Hcov).
  { rewrite length_map. exact Hi. }
  { rewrite Hnth. exact Hlt. }
  assert (In seg (narrowSections (analyzeGeometry path))) as Hin'.
  { unfold analyzeGeometry. simpl. rewrite Hws, Hc. exact Hin. }
  split.
  - exists seg. split; [exact Hin'|]. split; [exact Hcov|].
    destruct (findNarrowSections_sound _ _ _ Hin) as (ws' & _ & Hr & _). exact Hr.
  - intros textLength. apply List.Forall_forall. intros c Hcand Hr.
    apply findCandidates_inv in Hcand.
    destruct Hcand as (s & e & _ & -> & Hfree & _). simpl in Hr.
    apply (Hfree i Hr). apply elem_of_rejectedIndices.
    exists seg. split; [|exact Hcov].
    unfold rejectedRegions. rewrite !in_app_iff. right. left. exact Hin'.
Qed.

End AlignedWidths.

Import ScorerFacts SelectFacts ParserFacts AnalyzerFacts CurvatureFacts CenterlineFacts.
Import PlacerFacts FallbackFacts ScoreFacts WrapFacts.

(* ====================================================================== *)
(** * The parser: accepted input, errors and bounds *)
(* ====================================================================== *)

Module BoundsFacts.
Local Open Scope R_scope.

(** The bounding-box loop of [parse] over the indices [idxs], from a box
    [b]: the result encloses [b] and every visited point. *)
Lemma boundsLoop_encloses (pts : list Point) (idxs : list nat) :
  forall b,
    let r := foldl (boundsStep pts) b idxs in
    (minX r <= minX b /\ maxX b <= maxX r /\ minY r <= minY b /\ maxY b <= maxY r)
    /\ (forall i, In i idxs ->
          minX r <= px (pt pts i) <= maxX r /\ minY r <= py (pt pts i) <= maxY r).
Proof.
  induction idxs as [|j idxs IH]; intros b; simpl.
  - split; [lra | intros i []].
  - destruct (IH (boundsStep pts b j)) as ((H1 & H2 & H3 & H4) & Hall).
    simpl in H1, H2, H3, H4.
    pose proof (Rmin_l (minX b) (px (pt pts j))).
    pose proof (Rmin_r (minX b) (px (pt pts j))).
    pose proof (Rmax_l (maxX b) (px (pt pts j))).
    pose proof (Rmax_r (maxX b) (px (pt pts j))).
    pose proof (Rmin_l (minY b) (py (pt pts j))).
    pose proof (Rmin_r (minY b) (py (pt pts j))).
    pose proof (Rmax_l (maxY b) (py (pt pts j))).
    pose proof (Rmax_r (maxY b) (py (pt pts j))).
    split; [lra|].
    intros i [<- | Hi]; [lra | auto].
Qed.

Lemma boundsLoop_attained (pts : list Point) (idxs : list nat) :
  forall b,
    let r := foldl (boundsStep pts) b idxs in
    (minX r = minX b \/ exists i, In i idxs /\ minX r = px (pt pts i))
    /\ (maxX r = maxX b \/ exists i, In i idxs /\ maxX r = px (pt pts i))
    /\ (minY r = minY b \/ exists i, In i idxs /\ minY r = py (pt pts i))
    /\ (maxY r = maxY b \/ exists i, In i idxs /\ maxY r = py (pt pts i)).
Proof.
  induction idxs as [|j idxs IH]; intros b; simpl.
  - repeat split; left; reflexivity.
  - destruct (IH (boundsStep pts b j)) as (H1 & H2 & H3 & H4). simpl in H1, H2, H3, H4.
    repeat split.
    + destruct H1 as [-> | (i & Hi & ->)]; [|right; exists i; split; [right|]; auto].
      unfold Rmin. destruct (Rle_dec _ _);
        [left; reflexivity | right; exists j; split; [left|]; reflexivity].
    + destruct H2 as [-> | (i & Hi & ->)]; [|right; exists i; split; [right|]; auto].
      unfold Rmax. destruct (Rle_dec _ _);
        [right; exists j; split; [left|]; reflexivity | left; reflexivity].
    + destruct H3 as [-> | (i & Hi & ->)]; [|right; exists i; split; [right|]; auto].
      unfold Rmin. destruct (Rle_dec _ _);
        [left; reflexivity | right; exists j; split; [left|]; reflexivity].
    + destruct H4 as [-> | (i & Hi & ->)]; [|right; exists i; split; [right|]; auto].
      unfold Rmax. destruct (Rle_dec _ _);
        [right; exists j; split; [left|]; reflexivity | left; reflexivity].
Qed.

(** The bounds [build] stores are the bounding box of the points. *)
Lemma build_bounding_box (coordinates : list JsValue) (path : RiverPath) :
  build (JArray coordinates) = Ok path ->
  (forall p, In p (points path) ->
     minX (bounds path) <= px p <= maxX (bounds path)
     /\ minY (bounds path) <= py p <= maxY (bounds path))
  /\ (exists p, In p (points path) /\ px p = minX (bounds path))
  /\ (exists p, In p (points path) /\ px p = maxX (bounds path))
  /\ (exists p, In p (points path) /\ py p = minY (bounds path))
  /\ (exists p, In p (points path) /\ py p = maxY (bounds path)).
Proof.
  intros Hb. destruct (build_Ok_inv _ _ Hb) as [Hlen Hwf].
  rewrite build_Ok in Hb by assumption. injection Hb as <-. simpl.
  set (pts := map coordPoint coordinates).
  assert (3 <= length pts)%nat as Hn by (unfold pts; rewrite length_map; exact Hlen).
  assert (forall i, (i < length pts)%nat -> In (pt pts i) pts) as Hin
    by (intros i Hi; apply nth_In; exact Hi).
  unfold boundsOf.
  change (fun b i => mkBounds (Rmin (minX b) (px (pt pts i)))
                              (Rmax (maxX b) (px (pt pts i)))
                              (Rmin (minY b) (py (pt pts i)))
                              (Rmax (maxY b) (py (pt pts i))))
    with (boundsStep pts).
  set (b0 := mkBounds (px (pt pts 0)) (px (pt pts 0)) (py (pt pts 0)) (py (pt pts 0))).
  pose proof (boundsLoop_encloses pts (range_excl 1 (length pts)) b0) as Henc.
  pose proof (boundsLoop_attained pts (range_excl 1 (length pts)) b0) as Hatt.
  cbv zeta in Henc, Hatt.
  set (r := foldl (boundsStep pts) b0 (range_excl 1 (length pts))) in *.
  destruct Henc as ((H1 & H2 & H3 & H4) & Hall). simpl in H1, H2, H3, H4.
  destruct Hatt as (A1 & A2 & A3 & A4). simpl in A1, A2, A3, A4.
  split.
  - intros p Hp. apply (In_nth _ _ origin) in Hp. destruct Hp as (i & Hi & <-).
    fold (pt pts i). destruct i as [|i].
    + lra.
    + apply Hall. apply in_range_excl. lia.
  - assert (forall i, In i (range_excl 1 (length pts)) -> In (pt pts i) pts) as Hin'
      by (intros i Hi; apply in_range_excl in Hi; apply Hin; lia).
    assert (In (pt pts 0) pts) as H0 by (apply Hin; lia).
    repeat split.
    + destruct A1 as [-> | (i & Hi & ->)]; eauto.
    + destruct A2 as [-> | (i & Hi & ->)]; eauto.
    + destruct A3 as [-> | (i & Hi & ->)]; eauto.
    + destruct A4 as [-> | (i & Hi & ->)]; eauto.
Qed.

(** [validate] stops at the first entry it turns down. *)
Lemma validateFrom_first (pre : list JsValue) (bad : JsValue) (post : list JsValue)
    (error : string) :
  Forall wellFormedCoord pre ->
  forall i,
    validateCoord (i + length pre) bad = Some error ->
    validateFrom i (pre ++ bad :: post) = Invalid error.
Proof.
  induction pre as [|c pre IH]; intros Hwf i Hbad; simpl.
  - simpl in Hbad. rewrite Nat.add_0_r in Hbad. rewrite Hbad. reflexivity.
  - inversion Hwf as [|? ? Hc Hpre]; subst.
    apply (validateCoord_None i) in Hc. rewrite Hc.
    apply IH; [exact Hpre|]. simpl in Hbad.
    replace (S i + length pre)%nat with (i + S (length pre))%nat by lia. exact Hbad.
Qed.

End BoundsFacts.

Import BoundsFacts.

Section ParserExtras.
Local Open Scope R_scope.

(** X1.  [parse] on a coordinate array succeeds exactly when the array has
    three or more entries and every entry is an array of two or three
    finite numbers; with fewer than three entries it returns the error
    ['River path must have at least 3 coordinate points'], whatever the
    entries are. *)
Theorem parse_accepts_exactly_wellformed
    (parsePolygon : string -> Result (list (R * R))) (coordinates : list JsValue) :
  ((exists path, parse parsePolygon (CoordinateArray coordinates) = Ok path)
   <-> (3 <= length coordinates)%nat /\ Forall wellFormedCoord coordinates)
  /\ ((length coordinates < 3)%nat ->
      parse parsePolygon (CoordinateArray coordinates)
      = Throw (Error "River path must have at least 3 coordinate points")).
Proof.
  split.
  - split.
    + intros (path & Hp). simpl in Hp. exact (build_Ok_inv _ _ Hp).
    + intros (Hlen & Hwf). simpl. rewrite build_Ok by assumption. eauto.
  - intros Hlen. simpl. unfold build, validate.
    destruct (length coordinates <? 3)%nat eqn:Hlt; [reflexivity|].
    apply Nat.ltb_ge in Hlt. lia.
Qed.

Lemma parse_accepts_exactly_wellformed_witness :
  parse (fun _ => Throw TypeError)
        (CoordinateArray [JArray [JNumber 0; JNumber 0]; JArray [JNumber 1; JNumber 1]])
  = Throw (Error "River path must have at least 3 coordinate points").
Proof.
  apply (parse_accepts_exactly_wellformed (fun _ => Throw TypeError)
           [JArray [JNumber 0; JNumber 0]; JArray [JNumber 1; JNumber 1]]).
  simpl. lia.
Defined.

(** X2.  The bounds [parse] stores are the bounding box of the points:
    every point of the path lies inside them, and each of the four sides
    is the coordinate of some point of the path. *)
Theorem parse_bounds_are_bounding_box
    (parsePolygon : string -> Result (list (R * R)))
    (data : ParseInput) (path : RiverPath) :
  parse parsePolygon data = Ok path ->
  (forall p, In p (points path) ->
     minX (bounds path) <= px p <= maxX (bounds path)
     /\ minY (bounds path) <= py p <= maxY (bounds path))
  /\ (exists p, In p (points path) /\ px p = minX (bounds path))
  /\ (exists p, In p (points path) /\ px p = maxX (bounds path))
  /\ (exists p, In p (points path) /\ py p = minY (bounds path))
  /\ (exists p, In p (points path) /\ py p = maxY (bounds path)).
Proof.
  intros Hparse. destruct (parse_Ok_build _ _ _ Hparse) as (coordinates & Hb).
  exact (build_bounding_box coordinates path Hb).
Qed.

Lemma parse_bounds_are_bounding_box_witness :
  parse (fun _ => Throw TypeError) (CoordinateArray straightCoords) = Ok straightPath
  /\ (forall p, In p (points straightPath) ->
     minX (bounds straightPath) <= px p <= maxX (bounds straightPath)
     /\ minY (bounds straightPath) <= py p <= maxY (bounds straightPath))
  /\ (exists p, In p (points straightPath) /\ px p = minX (bounds straightPath))
  /\ (exists p, In p (points straightPath) /\ px p = maxX (bounds straightPath))
  /\ (exists p, In p (points straightPath) /\ py p = minY (bounds straightPath))
  /\ (exists p, In p (points straightPath) /\ py p = maxY (bounds straightPath)).
Proof.
  split; [exact build_straightPath|].
  apply (parse_bounds_are_bounding_box (fun _ => Throw TypeError)
           (CoordinateArray straightCoords) straightPath).
  exact build_straightPath.
Defined.

(** X3.  [parse] on a coordinate array of three or more entries one of
    which is not an array of two or three finite numbers returns the error
    of the first such entry: that it must be an array, that it must have
    2 or 3 elements, or that coordinates must be numeric, in this order of
    precedence, the first two naming the index of the entry. *)
Theorem parse_reports_first_invalid_entry
    (parsePolygon : string -> Result (list (R * R)))
    (pre : list JsValue) (bad : JsValue) (post : list JsValue) :
  Forall wellFormedCoord pre ->
  ~ wellFormedCoord bad ->
  (3 <= length (pre ++ bad :: post))%nat ->
  parse parsePolygon (CoordinateArray (pre ++ bad :: post))
  = Throw (Error
      match bad with
      | JArray elems =>
          if ((length elems <? 2) || (3 <? length elems))%nat
          then ("Coordinate at index " ++ showNat (length pre)
                ++ " must have 2 or 3 elements [x, y] or [x, y, width]")%string
          else "Coordinates must be numeric [x, y] or [x, y, width] arrays"%string
      | _ => ("Coordinate at index " ++ showNat (length pre) ++ " must be an array")%string
      end).
Proof.
  intros Hpre Hbad Hlen. simpl. unfold build, validate.
  destruct (length (pre ++ bad :: post) <? 3)%nat eqn:Hlt;
    [apply Nat.ltb_lt in Hlt; lia|].
  destruct (validateCoord (length pre) bad) as [error|] eqn:Hv;
    [|apply validateCoord_None in Hv; contradiction].
  rewrite (validateFrom_first pre bad post error Hpre 0 Hv). f_equal. f_equal.
  unfold validateCoord in Hv.
  destruct bad as [| | | | | | |elems]; try (injection Hv as <-; reflexivity).
  destruct ((length elems <? 2) || (3 <? length elems))%nat;
    [injection Hv as <-; reflexivity|].
  destruct (existsb notFiniteNumber elems); [injection Hv as <-; reflexivity | discriminate].
Qed.

Lemma parse_reports_first_invalid_entry_witness :
  Forall wellFormedCoord [JArray [JNumber 0; JNumber 0]]
  /\ ~ wellFormedCoord (JString "a")
  /\ (3 <= length ([JArray [JNumber 0; JNumber 0]]
                   ++ JString "a" :: [JArray [JNumber 1; JNumber 1]]))%nat
  /\ parse (fun _ => Throw TypeError)
       (CoordinateArray ([JArray [JNumber 0; JNumber 0]]
                         ++ JString "a" :: [JArray [JNumber 1; JNumber 1]]))
     = Throw (Error ("Coordinate at index "
                     ++ showNat (length [JArray [JNumber 0; JNumber 0]])
                     ++ " must be an array")%string).
Proof.
  assert (Forall wellFormedCoord [JArray [JNumber 0; JNumber 0]]) as H1
    by (repeat constructor).
  assert (~ wellFormedCoord (JString "a")) as H2 by (intros H; inversion H).
  assert (3 <= length ([JArray [JNumber 0; JNumber 0]]
                       ++ JString "a" :: [JArray [JNumber 1; JNumber 1]]))%nat as H3
    by (simpl; lia).
  split; [exact H1|]. split; [exact H2|]. split; [exact H3|].
  exact (parse_reports_first_invalid_entry (fun _ => Throw TypeError)
           [JArray [JNumber 0; JNumber 0]] (JString "a")
           [JArray [JNumber 1; JNumber 1]] H1 H2 H3).
Defined.

End ParserExtras.

(* ====================================================================== *)
(** * The WKT branch: intersections, centerline and parse *)
(* ====================================================================== *)

Module SamplingFacts.
Local Open Scope R_scope.

Lemma listMin_le (d : R) (l : list R) : listMin d l <= d.
Proof.
  unfold listMin. revert d. induction l as [|x l IH]; intros d; simpl; [lra|].
  pose proof (IH (Rmin d x)). pose proof (Rmin_l d x). lra.
Qed.

Lemma listMax_ge (d : R) (l : list R) : d <= listMax d l.
Proof.
  unfold listMax. revert d. induction l as [|x l IH]; intros d; simpl; [lra|].
  pose proof (IH (Rmax d x)). pose proof (Rmax_l d x). lra.
Qed.

(** One sample contributes at most one entry, of non-negative width. *)
Lemma sampleEntry_shape (polygonCoords : list (R * R)) (isHorizontal : bool)
    (minV extent : R) (numSamples i : nat) :
  (length (sampleEntry polygonCoords isHorizontal minV extent numSamples i) <= 1)%nat
  /\ Forall (fun entry => 0 <= entryWidth entry)
            (sampleEntry polygonCoords isHorizontal minV extent numSamples i).
Proof.
  unfold sampleEntry. cbv zeta.
  destruct (2 <=? length _)%nat; [|split; [simpl; lia | constructor]].
  destruct (map _ _) as [|v0 vs]; [split; [simpl; lia | constructor]|].
  destruct (samplePosition minV extent i numSamples) as [value|];
    [|split; [simpl; lia | constructor]].
  pose proof (listMin_le v0 vs). pose proof (listMax_ge v0 vs).
  destruct isHorizontal; (split; [simpl; lia|]);
    (constructor; [unfold entryWidth; simpl; lra | constructor]).
Qed.

Lemma flat_map_at_most_one {A B : Type} (f : A -> list B) (l : list A) :
  (forall a, (length (f a) <= 1)%nat) -> (length (flat_map f l) <= length l)%nat.
Proof.
  intros Hf. induction l as [|a l IH]; simpl; [lia|].
  rewrite length_app. specialize (Hf a). lia.
Qed.

Lemma Forall_flat_map_intro {A B : Type} (P : B -> Prop) (f : A -> list B) (l : list A) :
  (forall a, Forall P (f a)) -> Forall P (flat_map f l).
Proof.
  intros Hf. induction l as [|a l IH]; simpl; [constructor|].
  apply Forall_app. split; [apply Hf | exact IH].
Qed.

(** The sums of the smoothing window: the count is the size of the window
    and the sum of the widths is not negative when the widths are not. *)
Lemma window_sums (centerline : list (R * R * R)) (idxs : list nat) :
  Forall (fun entry => 0 <= entryWidth entry) centerline ->
  forall (sumX sumY sumW : R) (count : nat),
    0 <= sumW ->
    let '(_, _, sumW', count') :=
      foldl (fun '(sumX, sumY, sumW, count) j =>
               let '(cx, cy, cw) := nth j centerline (0, 0, 0) in
               (sumX + cx, sumY + cy, sumW + cw, S count))
            (sumX, sumY, sumW, count) idxs in
    0 <= sumW' /\ count' = (count + length idxs)%nat.
Proof.
  intros Hw. induction idxs as [|j idxs IH]; intros sumX sumY sumW count HsumW.
  - simpl. split; [exact HsumW | lia].
  - simpl. destruct (nth j centerline (0, 0, 0)) as [[cx cy] cw] eqn:Hj.
    assert (0 <= cw) as Hcw.
    { destruct (Nat.lt_ge_cases j (length centerline)) as [Hlt | Hge].
      - pose proof (proj1 (List.Forall_forall _ _) Hw _ (nth_In centerline (0, 0, 0) Hlt)) as H.
        rewrite Hj in H. exact H.
      - rewrite nth_overflow in Hj by exact Hge. injection Hj as _ _ <-. lra. }
    specialize (IH (sumX + cx) (sumY + cy) (sumW + cw) (S count) ltac:(lra)).
    destruct (foldl _ _ idxs) as [[[sx sy] sw] c]. destruct IH as [H1 H2].
    split; [exact H1 | simpl; lia].
Qed.

Lemma smoothCenterline_shape (centerline : list (R * R * R)) :
  Forall (fun entry => 0 <= entryWidth entry) centerline ->
  length (_smoothCenterline centerline) = length centerline
  /\ Forall (fun entry => 0 <= entryWidth entry) (_smoothCenterline centerline).
Proof.
  intros Hw. unfold _smoothCenterline.
  destruct (length centerline <? 3)%nat; [split; [reflexivity | exact Hw]|].
  split; [rewrite length_map, length_seq; reflexivity|].
  apply List.Forall_forall. intros entry Hin. apply in_map_iff in Hin.
  destruct Hin as (i & <- & Hi). apply in_seq in Hi.
  pose proof (window_sums centerline
                (range_excl (i - 1) (Nat.min (length centerline) (i + 2)))
                Hw 0 0 0 0%nat ltac:(lra)) as Hsum.
  destruct (foldl _ _ _) as [[[sx sy] sw] c]. destruct Hsum as [Hsw Hc].
  unfold entryWidth. simpl.
  assert (0 < c)%nat as Hpos.
  { rewrite Hc. unfold range_excl. rewrite length_seq. lia. }
  apply Rmult_le_pos; [exact Hsw|]. left. apply Rinv_0_lt_compat.
  apply lt_0_INR. exact Hpos.
Qed.

(** What [extractCenterline] returns on a ring of three or more
    vertices. *)
Lemma extractCenterline_Ok (polygonCoords : list (R * R)) :
  (3 <= length polygonCoords)%nat ->
  exists centerline,
    extractCenterline polygonCoords = Ok centerline
    /\ (length centerline <= Nat.min 100 (length polygonCoords / 2))%nat
    /\ Forall (fun entry => 0 <= entryWidth entry) centerline.
Proof.
  intros Hn. unfold extractCenterline.
  destruct (length polygonCoords <? 3)%nat eqn:Hlt; [apply Nat.ltb_lt in Hlt; lia|].
  assert (snd (samplingFrame polygonCoords) = Nat.min 100 (length polygonCoords / 2)) as Hs.
  { unfold samplingFrame. cbv zeta. destruct (Rgt_dec _ _); reflexivity. }
  destruct (samplingFrame polygonCoords) as [[[isHorizontal minV] extent] numSamples].
  simpl in Hs. subst numSamples.
  set (raw := flat_map _ _).
  assert (Forall (fun entry => 0 <= entryWidth entry) raw) as Hraw.
  { apply Forall_flat_map_intro. intros i. apply sampleEntry_shape. }
  destruct (smoothCenterline_shape raw Hraw) as [Hlen Hw].
  eexists. split; [reflexivity|]. split; [|exact Hw].
  rewrite Hlen. unfold raw.
  etransitivity; [apply flat_map_at_most_one; intros i; apply sampleEntry_shape|].
  rewrite length_seq. reflexivity.
Qed.

(** The entries of a centerline, as array values, pass [validate] one by
    one and carry a width each. *)
Lemma centerline_entries_wellFormed (centerline : list (R * R * R)) :
  Forall wellFormedCoord
    (map (fun '(cx, cy, cw) => JArray [JNumber cx; JNumber cy; JNumber cw]) centerline).
Proof.
  apply List.Forall_forall. intros v Hin. apply in_map_iff in Hin.
  destruct Hin as ([[cx cy] cw] & <- & _). constructor.
Qed.

(** [parse] on a string whose ring is read: what [build] makes of the
    centerline, or the failure of [extractCenterline]. *)
Lemma parse_wkt_unfold (parsePolygon : string -> Result (list (R * R)))
    (wkt : string) (polygonCoords : list (R * R)) :
  parsePolygon wkt = Ok polygonCoords ->
  parse parsePolygon (WKTString wkt)
  = match extractCenterline polygonCoords with
    | Throw error => Throw (Error ("WKT parsing failed: " ++ messageOf error))
    | Ok centerline => build (centerlineValue centerline)
    end.
Proof. intros Hp. unfold parse. rewrite Hp. reflexivity. Qed.

End SamplingFacts.

Module IntersectionFacts.
Local Open Scope R_scope.

(** Where a value between the two ends of an interval sits in it. *)
Lemma fraction_between (a b value : R) :
  b <> a -> (a <= value <= b) \/ (b <= value <= a) ->
  0 <= (value - a) / (b - a) <= 1.
Proof.
  intros Hne Hbetween.
  destruct (Rtotal_order a b) as [Hlt | [Heq | Hgt]]; [|congruence|].
  - assert (0 < / (b - a)) as Hinv by (apply Rinv_0_lt_compat; lra).
    split.
    + apply Rmult_le_pos; lra.
    + apply Rmult_le_reg_r with (r := b - a); [lra|].
      unfold Rdiv. rewrite Rmult_assoc, Rinv_l by lra. lra.
  - replace ((value - a) / (b - a)) with ((a - value) / (a - b)) by (field; lra).
    assert (0 < / (a - b)) as Hinv by (apply Rinv_0_lt_compat; lra).
    split.
    + apply Rmult_le_pos; lra.
    + apply Rmult_le_reg_r with (r := a - b); [lra|].
      unfold Rdiv. rewrite Rmult_assoc, Rinv_l by lra. lra.
Qed.

(** The test [(a <= value && b >= value) || (a >= value && b <= value)]
    of [_findIntersections]. *)
Lemma between_test (a b value : R) :
  (if Rle_dec a value then (if Rge_dec b value then true else false) else false)
  || (if Rge_dec a value then (if Rle_dec b value then true else false) else false)
  = true ->
  (a <= value <= b) \/ (b <= value <= a).
Proof.
  destruct (Rle_dec a value); destruct (Rge_dec b value);
    destruct (Rge_dec a value); destruct (Rle_dec b value); simpl;
    intros H; try discriminate; lra.
Qed.

(** The crossing of one edge, if any, lies on the sampling line and on
    the edge. *)
Lemma edgeIntersection_spec (p1 p2 : R * R) (value : R) (direction : Direction)
    (p : Point) :
  In p (edgeIntersection p1 p2 value direction) ->
  onLine direction value p
  /\ exists t, 0 <= t <= 1
       /\ px p = fst p1 + t * (fst p2 - fst p1)
       /\ py p = snd p1 + t * (snd p2 - snd p1).
Proof.
  unfold edgeIntersection. destruct direction.
  - destruct (_ || _) eqn:Htest; [|intros []]. apply between_test in Htest.
    destruct (Req_dec_T (fst p2) (fst p1)) as [Heq | Hne]; [intros []|].
    intros [<- | []]. simpl. split; [reflexivity|].
    exists ((value - fst p1) / (fst p2 - fst p1)).
    split; [apply fraction_between; assumption|]. split; [field; lra | reflexivity].
  - destruct (_ || _) eqn:Htest; [|intros []]. apply between_test in Htest.
    destruct (Req_dec_T (snd p2) (snd p1)) as [Heq | Hne]; [intros []|].
    intros [<- | []]. simpl. split; [reflexivity|].
    exists ((value - snd p1) / (snd p2 - snd p1)).
    split; [apply fraction_between; assumption|]. split; [reflexivity | field; lra].
Qed.

Lemma edgeIntersection_at_most_one (p1 p2 : R * R) (value : R) (direction : Direction) :
  (length (edgeIntersection p1 p2 value direction) <= 1)%nat.
Proof.
  unfold edgeIntersection. destruct direction;
    destruct (_ || _); simpl; try lia; destruct (Req_dec_T _ _); simpl; lia.
Qed.

End IntersectionFacts.

Module BandFacts.
Local Open Scope R_scope.

Lemma edge_cross_up (p1 p2 : R * R) (value y : R) :
  fst p1 <= value <= fst p2 -> fst p1 <> fst p2 ->
  y = snd p1 + (value - fst p1) / (fst p2 - fst p1) * (snd p2 - snd p1) ->
  edgeIntersection p1 p2 value vertical = [mkPoint value y].
Proof.
  intros [H1 H2] Hne ->. unfold edgeIntersection.
  destruct (Rle_dec (fst p1) value); [|lra].
  destruct (Rge_dec (fst p2) value); [|lra]. simpl.
  destruct (Req_dec_T (fst p2) (fst p1)); [congruence | reflexivity].
Qed.

Lemma edge_cross_down (p1 p2 : R * R) (value y : R) :
  fst p2 <= value <= fst p1 -> fst p1 <> fst p2 ->
  y = snd p1 + (value - fst p1) / (fst p2 - fst p1) * (snd p2 - snd p1) ->
  edgeIntersection p1 p2 value vertical = [mkPoint value y].
Proof.
  intros [H1 H2] Hne ->. unfold edgeIntersection.
  destruct (Rge_dec (fst p1) value); [|lra].
  destruct (Rle_dec (fst p2) value); [|lra]. rewrite orb_true_r.
  destruct (Req_dec_T (fst p2) (fst p1)); [congruence | reflexivity].
Qed.

Lemma edge_miss (p1 p2 : R * R) (value : R) :
  (value < fst p1 /\ value < fst p2) \/ (fst p1 < value /\ fst p2 < value)
  \/ fst p1 = fst p2 ->
  edgeIntersection p1 p2 value vertical = [].
Proof.
  intros H. unfold edgeIntersection.
  destruct (Req_dec_T (fst p2) (fst p1)) as [Heq | Hne].
  - destruct (_ || _); reflexivity.
  - destruct (Rle_dec (fst p1) value); destruct (Rge_dec (fst p2) value);
      destruct (Rge_dec (fst p1) value); destruct (Rle_dec (fst p2) value);
      simpl; try reflexivity; exfalso; destruct H as [H | [H | H]]; try lra; congruence.
Qed.

Local Arguments edgeIntersection : simpl never.
Local Arguments sampleEntry : simpl never.

Ltac minmax :=
  unfold listMin, listMax; simpl;
  repeat match goal with
         | |- context [Rmin ?a ?b] =>
             first [ rewrite (Rmin_left a b) by lra | rewrite (Rmin_right a b) by lra ]
         | |- context [Rmax ?a ?b] =>
             first [ rewrite (Rmax_left a b) by lra | rewrite (Rmax_right a b) by lra ]
         end.

Ltac cross_up y := rewrite (edge_cross_up _ _ _ y) by (simpl; first [lra | field; lra]).
Ltac cross_down y := rewrite (edge_cross_down _ _ _ y) by (simpl; first [lra | field; lra]).
Ltac miss := rewrite edge_miss by (simpl; first [left; lra | right; left; lra | right; right; lra]).

Lemma samplingFrame_bandRing : samplingFrame bandRing = (true, 0, 40, 3%nat).
Proof.
  unfold samplingFrame. cbv zeta. simpl map. simpl hd. minmax.
  destruct (Rgt_dec (40 - 0) (4 - 0)) as [_ | H]; [|lra].
  simpl. repeat f_equal. lra.
Qed.

Lemma sample_bandRing_0 : sampleEntry bandRing true 0 40 3 0 = [(0, 2, 4)].
Proof.
  unfold sampleEntry, sampleIntersections, samplePosition, _findIntersections. simpl.
  replace (0 + 40 * 0 / (1 + 1)) with 0 by lra.
  cross_up 0. miss. miss. miss. cross_down 4. miss.
  simpl. minmax. repeat f_equal; lra.
Qed.

Lemma sample_bandRing_1 : sampleEntry bandRing true 0 40 3 1 = [(20, 2, 4)].
Proof.
  unfold sampleEntry, sampleIntersections, samplePosition, _findIntersections. simpl.
  replace (0 + 40 * 1 / (1 + 1)) with 20 by lra.
  cross_up 0. cross_up 0. miss. cross_down 4. cross_down 4. miss.
  simpl. minmax. repeat f_equal; lra.
Qed.

Lemma sample_bandRing_2 : sampleEntry bandRing true 0 40 3 2 = [(40, 2, 4)].
Proof.
  unfold sampleEntry, sampleIntersections, samplePosition, _findIntersections. simpl.
  replace (0 + 40 * (1 + 1) / (1 + 1)) with 40 by lra.
  miss. cross_up 0. miss. cross_down 4. miss. miss.
  simpl. minmax. repeat f_equal; lra.
Qed.

Lemma extractCenterline_bandRing :
  extractCenterline bandRing = Ok [(10, 2, 4); (20, 2, 4); (30, 2, 4)].
Proof.
  unfold extractCenterline. rewrite samplingFrame_bandRing. simpl.
  rewrite sample_bandRing_0, sample_bandRing_1, sample_bandRing_2. simpl.
  unfold _smoothCenterline. simpl. repeat f_equal; lra.
Qed.

Lemma parse_bandRing (wkt : string) :
  parse (fun _ => Ok bandRing) (WKTString wkt) = Ok bandPath.
Proof.
  unfold parse. rewrite extractCenterline_bandRing.
  unfold build, bandPath. simpl.
  unfold totalLengthOf, boundsOf. simpl.
  eval_sqrt. unfold Rmin, Rmax. Rdecide.
  do 2 f_equal. lra.
Qed.

End BandFacts.

Import SamplingFacts IntersectionFacts BandFacts.

Section CenterlineExtras.

Local Open Scope R_scope.

(** X4.  The intersections [_findIntersections] returns lie on the
    sampling line and on an edge of the ring, between its two ends; there
    is at most one per edge, and none for a sample position that is not a
    number. *)
Theorem findIntersections_on_ring (polygonCoords : list (R * R)) (value : R)
    (direction : Direction) :
  (forall p, In p (_findIntersections polygonCoords (Some value) direction) ->
     onLine direction value p
     /\ exists i t, (i < length polygonCoords)%nat /\ 0 <= t <= 1
          /\ p = onEdge polygonCoords i t)
  /\ (length (_findIntersections polygonCoords (Some value) direction)
      <= length polygonCoords)%nat
  /\ _findIntersections polygonCoords None direction = [].
Proof.
  split; [|split; [|reflexivity]].
  - intros p Hin. unfold _findIntersections in Hin. cbv zeta in Hin.
    apply in_flat_map in Hin. destruct Hin as (i & Hi & Hin). apply in_seq in Hi.
    apply edgeIntersection_spec in Hin. destruct Hin as (Hline & t & Ht & Hx & Hy).
    split; [exact Hline|]. exists i, t. split; [lia|]. split; [exact Ht|].
    unfold onEdge. cbv zeta. destruct p as [x y]. simpl in Hx, Hy. rewrite Hx, Hy.
    reflexivity.
  - unfold _findIntersections. cbv zeta.
    etransitivity; [apply flat_map_at_most_one; intros i; apply edgeIntersection_at_most_one|].
    rewrite length_seq. reflexivity.
Qed.

(** X5.  On a ring of three or more vertices [extractCenterline] returns
    a centerline of at most [min(100, floor(n / 2))] entries, the number
    of sample positions, and every entry has a width that is not
    negative. *)
Theorem extractCenterline_size_and_widths (polygonCoords : list (R * R)) :
  (3 <= length polygonCoords)%nat ->
  exists centerline,
    extractCenterline polygonCoords = Ok centerline
    /\ (length centerline <= 100)%nat
    /\ (2 * length centerline <= length polygonCoords)%nat
    /\ Forall (fun entry => 0 <= entryWidth entry) centerline.
Proof.
  intros Hn. destruct (extractCenterline_Ok polygonCoords Hn) as (cl & Hex & Hlen & Hw).
  exists cl. split; [exact Hex|].
  pose proof (Nat.Div0.mul_div_le (length polygonCoords) 2) as Hdiv.
  split; [lia|]. split; [lia | exact Hw].
Qed.

(** X6.  [parse] on a WKT string from which [parsePolygon] has read the
    coordinate pairs of the ring.  Fewer than three pairs are turned down
    by [parsePolygon] itself, three to five by [validate] (such a ring is
    sampled at two positions at most, and a path needs three points).
    When [parse] returns a path, the path has one point per centerline
    entry, at most 100 and at most half as many as the ring has vertices,
    and a width that is not negative for every point. *)
Theorem parse_wkt_results
    (readPairs : string -> Result (list (R * R))) (wkt : string)
    (coordinates : list (R * R)) :
  readPairs wkt = Ok coordinates ->
  ((length coordinates < 3)%nat ->
   parse (WKTPolygon.parsePolygon readPairs) (WKTString wkt)
   = Throw (Error "WKT parsing failed: POLYGON must have at least 3 coordinates"))
  /\ ((3 <= length coordinates < 6)%nat ->
      parse (WKTPolygon.parsePolygon readPairs) (WKTString wkt)
      = Throw (Error "River path must have at least 3 coordinate points"))
  /\ (forall path,
        parse (WKTPolygon.parsePolygon readPairs) (WKTString wkt) = Ok path ->
        exists centerline,
          extractCenterline coordinates = Ok centerline
          /\ points path = map entryPoint centerline
          /\ widths path = Some (map (fun entry => Some (entryWidth entry)) centerline)
          /\ Forall (fun entry => 0 <= entryWidth entry) centerline
          /\ (3 <= length (points path) <= 100)%nat
          /\ (2 * length (points path) <= length coordinates)%nat).
Proof.
  intros Hp.
  destruct (Nat.lt_ge_cases (length coordinates) 3) as [Hlt | Hge].
  - assert (WKTPolygon.parsePolygon readPairs wkt
            = Throw (Error "POLYGON must have at least 3 coordinates")) as Hthrow.
    { unfold WKTPolygon.parsePolygon. rewrite Hp.
      assert ((length coordinates <? 3)%nat = true) as -> by (apply Nat.ltb_lt; exact Hlt).
      reflexivity. }
    split; [|split].
    + intros _. simpl. rewrite Hthrow. reflexivity.
    + intros [Hlo _]. lia.
    + intros path Hb. simpl in Hb. rewrite Hthrow in Hb. discriminate.
  - assert (WKTPolygon.parsePolygon readPairs wkt = Ok coordinates) as Hok.
    { unfold WKTPolygon.parsePolygon. rewrite Hp.
      assert ((length coordinates <? 3)%nat = false) as -> by (apply Nat.ltb_ge; exact Hge).
      reflexivity. }
    rewrite (parse_wkt_unfold _ wkt coordinates Hok).
    destruct (extractCenterline_Ok coordinates Hge) as (cl & Hex & Hlen & Hw).
    split; [intros Hlt; lia|]. split.
    + intros [_ Hhi]. rewrite Hex.
      assert (length coordinates / 2 < 3)%nat as Hdiv.
      { apply Nat.Div0.div_lt_upper_bound. lia. }
      unfold build, centerlineValue, validate. rewrite length_map.
      assert ((length cl <? 3)%nat = true) as -> by (apply Nat.ltb_lt; lia).
      reflexivity.
    + intros path Hb. rewrite Hex in Hb. exists cl. split; [exact Hex|].
      unfold centerlineValue in Hb.
      destruct (parse_points_and_aligned_widths _ _ Hb) as (Hpts & Hn & Hws).
      destruct (build_Ok_inv _ _ Hb) as [H3 _].
      rewrite length_map in Hn, H3.
      assert (points path = map entryPoint cl) as Hpoints.
      { rewrite Hpts, map_map. apply map_ext. intros [[cx cy] cw]. reflexivity. }
      assert (widths path = Some (map (fun entry => Some (entryWidth entry)) cl)) as Hwidths.
      { destruct cl as [|[[cx cy] cw] rest] eqn:Hcl; [simpl in H3; lia|].
        rewrite (Hws _ _ eq_refl) by (simpl; discriminate).
        f_equal. rewrite map_map. apply map_ext. intros [[cx' cy'] cw']. reflexivity. }
      split; [exact Hpoints|]. split; [exact Hwidths|]. split; [exact Hw|].
      pose proof (Nat.Div0.mul_div_le (length coordinates) 2) as Hdiv.
      split; lia.
Qed.

Lemma extractCenterline_size_and_widths_witness :
  (3 <= length bandRing)%nat
  /\ exists centerline,
       extractCenterline bandRing = Ok centerline
       /\ (length centerline <= 100)%nat
       /\ (2 * length centerline <= length bandRing)%nat
       /\ Forall (fun entry => 0 <= entryWidth entry) centerline.
Proof.
  assert (3 <= length bandRing)%nat as H by (simpl; lia).
  split; [exact H|].
  exact (extractCenterline_size_and_widths bandRing H).
Defined.

Lemma parse_wkt_results_witness :
  (fun _ : string => Ok bandRing) "POLYGON((0 0, 20 0, 40 0, 40 4, 20 4, 0 4))"%string
  = (Ok bandRing : Result (list (R * R)))
  /\ parse (WKTPolygon.parsePolygon (fun _ => Ok bandRing))
        (WKTString "POLYGON((0 0, 20 0, 40 0, 40 4, 20 4, 0 4))") = Ok bandPath
  /\ exists centerline,
       extractCenterline bandRing = Ok centerline
       /\ points bandPath = map entryPoint centerline
       /\ widths bandPath = Some (map (fun entry => Some (entryWidth entry)) centerline)
       /\ Forall (fun entry => 0 <= entryWidth entry) centerline
       /\ (3 <= length (points bandPath) <= 100)%nat
       /\ (2 * length (points bandPath) <= length bandRing)%nat.
Proof.
  assert (parse (WKTPolygon.parsePolygon (fun _ => Ok bandRing))
            (WKTString "POLYGON((0 0, 20 0, 40 0, 40 4, 20 4, 0 4))") = Ok bandPath) as Hparse.
  { rewrite (parse_wkt_unfold _ _ bandRing eq_refl).
    rewrite <- (parse_wkt_unfold (fun _ => Ok bandRing)
                  "POLYGON((0 0, 20 0, 40 0, 40 4, 20 4, 0 4))" bandRing eq_refl).
    apply parse_bandRing. }
  split; [reflexivity|]. split; [exact Hparse|].
  destruct (parse_wkt_results (fun _ => Ok bandRing)
              "POLYGON((0 0, 20 0, 40 0, 40 4, 20 4, 0 4))"%string bandRing eq_refl)
    as (_ & _ & H).
  exact (H bandPath Hparse).
Defined.

End CenterlineExtras.

(* ====================================================================== *)
(** * The analyzer: curvature profile and rejected regions *)
(* ====================================================================== *)

Module RegionFacts.

Section ScanOrder.

Variables (path : RiverPath) (reason : Reason) (test : nat -> bool) (total : nat).

(** Where the segments pushed from a state of the scanner start: at the
    open run's start, or at the next index to scan or later. *)
Lemma scanRuns_starts (len : nat) :
  forall (k : nat) (inRun : bool) (startIdx : nat) (seg : Segment),
    (inRun = true -> startIdx < k) ->
    In seg (scanRuns path reason test total inRun startIdx (seq k len)) ->
    (if inRun then startIdx else k) <= seg_startIdx seg.
Proof.
  induction len as [|len IH]; intros k inRun startIdx seg Hinv Hin; simpl in Hin.
  - destruct inRun; [|destruct Hin]. destruct Hin as [<- | []]. simpl. lia.
  - destruct (test k).
    + destruct inRun.
      * apply (IH (S k) true startIdx seg) in Hin; [exact Hin|]. intros _.
        specialize (Hinv eq_refl). lia.
      * apply (IH (S k) true k seg) in Hin; [exact Hin | intros _; lia].
    + destruct inRun.
      * destruct Hin as [<- | Hin]; [simpl; lia|].
        apply (IH (S k) false startIdx seg) in Hin; [|discriminate].
        specialize (Hinv eq_refl). simpl in Hin. lia.
      * apply (IH (S k) false startIdx seg) in Hin; [|discriminate].
        simpl in Hin. lia.
Qed.

Lemma scanRuns_separated (len : nat) :
  forall (k : nat) (inRun : bool) (startIdx : nat),
    (inRun = true -> startIdx < k) ->
    separated (scanRuns path reason test total inRun startIdx (seq k len)).
Proof.
  unfold separated.
  induction len as [|len IH]; intros k inRun startIdx Hinv; simpl.
  - destruct inRun; [|constructor]. constructor; [constructor | constructor].
  - destruct (test k).
    + destruct inRun; apply IH; intros _; [specialize (Hinv eq_refl)|]; lia.
    + destruct inRun; [|apply IH; discriminate].
      constructor; [|apply IH; discriminate].
      apply List.Forall_forall. intros seg Hin.
      apply scanRuns_starts in Hin; [|discriminate]. simpl in *.
      specialize (Hinv eq_refl). lia.
Qed.

(** When no index passes the test the scanner pushes nothing. *)
Lemma scanRuns_none (len : nat) :
  (forall j, test j = false) ->
  scanRuns path reason test (0 + len) false 0 (seq 0 len) = [].
Proof.
  intros Hnone.
  destruct (scanRuns path reason test (0 + len) false 0 (seq 0 len)) as [|seg l] eqn:Hs;
    [reflexivity|].
  exfalso.
  assert (In seg (scanRuns path reason test (0 + len) false 0 (seq 0 len))) as Hin
    by (rewrite Hs; left; reflexivity).
  apply scanRuns_sound in Hin; [|reflexivity | discriminate].
  destruct Hin as (Hr & _ & Ht).
  specialize (Ht (seg_startIdx seg)). rewrite Hnone in Ht.
  assert (covers seg (seg_startIdx seg)) as Hc by (unfold covers; lia).
  specialize (Ht Hc). discriminate.
Qed.

End ScanOrder.

Local Open Scope R_scope.

Lemma nth_calculateCurvature (path : RiverPath) (i : nat) :
  (3 <= length (points path))%nat -> (i < length (points path))%nat ->
  nth i (calculateCurvature path) 0
  = smoothedAt (rawCurvatures (points path)) (length (points path)) i.
Proof.
  intros Hn Hi. unfold calculateCurvature.
  destruct (length (points path) <? 3)%nat eqn:Hlt; [apply Nat.ltb_lt in Hlt; lia|].
  apply nth_map_seq. exact Hi.
Qed.

Lemma calculateCurvature_ends (path : RiverPath) :
  (3 <= length (points path))%nat ->
  nth 0 (calculateCurvature path) 0 = 0
  /\ nth (length (points path) - 1) (calculateCurvature path) 0 = 0.
Proof.
  intros Hn. rewrite !nth_calculateCurvature by lia. unfold smoothedAt. split.
  - reflexivity.
  - rewrite Nat.eqb_refl, orb_true_r. reflexivity.
Qed.

End RegionFacts.

Import RegionFacts.

Section AnalyzerExtras.
Local Open Scope R_scope.

(** X7.  The curvature profile of a path with fewer than 3 points is
    empty; with 3 or more points it has one value per point, the first and
    the last value are exactly 0, and no value is negative. *)
Theorem calculateCurvature_profile (path : RiverPath) :
  ((length (points path) < 3)%nat -> calculateCurvature path = [])
  /\ ((3 <= length (points path))%nat ->
      length (calculateCurvature path) = length (points path)
      /\ nth 0 (calculateCurvature path) 0 = 0
      /\ nth (length (points path) - 1) (calculateCurvature path) 0 = 0)
  /\ (forall i, 0 <= nth i (calculateCurvature path) 0).
Proof.
  split; [|split].
  - intros Hn. unfold calculateCurvature.
    destruct (length (points path) <? 3)%nat eqn:Hlt; [reflexivity|].
    apply Nat.ltb_ge in Hlt. lia.
  - intros Hn. split; [apply calculateCurvature_length; exact Hn|].
    apply calculateCurvature_ends. exact Hn.
  - apply calculateCurvature_nonneg.
Qed.

Lemma calculateCurvature_profile_witness :
  length (calculateCurvature rightAnglePath) = 3%nat
  /\ nth 0 (calculateCurvature rightAnglePath) 0 = 0
  /\ nth 2 (calculateCurvature rightAnglePath) 0 = 0.
Proof.
  destruct (calculateCurvature_profile rightAnglePath) as (_ & H & _).
  apply H. simpl. lia.
Defined.

(** X9.  With 3 or more points, an index is covered by a sharp-curve
    region exactly when its smoothed curvature exceeds the threshold;
    every region lies inside the path and is tagged as a sharp curve, the
    regions come in increasing order with at least one index at or below
    the threshold between two of them, and for a threshold that is not
    negative no region covers the first or the last point. *)
Theorem findSharpCurves_regions (path : RiverPath) (threshold : R) :
  (3 <= length (points path))%nat ->
  (forall i,
     (exists seg, In seg (findSharpCurves path threshold) /\ covers seg i)
     <-> (i < length (points path))%nat
         /\ threshold < nth i (calculateCurvature path) 0)
  /\ (forall seg, In seg (findSharpCurves path threshold) ->
        (seg_startIdx seg <= seg_endIdx seg < length (points path))%nat
        /\ seg_reason seg = Some SharpCurve)
  /\ separated (findSharpCurves path threshold)
  /\ (0 <= threshold ->
      forall seg, In seg (findSharpCurves path threshold) ->
        ~ covers seg 0 /\ ~ covers seg (length (points path) - 1)).
Proof.
  intros Hn.
  pose proof (calculateCurvature_length path Hn) as Hlen.
  unfold findSharpCurves.
  destruct (length (points path) <? 3)%nat eqn:Hlt; [apply Nat.ltb_lt in Hlt; lia|].
  set (test := fun i => if Rgt_dec (nth i (calculateCurvature path) 0) threshold
                        then true else false).
  assert (forall i, test i = true <-> threshold < nth i (calculateCurvature path) 0) as Htest.
  { intros i. unfold test. destruct (Rgt_dec _ threshold) as [H | H].
    - split; [intros _; lra | reflexivity].
    - split; [discriminate | intros H'; exfalso; apply H; lra]. }
  assert (forall seg,
            In seg (scanRuns path SharpCurve test (length (calculateCurvature path))
                      false 0 (seq 0 (length (calculateCurvature path)))) ->
            (seg_startIdx seg <= seg_endIdx seg < length (calculateCurvature path))%nat
            /\ seg_reason seg = Some SharpCurve
            /\ forall j, covers seg j -> test j = true) as Hsound.
  { intros seg Hin. apply scanRuns_sound in Hin; [exact Hin | reflexivity | discriminate]. }
  split; [|split; [|split]].
  - intros i. split.
    + intros (seg & Hin & Hc). destruct (Hsound seg Hin) as (Hr & _ & Ht).
      split; [unfold covers in Hc; lia | apply Htest, Ht, Hc].
    + intros (Hi & Hgt).
      apply scanRuns_cover; [reflexivity | discriminate | apply Htest; exact Hgt | left; lia].
  - intros seg Hin. destruct (Hsound seg Hin) as (Hr & Hreason & _).
    split; [lia | exact Hreason].
  - apply scanRuns_separated. discriminate.
  - intros Ht seg Hin. destruct (Hsound seg Hin) as (_ & _ & Hcov).
    destruct (calculateCurvature_ends path Hn) as (H0 & Hlast).
    split; intros Hc; apply Hcov, Htest in Hc; lra.
Qed.

Lemma findSharpCurves_regions_witness :
  exists seg, In seg (findSharpCurves rightAnglePath 3) /\ covers seg 1.
Proof.
  destruct (findSharpCurves_regions rightAnglePath 3) as (Hiff & _).
  - simpl. lia.
  - apply Hiff. split; [simpl; lia|].
    rewrite rightAngle_curvature_profile. simpl. lra.
Defined.

(** X10.  Without width data (no array, or an empty one)
    [findNarrowSections] returns no region.  With width data, an index is
    covered by a narrow-section region exactly when it is a slot of
    [widths] whose entry, read as a number ([null] as 0), is below the
    minimum; every region lies inside [widths] and is tagged as a narrow
    section, and the regions come in increasing order with at least one
    slot that is not below the minimum between two of them. *)
Theorem findNarrowSections_regions (path : RiverPath) (minWidth : R) :
  (widths path = None \/ widths path = Some [] -> findNarrowSections path minWidth = [])
  /\ (forall ws, widths path = Some ws ->
      (forall i,
         (exists seg, In seg (findNarrowSections path minWidth) /\ covers seg i)
         <-> (i < length ws)%nat /\ toNumber (nth i ws None) < minWidth)
      /\ (forall seg, In seg (findNarrowSections path minWidth) ->
            (seg_startIdx seg <= seg_endIdx seg < length ws)%nat
            /\ seg_reason seg = Some NarrowSection))
  /\ separated (findNarrowSections path minWidth).
Proof.
  split; [|split].
  - intros [Hw | Hw]; unfold findNarrowSections; rewrite Hw; reflexivity.
  - intros ws Hw. split.
    + intros i. split.
      * intros (seg & Hin & Hc).
        destruct (findNarrowSections_sound _ _ _ Hin) as (ws' & Hw' & _ & Hcov).
        assert (ws' = ws) as -> by congruence. apply Hcov. exact Hc.
      * intros (Hi & Hlt). apply (findNarrowSections_cover path minWidth ws); assumption.
    + intros seg Hin.
      destruct (findNarrowSections_sound _ _ _ Hin) as (ws' & Hw' & Hreason & Hcov).
      assert (ws' = ws) as -> by congruence.
      split; [|exact Hreason].
      unfold findNarrowSections in Hin. rewrite Hw in Hin.
      destruct ws as [|w ws]; [destruct Hin|].
      apply scanRuns_sound in Hin; [|reflexivity | discriminate]. tauto.
  - unfold findNarrowSections.
    destruct (widths path) as [[|w ws]|]; try constructor.
    apply scanRuns_separated. discriminate.
Qed.

Lemma findNarrowSections_regions_witness :
  (forall i,
     (exists seg, In seg (findNarrowSections lateWidthPath 10) /\ covers seg i)
     <-> (i < 4)%nat
         /\ toNumber (nth i [Some (-5); Some 20; Some 20; Some 20] None) < 10)
  /\ (forall seg, In seg (findNarrowSections lateWidthPath 10) ->
        (seg_startIdx seg <= seg_endIdx seg < 4)%nat
        /\ seg_reason seg = Some NarrowSection).
Proof.
  destruct (findNarrowSections_regions lateWidthPath 10) as (_ & H & _).
  exact (H [Some (-5); Some 20; Some 20; Some 20] eq_refl).
Defined.

End AnalyzerExtras.

(* ====================================================================== *)
(** * The analyzer: edge regions *)
(* ====================================================================== *)

Module EdgeFacts.
Local Open Scope R_scope.

Lemma distance_sym (p q : Point) : distance p q = distance q p.
Proof. unfold distance. f_equal. ring. Qed.

Lemma segmentLength_cons (path : RiverPath) (a c : nat) :
  (a < c)%nat ->
  segmentLength path a c
  = distance (pt (points path) a) (pt (points path) (a + 1))
    + segmentLength path (a + 1) c.
Proof.
  intros Hac. rewrite (segmentLength_split path a (a + 1) c) by lia.
  replace (a + 1)%nat with (S a) at 1 by lia.
  rewrite segmentLength_snoc, segmentLength_empty by lia. lra.
Qed.

(** The first loop of [getEdgeSections], started at index [k] with the
    length of the path up to [k]: it stops on the first index whose prefix
    reaches the threshold, and returns 0 when none does. *)
Lemma edgeScanForward_spec (path : RiverPath) (threshold : R) (len : nat) :
  forall (k : nat) (acc : R),
    acc = segmentLength path 0 k ->
    let r := edgeScanForward (points path) threshold acc (seq k len) in
    ((r = 0)%nat /\ forall j, (k < j <= k + len)%nat -> segmentLength path 0 j < threshold)
    \/ ((k < r <= k + len)%nat
        /\ threshold <= segmentLength path 0 r
        /\ forall j, (k < j < r)%nat -> segmentLength path 0 j < threshold).
Proof.
  induction len as [|len IH]; intros k acc Hacc; simpl.
  - left. split; [reflexivity | intros j Hj; lia].
  - assert (acc + distance (pt (points path) k) (pt (points path) (k + 1))
            = segmentLength path 0 (S k)) as Hstep.
    { rewrite segmentLength_snoc by lia. rewrite Hacc. reflexivity. }
    rewrite Hstep.
    destruct (Rge_dec (segmentLength path 0 (S k)) threshold) as [Hge | Hlt].
    + right. replace (k + 1)%nat with (S k) by lia.
      split; [lia|]. split; [lra | intros j Hj; lia].
    + specialize (IH (S k) (segmentLength path 0 (S k)) eq_refl). cbv zeta in IH.
      destruct IH as [(Hr & Hall) | (Hr & Hreach & Hmin)].
      * left. split; [exact Hr|]. intros j Hj.
        destruct (decide (j = S k)) as [-> | Hne]; [lra | apply Hall; lia].
      * right. split; [lia|]. split; [exact Hreach|]. intros j Hj.
        destruct (decide (j = S k)) as [-> | Hne]; [lra | apply Hmin; lia].
Qed.

(** The second loop of [getEdgeSections], about to visit index [m] with
    the length of the path from [m] to its end: it stops on the last index
    whose suffix reaches the threshold, and returns its default when none
    does. *)
Lemma edgeScanBackward_spec (path : RiverPath) (threshold : R) (dflt : nat) :
  let n := length (points path) in
  forall (m : nat) (acc : R),
    (m <= n - 1)%nat ->
    acc = segmentLength path m (n - 1) ->
    let r := edgeScanBackward (points path) threshold acc dflt (rev (seq 1 m)) in
    (r = dflt /\ forall j, (j < m)%nat -> segmentLength path j (n - 1) < threshold)
    \/ ((r < m)%nat
        /\ threshold <= segmentLength path r (n - 1)
        /\ forall j, (r < j < m)%nat -> segmentLength path j (n - 1) < threshold).
Proof.
  intros n. induction m as [|m IH]; intros acc Hm Hacc.
  - left. split; [reflexivity | intros j Hj; lia].
  - rewrite seq_S, rev_app_distr. simpl rev. simpl app.
    replace (1 + m)%nat with (S m) by lia. simpl edgeScanBackward.
    replace (m - 0)%nat with m by lia.
    assert (acc + distance (pt (points path) (S m)) (pt (points path) m)
            = segmentLength path m (n - 1)) as Hstep.
    { rewrite (segmentLength_cons path m (n - 1)) by lia.
      replace (m + 1)%nat with (S m) by lia.
      rewrite (distance_sym (pt (points path) (S m))), Hacc. lra. }
    rewrite Hstep.
    destruct (Rge_dec (segmentLength path m (n - 1)) threshold) as [Hge | Hlt].
    + right. split; [lia|]. split; [lra | intros j Hj; lia].
    + specialize (IH (segmentLength path m (n - 1))). 
      destruct IH as [(Hr & Hall) | (Hr & Hreach & Hmin)]; [lia | reflexivity | |].
      * left. split; [exact Hr|]. intros j Hj.
        destruct (decide (j = m)) as [-> | Hne]; [lra | apply Hall; lia].
      * right. split; [lia|]. split; [exact Hreach|]. intros j Hj.
        destruct (decide (j = m)) as [-> | Hne]; [lra | apply Hmin; lia].
Qed.

(** The two edge regions of a path with two or more points: the first one
    runs from index 0 to an index that is at least 1, the second one from
    an index that is at most [n - 2] to the last index. *)
Lemma getEdgeSections_shape (path : RiverPath) :
  (2 <= length (points path))%nat ->
  let es := getEdgeSections path in
  seg_startIdx (edge_start es) = 0%nat
  /\ (1 <= seg_endIdx (edge_start es) <= length (points path) - 1)%nat
  /\ (seg_startIdx (edge_end es) <= length (points path) - 2)%nat
  /\ seg_endIdx (edge_end es) = (length (points path) - 1)%nat.
Proof.
  intros Hn. unfold getEdgeSections. cbv zeta. simpl.
  set (n := length (points path)) in *.
  set (thr := path_length path * 0.1).
  pose proof (edgeScanForward_spec path thr (n - 1) 0 0) as Hf.
  rewrite segmentLength_empty in Hf. specialize (Hf eq_refl). cbv zeta in Hf.
  unfold range_excl. rewrite Nat.sub_0_r.
  set (r := edgeScanForward (points path) thr 0 (seq 0 (n - 1))) in *.
  pose proof (edgeScanBackward_spec path thr (n - 1)) as Hb. cbv zeta in Hb.
  specialize (Hb (n - 1)%nat 0). fold n in Hb.
  rewrite segmentLength_empty in Hb. specialize (Hb (Nat.le_refl _) eq_refl).
  set (b := edgeScanBackward (points path) thr 0 (n - 1) (rev (seq 1 (n - 1)))) in *.
  split; [reflexivity|]. split; [|split; [|reflexivity]].
  - destruct (Nat.eqb r 0) eqn:Hr0.
    + assert ((1 <? n)%nat = true) as -> by (apply Nat.ltb_lt; lia). simpl. lia.
    + apply Nat.eqb_neq in Hr0. simpl.
      destruct Hf as [(Hr & _) | (Hr & _)]; lia.
  - destruct (Nat.eqb b (n - 1)) eqn:Hbn.
    + assert ((1 <? n)%nat = true) as -> by (apply Nat.ltb_lt; lia). simpl. lia.
    + apply Nat.eqb_neq in Hbn. simpl.
      destruct Hb as [(Hr & _) | (Hr & _)]; lia.
Qed.

(** The rejected set of the analysis holds the first two and the last two
    indices of the path. *)
Lemma edges_rejected (path : RiverPath) (i : nat) :
  (2 <= length (points path))%nat ->
  (i <= 1 \/ length (points path) - 2 <= i <= length (points path) - 1)%nat ->
  i ∈ rejectedIndices (analyzeGeometry path).
Proof.
  intros Hn Hi. destruct (getEdgeSections_shape path Hn) as (H1 & H2 & H3 & H4).
  apply elem_of_rejectedIndices. unfold rejectedRegions.
  change (edgeSections (analyzeGeometry path)) with (getEdgeSections path).
  destruct Hi as [Hi | Hi].
  - exists (edge_start (getEdgeSections path)). split.
    + rewrite !in_app_iff. right. right. left. reflexivity.
    + unfold covers. lia.
  - exists (edge_end (getEdgeSections path)). split.
    + rewrite !in_app_iff. right. right. right. left. reflexivity.
    + unfold covers. lia.
Qed.

(** A window of non-rejected indices of the analysis starts at index 2 or
    later and ends at index [n - 3] or earlier. *)
Lemma free_window_is_interior (path : RiverPath) (s e : nat) :
  (s < e < length (points path))%nat ->
  (forall i, (s <= i <= e)%nat -> i ∉ rejectedIndices (analyzeGeometry path)) ->
  (2 <= s /\ e + 3 <= length (points path))%nat.
Proof.
  intros Hr Hfree.
  assert (2 <= length (points path))%nat as Hn by lia.
  split.
  - destruct (Nat.lt_ge_cases s 2) as [Hs | Hs]; [|exact Hs]. exfalso.
    apply (Hfree s); [lia|]. apply edges_rejected; [exact Hn | lia].
  - destruct (Nat.lt_ge_cases e (length (points path) - 2)) as [He' | He']; [lia|].
    exfalso. apply (Hfree e); [lia|]. apply edges_rejected; [exact Hn | lia].
Qed.

End EdgeFacts.

Import EdgeFacts.

Section AnalysisExtras.

Import PrimFloat Doubles DoublesVocabulary DoublesFacts.

Local Open Scope float_scope.

(** X11.  The edge regions of a path of two or more points, in the
    program's own arithmetic.  The start region runs from index 0 to the
    first point at which the length accumulated from the first point
    passes the test against [length * 0.1], or to the last point when no
    point passes it; the end region runs to the last index, from the
    first point, coming from the last one, at which the length
    accumulated from the last point passes the test, or from index 0
    when none does.  Each region holds two points at least, stores the
    length [_calculateSegmentLength] gives it, and is tagged as an edge
    section. *)
Theorem getEdgeSections_scans (path : DPath) :
  (2 <= length (dpoints path))%nat ->
  let n := length (dpoints path) in
  let startRegion := fst (getEdgeSections path) in
  let endRegion := snd (getEdgeSections path) in
  (dseg_startIdx startRegion = 0%nat
   /\ (1 <= dseg_endIdx startRegion <= n - 1)%nat
   /\ (forall j, (0 < j < dseg_endIdx startRegion)%nat ->
                 reaches path (walked path j) = false)
   /\ (reaches path (walked path (dseg_endIdx startRegion)) = true
       \/ dseg_endIdx startRegion = (n - 1)%nat)
   /\ dseg_length startRegion
      = _calculateSegmentLength path 0 (dseg_endIdx startRegion)
   /\ dseg_reason startRegion = Some EdgeSection)
  /\ (dseg_endIdx endRegion = (n - 1)%nat
      /\ (dseg_startIdx endRegion <= n - 2)%nat
      /\ (forall j, (dseg_startIdx endRegion < j < n - 1)%nat ->
                    reaches path (walkedBack path j) = false)
      /\ (reaches path (walkedBack path (dseg_startIdx endRegion)) = true
          \/ dseg_startIdx endRegion = 0%nat)
      /\ dseg_length endRegion
         = _calculateSegmentLength path (dseg_startIdx endRegion) (n - 1)
      /\ dseg_reason endRegion = Some EdgeSection).
Proof.
  intros Hn. cbv zeta. unfold getEdgeSections. cbv zeta. cbn [fst snd].
  set (n := length (dpoints path)) in *.
  fold (edgeThresholdOf path).
  unfold range_excl. rewrite Nat.sub_0_r.
  pose proof (edgeScanForward_stops path (n - 1) 0 0 eq_refl) as Hf. cbv zeta in Hf.
  set (r := edgeScanForward (dpoints path) (edgeThresholdOf path) 0 (seq 0 (n - 1))) in *.
  pose proof (edgeScanBackward_stops path (n - 1) (n - 1) 0 (Nat.le_refl _)
                (eq_sym (walkedBack_last path))) as Hb.
  cbv zeta in Hb. fold n in Hb.
  set (b := edgeScanBackward (dpoints path) (edgeThresholdOf path) 0 (n - 1)
              (rev (seq 1 (n - 1)))) in *.
  assert ((1 <? n)%nat = true) as Hn1 by (apply Nat.ltb_lt; lia).
  split.
  - cbn [dseg_startIdx dseg_endIdx dseg_length dseg_reason].
    destruct Hf as [(Hr & Hall) | (Hr & Hreach & Hmin)].
    + rewrite Hr, Hn1. cbn [Nat.eqb andb].
      split; [reflexivity|]. split; [lia|].
      split; [intros j Hj; apply Hall; lia|].
      split; [right; reflexivity|]. split; reflexivity.
    + assert (Nat.eqb r 0 = false) as -> by (apply Nat.eqb_neq; lia).
      cbn [andb]. split; [reflexivity|]. split; [lia|].
      split; [intros j Hj; apply Hmin; lia|].
      split; [left; exact Hreach|]. split; reflexivity.
  - cbn [dseg_startIdx dseg_endIdx dseg_length dseg_reason].
    destruct Hb as [(Hr & Hall) | (Hr & Hreach & Hmin)].
    + rewrite Hr, Nat.eqb_refl, Hn1. cbn [andb].
      split; [reflexivity|]. split; [lia|].
      split; [intros j Hj; apply Hall; lia|].
      split; [right; reflexivity|]. split; reflexivity.
    + assert (Nat.eqb b (n - 1) = false) as -> by (apply Nat.eqb_neq; lia).
      cbn [andb]. split; [reflexivity|]. split; [lia|].
      split; [intros j Hj; apply Hmin; lia|].
      split; [left; exact Hreach|]. split; reflexivity.
Qed.

Lemma getEdgeSections_scans_witness :
  (2 <= length (dpoints (parse tenthCoordinates)))%nat
  /\ dseg_endIdx (fst (getEdgeSections (parse tenthCoordinates))) = 1%nat
  /\ dseg_startIdx (snd (getEdgeSections (parse tenthCoordinates))) = 2%nat
  /\ (reaches (parse tenthCoordinates)
        (walked (parse tenthCoordinates)
           (dseg_endIdx (fst (getEdgeSections (parse tenthCoordinates))))) = true
      \/ dseg_endIdx (fst (getEdgeSections (parse tenthCoordinates))) = 3%nat).
Proof.
  assert (2 <= length (dpoints (parse tenthCoordinates)))%nat as H by (vm_compute; lia).
  split; [exact H|]. split; [vm_compute; reflexivity|]. split; [vm_compute; reflexivity|].
  exact (proj1 (proj2 (proj2 (proj2 (proj1
           (getEdgeSections_scans (parse tenthCoordinates) H)))))).
Defined.

End AnalysisExtras.

(* ====================================================================== *)
(** * The scorer: candidate windows *)
(* ====================================================================== *)

Module SearchFacts.
Local Open Scope R_scope.

Lemma hasRejectedPoint_free (rejected : gset nat) (startIdx endIdx : nat) :
  (forall i, (startIdx < i < endIdx)%nat -> i ∉ rejected) ->
  hasRejectedPoint rejected startIdx endIdx = false.
Proof.
  intros Hfree. unfold hasRejectedPoint.
  destruct (existsb _ _) eqn:Hex; [|reflexivity].
  apply existsb_exists in Hex. destruct Hex as (i & Hin & Hi).
  apply in_range_excl in Hin. apply bool_decide_eq_true in Hi.
  exfalso. apply (Hfree i); [lia | exact Hi].
Qed.

(** The inner loop of [findCandidates] reaches every end index up to which
    no point is rejected, and emits the window when it is long enough. *)
Lemma extendFrom_complete (path : RiverPath) (metrics : GeometryMetrics)
    (rejected : gset nat) (textLength : R) (startIdx endIdx : nat) :
  (forall i, (startIdx < i <= endIdx)%nat -> i ∉ rejected) ->
  textLength <= segmentLength path startIdx endIdx ->
  forall (len k : nat) (acc : R),
    (startIdx < k <= endIdx)%nat -> (endIdx < k + len)%nat ->
    acc = segmentLength path startIdx (k - 1) ->
    In (mkCand path metrics startIdx endIdx (segmentLength path startIdx endIdx))
       (extendFrom path metrics rejected textLength startIdx acc (seq k len)).
Proof.
  intros Hfree Hlong. induction len as [|len IH]; intros k acc Hk Hlen Hacc; [lia|].
  simpl.
  assert (bool_decide (k ∈ rejected) = false) as ->.
  { apply bool_decide_eq_false. apply Hfree. lia. }
  rewrite hasRejectedPoint_free by (intros i Hi; apply Hfree; lia).
  assert (acc + distance (pt (points path) (k - 1)) (pt (points path) k)
          = segmentLength path startIdx k) as Hstep.
  { subst acc. replace k with (S (k - 1)) at 3 4 by lia.
    rewrite segmentLength_snoc by lia. do 3 f_equal. lia. }
  rewrite Hstep. apply in_app_iff.
  destruct (decide (k = endIdx)) as [-> | Hne].
  - left. destruct (Rge_dec _ _) as [_ | Hn]; [left; reflexivity | lra].
  - right. apply IH; [lia | lia |]. replace (S k - 1)%nat with k by lia. reflexivity.
Qed.

Lemma findCandidates_complete (path : RiverPath) (textLength : R)
    (metrics : GeometryMetrics) (startIdx endIdx : nat) :
  (startIdx < endIdx < length (points path))%nat ->
  (forall i, (startIdx <= i <= endIdx)%nat -> i ∉ rejectedIndices metrics) ->
  textLength <= segmentLength path startIdx endIdx ->
  In (mkCand path metrics startIdx endIdx (segmentLength path startIdx endIdx))
     (findCandidates path textLength metrics).
Proof.
  intros Hr Hfree Hlong. unfold findCandidates.
  apply in_flat_map. exists startIdx. split; [apply in_range_excl; lia|].
  assert (bool_decide (startIdx ∈ rejectedIndices metrics) = false) as ->.
  { apply bool_decide_eq_false. apply Hfree. lia. }
  unfold range_excl.
  apply extendFrom_complete.
  - intros i Hi. apply Hfree. lia.
  - exact Hlong.
  - lia.
  - lia.
  - replace (startIdx + 1 - 1)%nat with startIdx by lia.
    rewrite segmentLength_empty. reflexivity.
Qed.

(** The analysis of a path rejects so much of a path with fewer than six
    points that no window is left. *)
Lemma short_path_no_window (path : RiverPath) (s e : nat) :
  (length (points path) < 6)%nat ->
  (s < e < length (points path))%nat ->
  ~ (forall i, (s <= i <= e)%nat -> i ∉ rejectedIndices (analyzeGeometry path)).
Proof.
  intros Hn Hr Hfree.
  pose proof (free_window_is_interior path s e Hr Hfree). lia.
Qed.

Lemma short_path_findCandidates (path : RiverPath) (textLength : R) :
  (length (points path) < 6)%nat ->
  findCandidates path textLength (analyzeGeometry path) = [].
Proof.
  intros Hn. destruct (findCandidates _ _ _) as [|c cs] eqn:Hc; [reflexivity|].
  exfalso.
  assert (In c (findCandidates path textLength (analyzeGeometry path))) as Hin
    by (rewrite Hc; left; reflexivity).
  apply findCandidates_inv in Hin. destruct Hin as (s & e & Hr & _ & Hfree & _).
  exact (short_path_no_window path s e Hn Hr Hfree).
Qed.

Lemma short_path_findAllValidSegments (path : RiverPath) :
  (length (points path) < 6)%nat ->
  _findAllValidSegments path (analyzeGeometry path) = [].
Proof.
  intros Hn. destruct (_findAllValidSegments _ _) as [|c cs] eqn:Hc; [reflexivity|].
  exfalso.
  assert (In c (_findAllValidSegments path (analyzeGeometry path))) as Hin
    by (rewrite Hc; left; reflexivity).
  apply _findAllValidSegments_spec in Hin.
  destruct Hin as (s & e & (Hr & Hfree & _) & _).
  exact (short_path_no_window path s e Hn Hr Hfree).
Qed.

(** [selectOptimal] on a list one of whose scores reaches the seed of the
    maximum scan: the result is in the list and no score exceeds its
    score. *)
Lemma selectOptimal_Ok (candidates : list Candidate) :
  candidates <> [] ->
  (forall c, In c candidates -> -1 <= score c) ->
  exists best,
    selectOptimal candidates = Ok (Some best)
    /\ In best candidates
    /\ forall c, In c candidates -> score c <= score best.
Proof.
  intros Hne Hge. destruct candidates as [|c1 [|c2 cs]]; [congruence | |].
  - exists c1. split; [reflexivity|]. split; [left; reflexivity|].
    intros c [<- | []]. lra.
  - rewrite selectOptimal_two_or_more.
    destruct (selectAmong_spec (c1 :: c2 :: cs)) as (best & pre & post & Hsel & Hsplit & Hmax & _).
    { exists c1. split; [left; reflexivity | apply Hge; left; reflexivity]. }
    exists best. split; [exact Hsel|]. split; [|exact Hmax].
    rewrite Hsplit. apply in_app_iff. right. left. reflexivity.
Qed.

End SearchFacts.

Import SearchFacts.

Section PlacementExtras.

Local Open Scope R_scope.

(** X13.  [findCandidates] returns exactly the windows of two or more
    points inside the path that contain no rejected index and are at least
    as long as the text: every such window is in the list (with the
    candidate the scorer builds for it), and nothing else is. *)
Theorem findCandidates_characterisation (path : RiverPath) (textLength : R)
    (metrics : GeometryMetrics) (c : Candidate) :
  In c (findCandidates path textLength metrics)
  <-> exists startIdx endIdx,
        (startIdx < endIdx < length (points path))%nat
        /\ (forall i, (startIdx <= i <= endIdx)%nat -> i ∉ rejectedIndices metrics)
        /\ textLength <= segmentLength path startIdx endIdx
        /\ c = mkCand path metrics startIdx endIdx (segmentLength path startIdx endIdx).
Proof.
  split.
  - intros Hin. apply findCandidates_inv in Hin.
    destruct Hin as (s & e & Hr & Hc & Hfree & Hlong). exists s, e. auto.
  - intros (s & e & Hr & Hfree & Hlong & ->).
    apply findCandidates_complete; assumption.
Qed.

(** X14.  With the metrics of [analyzeGeometry], the window of every
    candidate and of every fallback segment starts at index 2 or later and
    ends at index [n - 3] or earlier: the two edge regions always hold the
    first two and the last two points. *)
Theorem candidate_windows_are_interior (path : RiverPath) (textLength : R)
    (c : Candidate) :
  In c (findCandidates path textLength (analyzeGeometry path))
  \/ In c (_findAllValidSegments path (analyzeGeometry path)) ->
  (2 <= seg_startIdx (segment c))%nat
  /\ (seg_endIdx (segment c) + 3 <= length (points path))%nat.
Proof.
  intros [Hin | Hin].
  - apply findCandidates_inv in Hin. destruct Hin as (s & e & Hr & -> & Hfree & _).
    exact (free_window_is_interior path s e Hr Hfree).
  - apply _findAllValidSegments_spec in Hin.
    destruct Hin as (s & e & (Hr & Hfree & _) & ->).
    exact (free_window_is_interior path s e Hr Hfree).
Qed.

Lemma candidate_windows_are_interior_witness :
  (In (mkCand lateWidthPath lateWidthMetrics 2 3 10)
      (findCandidates lateWidthPath 10 (analyzeGeometry lateWidthPath))
   \/ In (mkCand lateWidthPath lateWidthMetrics 2 3 10)
         (_findAllValidSegments lateWidthPath (analyzeGeometry lateWidthPath)))
  /\ (2 <= seg_startIdx (segment (mkCand lateWidthPath lateWidthMetrics 2 3 10)))%nat
  /\ (seg_endIdx (segment (mkCand lateWidthPath lateWidthMetrics 2 3 10)) + 3
      <= length (points lateWidthPath))%nat.
Proof.
  assert (In (mkCand lateWidthPath lateWidthMetrics 2 3 10)
             (findCandidates lateWidthPath 10 (analyzeGeometry lateWidthPath))) as Hin.
  { rewrite analyzeGeometry_lateWidthPath, findCandidates_lateWidthPath.
    left. reflexivity. }
  split; [left; exact Hin|].
  exact (candidate_windows_are_interior lateWidthPath 10 _ (or_introl Hin)).
Defined.

(** X15.  A path with fewer than six points gets no placement: with the
    metrics of [analyzeGeometry] there is no candidate and no fallback
    segment whatever the text, and [findOptimalPlacement] returns a null
    placement with the warning that the entire path is problematic. *)
Theorem short_path_has_no_placement
    (measureTextLength : string -> R -> R) (path : RiverPath) (text : string)
    (fontSize : R) :
  (length (points path) < 6)%nat ->
  findCandidates path (measureTextLength text fontSize) (analyzeGeometry path) = []
  /\ _findAllValidSegments path (analyzeGeometry path) = []
  /\ findOptimalPlacement measureTextLength path text fontSize (analyzeGeometry path)
     = Ok (mkPlacementResult None (Some EntirePathProblematic) []
             (measureTextLength text fontSize)).
Proof.
  intros Hn.
  pose proof (short_path_findCandidates path (measureTextLength text fontSize) Hn) as Hc.
  pose proof (short_path_findAllValidSegments path Hn) as Hs.
  split; [exact Hc|]. split; [exact Hs|].
  unfold findOptimalPlacement. cbv zeta. rewrite Hc, Hs. reflexivity.
Qed.

End PlacementExtras.

Lemma short_path_has_no_placement_witness :
  (length (points straightPath) < 6)%nat
  /\ findCandidates straightPath (wideLabel "Nile" 16%R) (analyzeGeometry straightPath) = []
  /\ _findAllValidSegments straightPath (analyzeGeometry straightPath) = []
  /\ findOptimalPlacement wideLabel straightPath "Nile" 16%R (analyzeGeometry straightPath)
     = Ok (mkPlacementResult None (Some EntirePathProblematic) []
             (wideLabel "Nile" 16%R)).
Proof.
  assert (length (points straightPath) < 6)%nat as Hn by (simpl; lia).
  split; [exact Hn|].
  exact (short_path_has_no_placement wideLabel straightPath "Nile" 16%R Hn).
Defined.

(* ====================================================================== *)
(** * The scorer: center point and angle differences *)
(* ====================================================================== *)

Module CenterFacts.
Local Open Scope R_scope.

(** The second loop of [_calculateCenterPoint], about to visit index [k]
    with the length walked from [s]: it stops in the segment in which the
    target length is reached. *)
Lemma centerWalk_locate (path : RiverPath) (s : nat) (target : R) (len : nat) :
  forall (k : nat) (acc : R),
    (s <= k)%nat -> (k + len <= length (points path) - 1)%nat ->
    acc = segmentLength path s k ->
    acc <= target -> target <= segmentLength path s (k + len) ->
    (acc < target \/ (0 < len)%nat) ->
    exists i ratio,
      (k <= i < k + len)%nat /\ 0 <= ratio <= 1
      /\ segmentLength path s i
         + ratio * distance (pt (points path) i) (pt (points path) (i + 1)) = target
      /\ centerWalk (points path) target acc (seq k len)
         = Some (mkPoint
                   (px (pt (points path) i)
                    + (px (pt (points path) (i + 1)) - px (pt (points path) i)) * ratio)
                   (py (pt (points path) i)
                    + (py (pt (points path) (i + 1)) - py (pt (points path) i)) * ratio)).
Proof.
  induction len as [|len IH]; intros k acc Hsk Hn Hacc Hlo Hhi Hgo.
  - exfalso. rewrite Nat.add_0_r in Hhi. destruct Hgo as [Hgo | Hgo]; [lra | lia].
  - simpl.
    assert ((k <? length (points path) - 1)%nat = true) as ->
      by (apply Nat.ltb_lt; lia).
    set (l := distance (pt (points path) k) (pt (points path) (k + 1))).
    assert (0 <= l) as Hl by apply distance_nonneg.
    assert (segmentLength path s (S k) = acc + l) as Hstep.
    { rewrite segmentLength_snoc by lia. rewrite Hacc. reflexivity. }
    destruct (Rge_dec (acc + l) target) as [Hge | Hlt].
    + destruct (Rlt_dec 0 l) as [Hpos | Hzero].
      * exists k, ((target - acc) / l). split; [lia|]. split; [|split; [|reflexivity]].
        -- split.
           ++ apply Rmult_le_pos; [lra|]. left. apply Rinv_0_lt_compat. exact Hpos.
           ++ apply Rmult_le_reg_r with (r := l); [exact Hpos|].
              unfold Rdiv. rewrite Rmult_assoc, Rinv_l by lra. lra.
        -- rewrite <- Hacc. fold l. field. lra.
      * exists k, 0. split; [lia|]. split; [lra|]. split; [|reflexivity].
        rewrite <- Hacc. lra.
    + destruct (IH (S k) (acc + l)) as (i & ratio & Hi & Hr & Hsum & Hw).
      * lia.
      * lia.
      * symmetry. exact Hstep.
      * lra.
      * replace (S k + len)%nat with (k + S len)%nat by lia. exact Hhi.
      * left. lra.
      * exists i, ratio. split; [lia|]. auto.
Qed.

End CenterFacts.

Module AngleFacts.
Local Open Scope R_scope.

(** [Math.atan2] answers between [-PI] and [PI]. *)
Lemma atan2_range (y x : R) : - PI <= atan2 y x <= PI.
Proof.
  pose proof PI_RGT_0 as Hpi. unfold atan2.
  pose proof (atan_bound (y / x)) as Hb.
  destruct (Rlt_dec 0 x) as [Hx | Hx]; [lra|].
  destruct (Rlt_dec x 0) as [Hx' | Hx'].
  - assert (/ x < 0) as Hinv by (apply Rinv_lt_0_compat; exact Hx').
    destruct (Rle_dec 0 y) as [Hy | Hy].
    + assert (atan (y / x) <= 0) as Hle.
      { destruct (Req_dec y 0) as [-> | Hne].
        - unfold Rdiv. rewrite Rmult_0_l, atan_0. lra.
        - rewrite <- atan_0. left. apply atan_increasing.
          unfold Rdiv. nra. }
      lra.
    + assert (0 < atan (y / x)) as Hgt.
      { rewrite <- atan_0. apply atan_increasing. unfold Rdiv. nra. }
      lra.
  - destruct (Rlt_dec 0 y); [lra|]. destruct (Rlt_dec y 0); lra.
Qed.

Lemma segmentAngles_range (pts : list Point) (startIdx endIdx : nat) (angle : R) :
  In angle (segmentAngles pts startIdx endIdx) -> - PI <= angle <= PI.
Proof.
  unfold segmentAngles. intros Hin. apply in_flat_map in Hin.
  destruct Hin as (i & _ & Hin).
  destruct (i <? length pts - 1)%nat; [|destruct Hin].
  destruct Hin as [<- | []]. apply atan2_range.
Qed.

Lemma foldl_sum_between (l : list R) (m M : R) :
  (forall x, In x l -> m <= x <= M) ->
  forall acc,
    acc + INR (length l) * m <= foldl (fun sum a => sum + a) acc l
    <= acc + INR (length l) * M.
Proof.
  induction l as [|x l IH]; intros Hall acc.
  - simpl. lra.
  - change (foldl (fun sum a => sum + a) acc (x :: l))
      with (foldl (fun sum a => sum + a) (acc + x) l).
    change (length (x :: l)) with (S (length l)). rewrite S_INR.
    pose proof (Hall x (or_introl eq_refl)) as Hx.
    pose proof (IH (fun y Hy => Hall y (or_intror Hy)) (acc + x)) as H. lra.
Qed.

(** The mean of a non-empty list lies between any two bounds of its
    elements. *)
Lemma mean_between (l : list R) (m M : R) :
  l <> [] ->
  (forall x, In x l -> m <= x <= M) ->
  m <= foldl (fun sum a => sum + a) 0 l / INR (length l) <= M.
Proof.
  intros Hne Hall. pose proof (foldl_sum_between l m M Hall 0) as Hsum.
  assert (0 < INR (length l)) as Hpos.
  { apply lt_0_INR. destruct l; [congruence | simpl; lia]. }
  split.
  - apply Rmult_le_reg_r with (r := INR (length l)); [exact Hpos|].
    unfold Rdiv. rewrite Rmult_assoc, Rinv_l by lra. lra.
  - apply Rmult_le_reg_r with (r := INR (length l)); [exact Hpos|].
    unfold Rdiv. rewrite Rmult_assoc, Rinv_l by lra. lra.
Qed.

(** The normalisation loops leave a difference between [-PI] and [PI]
    as it is. *)
Lemma wrapAngle_fixed (diff : R) : - PI <= diff <= PI -> wrapAngle diff = diff.
Proof.
  intros [Hlo Hhi]. unfold wrapAngle.
  assert (forall fuel, wrapDown fuel diff = diff) as ->.
  { intros [|fuel]; simpl; [reflexivity|]. destruct (Rlt_dec PI diff); [lra | reflexivity]. }
  generalize (Z.to_nat (up (Rabs diff))). intros [|fuel]; simpl; [reflexivity|].
  destruct (Rlt_dec diff (- PI)); [lra | reflexivity].
Qed.

Lemma wrapDown_congruent (fuel : nat) :
  forall diff, exists j : Z, wrapDown fuel diff = diff + IZR j * (2 * PI).
Proof.
  induction fuel as [|fuel IH]; intros diff; simpl.
  - exists 0%Z. lra.
  - destruct (Rlt_dec PI diff); [|exists 0%Z; lra].
    destruct (IH (diff - 2 * PI)) as (j & ->). exists (j - 1)%Z.
    rewrite minus_IZR. lra.
Qed.

Lemma wrapUp_congruent (fuel : nat) :
  forall diff, exists j : Z, wrapUp fuel diff = diff + IZR j * (2 * PI).
Proof.
  induction fuel as [|fuel IH]; intros diff; simpl.
  - exists 0%Z. lra.
  - destruct (Rlt_dec diff (- PI)); [|exists 0%Z; lra].
    destruct (IH (diff + 2 * PI)) as (j & ->). exists (j + 1)%Z.
    rewrite plus_IZR. lra.
Qed.

(** A difference of at most a full turn is normalised by one turn at
    most. *)
Lemma wrapAngle_turns (diff : R) :
  - (2 * PI) <= diff <= 2 * PI ->
  exists turns : Z, (-1 <= turns <= 1)%Z /\ wrapAngle diff = diff + IZR turns * (2 * PI).
Proof.
  intros Hd. pose proof PI_RGT_0 as Hpi.
  pose proof (wrapAngle_range diff) as Hr.
  unfold wrapAngle in *. set (fuel := Z.to_nat (up (Rabs diff))) in *.
  destruct (wrapDown_congruent fuel diff) as (j & Hj).
  destruct (wrapUp_congruent fuel (wrapDown fuel diff)) as (j' & Hj').
  exists (j + j')%Z. rewrite Hj' in *. rewrite Hj in *.
  assert (diff + IZR j * (2 * PI) + IZR j' * (2 * PI)
          = diff + IZR (j + j') * (2 * PI)) as Heq by (rewrite plus_IZR; ring).
  rewrite Heq in *. split; [|reflexivity].
  set (t := (j + j')%Z) in *.
  destruct (Z_lt_le_dec t (-1)) as [Hlo | Hlo].
  - exfalso. assert (IZR t <= -2) as Ht by (apply IZR_le; lia). nra.
  - destruct (Z_lt_le_dec 1 t) as [Hhi | Hhi]; [|lia].
    exfalso. assert (2 <= IZR t) as Ht by (apply IZR_le; lia). nra.
Qed.

End AngleFacts.

Import CenterFacts AngleFacts.

Section ScorerExtras.

Local Open Scope R_scope.


(** X18.  The normalisation of the angle differences in
    [_calculateStraightnessScore], in exact arithmetic.  Every difference
    between the direction of a segment of the window and the mean
    direction lies between [-2 PI] and [2 PI]; the two loops bring it to a
    value between [-PI] and [PI] by adding or taking away one full turn
    at most, and leave a difference that is already in that interval as
    it is. *)
Theorem wrapAngle_normalises (pts : list Point) (startIdx endIdx : nat) (angle : R) :
  let angles := segmentAngles pts startIdx endIdx in
  let avgAngle := foldl (fun sum a => sum + a) 0 angles / INR (length angles) in
  let diff := angle - avgAngle in
  In angle angles ->
  - (2 * PI) <= diff <= 2 * PI
  /\ - PI <= wrapAngle diff <= PI
  /\ (exists turns : Z,
        (-1 <= turns <= 1)%Z /\ wrapAngle diff = diff + IZR turns * (2 * PI))
  /\ (- PI <= diff <= PI -> wrapAngle diff = diff).
Proof.
  cbv zeta. intros Hin.
  pose proof (segmentAngles_range pts startIdx endIdx angle Hin) as Ha.
  assert (segmentAngles pts startIdx endIdx <> []) as Hne
    by (intros Hnil; rewrite Hnil in Hin; destruct Hin).
  pose proof (mean_between (segmentAngles pts startIdx endIdx) (- PI) PI Hne
                (segmentAngles_range pts startIdx endIdx)) as Hm.
  assert (- (2 * PI) <= angle
          - foldl (fun sum a => sum + a) 0 (segmentAngles pts startIdx endIdx)
            / INR (length (segmentAngles pts startIdx endIdx)) <= 2 * PI) as Hd by lra.
  split; [exact Hd|]. split; [apply wrapAngle_range|].
  split; [apply wrapAngle_turns; exact Hd | apply wrapAngle_fixed].
Qed.

End ScorerExtras.

Section ScorerWitnesses.

Local Open Scope R_scope.


Lemma wrapAngle_normalises_witness :
  In (atan2 (0 - 0) (10 - 0)) (segmentAngles (points rightAnglePath) 0 2)
  /\ - PI <= wrapAngle
       (atan2 (0 - 0) (10 - 0)
        - foldl (fun sum a => sum + a) 0 (segmentAngles (points rightAnglePath) 0 2)
          / INR (length (segmentAngles (points rightAnglePath) 0 2))) <= PI.
Proof.
  assert (In (atan2 (0 - 0) (10 - 0)) (segmentAngles (points rightAnglePath) 0 2)) as H
    by (left; reflexivity).
  split; [exact H|].
  exact (proj1 (proj2 (wrapAngle_normalises (points rightAnglePath) 0 2 _ H))).
Defined.

End ScorerWitnesses.

(* ====================================================================== *)
(** * Placement on parsed paths, text placement and the pipeline *)
(* ====================================================================== *)

Module WalkFacts.
Local Open Scope R_scope.

Lemma segmentLengthAt_distance (pts : list Point) (i : nat) :
  segmentLengthAt pts i = distance (pt pts i) (pt pts (i + 1)).
Proof. unfold segmentLengthAt, distance. f_equal. ring. Qed.

Lemma segmentLength_mono (path : RiverPath) (a b c : nat) :
  (a <= b)%nat -> (b <= c)%nat -> segmentLength path a b <= segmentLength path a c.
Proof.
  intros Hab Hbc. rewrite (segmentLength_split path a b c) by lia.
  pose proof (segmentLength_nonneg path b c). lra.
Qed.

(** The loop of [interpolatePosition] stops on the segment in which the
    distance is used up, at the fraction of it that is left. *)
Lemma walkPath_locate (path : RiverPath) (len : nat) :
  forall (k : nat) (d : R),
    0 < d -> d <= segmentLength path k (k + len) ->
    exists i t,
      (k <= i < k + len)%nat /\ 0 < t <= 1
      /\ segmentLength path k i < d
      /\ segmentLength path k i + t * distance (pt (points path) i) (pt (points path) (i + 1)) = d
      /\ walkPath (points path) d (seq k len) = Some (onSegment (points path) i t).
Proof.
  induction len as [|len IH]; intros k d Hd Hle.
  - rewrite Nat.add_0_r, segmentLength_empty in Hle. lra.
  - simpl seq. rewrite walkPath_cons.
    pose proof (segmentLengthAt_nonneg (points path) k) as Hpos.
    destruct (Rle_dec d (segmentLengthAt (points path) k)) as [Hin | Hout].
    + exists k, (d / segmentLengthAt (points path) k).
      assert (0 < segmentLengthAt (points path) k) as Hl by lra.
      split; [lia|]. split; [|split; [|split; [|reflexivity]]].
      * split.
        -- apply Rdiv_lt_0_compat; assumption.
        -- apply Rmult_le_reg_r with (r := segmentLengthAt (points path) k); [exact Hl|].
           unfold Rdiv. rewrite Rmult_assoc, Rinv_l by lra. lra.
      * rewrite segmentLength_empty. exact Hd.
      * rewrite segmentLength_empty, <- segmentLengthAt_distance. field. lra.
    + assert (segmentLength path k (k + S len)
              = segmentLengthAt (points path) k + segmentLength path (S k) (S k + len)) as Hsplit.
      { rewrite (segmentLength_cons path k (k + S len)) by lia.
        rewrite segmentLengthAt_distance.
        replace (k + 1)%nat with (S k) by lia.
        replace (k + S len)%nat with (S k + len)%nat by lia. reflexivity. }
      rewrite Hsplit in Hle.
      destruct (IH (S k) (d - segmentLengthAt (points path) k))
        as (i & t & Hi & Ht & Hlt & Hsum & Hw); [lra | lra |].
      exists i, t. split; [lia|]. split; [exact Ht|].
      rewrite (segmentLength_cons path k i) by lia.
      rewrite <- (segmentLengthAt_distance (points path) k).
      replace (k + 1)%nat with (S k) by lia.
      split; [lra|]. split; [lra | exact Hw].
Qed.

(** [interpolatePosition] for a positive distance that the window from
    the start index to [endIdx] can hold. *)
Lemma interpolatePosition_locate (path : RiverPath) (startIdx endIdx : nat) (d : R) :
  (startIdx <= endIdx < length (points path))%nat ->
  0 < d -> d <= segmentLength path startIdx endIdx ->
  exists i t,
    (startIdx <= i < endIdx)%nat /\ 0 < t <= 1
    /\ segmentLength path startIdx i
       + t * distance (pt (points path) i) (pt (points path) (i + 1)) = d
    /\ interpolatePosition (Some path) (Z.of_nat startIdx) d
       = Ok (onSegment (points path) i t).
Proof.
  intros Hr Hd Hle. unfold interpolatePosition.
  rewrite checkPath_Ok by lia. rewrite Nat2Z.id.
  destruct (Req_dec_T d 0) as [H0 | _]; [lra|].
  set (n := length (points path)) in *.
  assert (d <= segmentLength path startIdx (startIdx + (n - 1 - startIdx))) as Hle'.
  { replace (startIdx + (n - 1 - startIdx))%nat with (n - 1)%nat by lia.
    pose proof (segmentLength_mono path startIdx endIdx (n - 1) ltac:(lia) ltac:(lia)). lra. }
  destruct (walkPath_locate path (n - 1 - startIdx) startIdx d Hd Hle')
    as (i & t & Hi & Ht & Hlt & Hsum & Hw).
  unfold range_excl. rewrite Hw.
  exists i, t. split; [|auto].
  split; [lia|].
  destruct (Nat.lt_ge_cases i endIdx) as [Hlt' | Hge]; [exact Hlt'|]. exfalso.
  pose proof (segmentLength_mono path startIdx endIdx i ltac:(lia) Hge). lra.
Qed.

End WalkFacts.

Import WalkFacts UIController.

Module PipelineFacts.
Local Open Scope R_scope.

Lemma parse_at_least_3 (parsePolygon : string -> Result (list (R * R)))
    (data : ParseInput) (path : RiverPath) :
  parse parsePolygon data = Ok path -> (3 <= length (points path))%nat.
Proof.
  intros Hparse. destruct (parse_Ok_build _ _ _ Hparse) as (coordinates & Hb).
  destruct (build_Ok_inv _ _ Hb) as [Hlen Hwf].
  rewrite build_Ok in Hb by assumption. injection Hb as <-.
  simpl. rewrite length_map. exact Hlen.
Qed.

(** In exact arithmetic the scores of the candidates of a parsed path are
    at least 0, so the maximum scan of [selectOptimal] finds one. *)
Lemma selectOptimal_on_parsed_path (parsePolygon : string -> Result (list (R * R)))
    (data : ParseInput) (path : RiverPath) (textLength : R) :
  parse parsePolygon data = Ok path ->
  findCandidates path textLength (analyzeGeometry path) <> [] ->
  exists best,
    selectOptimal (findCandidates path textLength (analyzeGeometry path)) = Ok (Some best)
    /\ In best (findCandidates path textLength (analyzeGeometry path))
    /\ forall c, In c (findCandidates path textLength (analyzeGeometry path)) ->
                 score c <= score best.
Proof.
  intros Hparse Hne. apply selectOptimal_Ok; [exact Hne|].
  intros c Hin. destruct (parse_Ok_build _ _ _ Hparse) as (coordinates & Hb).
  apply findCandidates_inv in Hin. destruct Hin as (s & e & Hr & -> & Hfree & _).
  pose proof (window_scores_in_range coordinates path s e
                (segmentLength path s e) Hb ltac:(lia) Hfree) as (_ & _ & _ & _ & Hsc).
  unfold inRange in Hsc. lra.
Qed.

(** What [findOptimalPlacement] returns on a parsed path in exact
    arithmetic, and where the placement it returns (if any) starts. *)
Lemma findOptimalPlacement_Ok (measureTextLength : string -> R -> R)
    (parsePolygon : string -> Result (list (R * R)))
    (data : ParseInput) (path : RiverPath) (text : string) (fontSize : R) :
  parse parsePolygon data = Ok path ->
  exists result,
    findOptimalPlacement measureTextLength path text fontSize (analyzeGeometry path)
    = Ok result
    /\ forall p, placement result = Some p ->
         In p (allCandidates result)
         /\ exists s e,
              (s < e < length (points path))%nat
              /\ (forall i, (s <= i <= e)%nat ->
                            i ∉ rejectedIndices (analyzeGeometry path))
              /\ p = mkCand path (analyzeGeometry path) s e (segmentLength path s e).
Proof.
  intros Hparse. unfold findOptimalPlacement. cbv zeta.
  set (tl := measureTextLength text fontSize).
  destruct (findCandidates path tl (analyzeGeometry path)) as [|c0 cs] eqn:Hc.
  - destruct (_findAllValidSegments path (analyzeGeometry path)) as [|f fs] eqn:Hs.
    + eexists. split; [reflexivity|]. simpl. intros p Hp. discriminate.
    + eexists. split; [reflexivity|]. simpl. intros p Hp. injection Hp as <-.
      destruct (longestOf_spec (f :: fs) f) as (Hin & _). cbv zeta in Hin.
      assert (In (longestOf f (f :: fs)) (f :: fs)) as Hin'.
      { destruct Hin as [-> | Hin]; [left; reflexivity | exact Hin]. }
      split; [exact Hin'|].
      assert (In (longestOf f (f :: fs))
                 (_findAllValidSegments path (analyzeGeometry path))) as Hin''
        by (rewrite Hs; exact Hin').
      apply _findAllValidSegments_spec in Hin''.
      destruct Hin'' as (s & e & (Hr & Hfree & _) & Heq). exists s, e. auto.
  - rewrite <- Hc.
    destruct (selectOptimal_on_parsed_path parsePolygon data path tl Hparse)
      as (best & -> & Hin & _); [rewrite Hc; discriminate|].
    eexists. split; [reflexivity|]. simpl. intros p Hp. injection Hp as <-.
    split; [exact Hin|].
    apply findCandidates_inv in Hin. destruct Hin as (s & e & Hr & Heq & Hfree & _).
    exists s, e. auto.
Qed.

Section Widths.

Variable measureText : R -> ascii -> R.

(** The running [currentDistance] of [placeText] after the characters
    [text], started at [currentDistance]. *)
Lemma widths_foldl_shift (fontSize : R) (text : list ascii) (a b : R) :
  foldl (fun totalWidth char => totalWidth + measureText fontSize char) (a + b) text
  = a + foldl (fun totalWidth char => totalWidth + measureText fontSize char) b text.
Proof.
  revert b. induction text as [|c cs IH]; intros b; simpl; [reflexivity|].
  rewrite <- IH. f_equal. ring.
Qed.

Lemma widths_foldl_nonneg (fontSize : R) (text : list ascii) :
  (forall char, 0 <= measureText fontSize char) ->
  0 <= foldl (fun totalWidth char => totalWidth + measureText fontSize char) 0 text.
Proof.
  intros Hpos. induction text as [|c cs IH]; simpl; [lra|].
  rewrite Rplus_comm, widths_foldl_shift. specialize (Hpos c). lra.
Qed.

Lemma anchorDistances_bounds (fontSize : R) (text : list ascii) :
  (forall char, 0 <= measureText fontSize char) ->
  forall currentDistance,
    Forall (fun d => currentDistance <= d
                     <= currentDistance
                        + foldl (fun totalWidth char => totalWidth + measureText fontSize char)
                                0 text)
           (anchorDistances measureText fontSize currentDistance text).
Proof.
  intros Hpos. induction text as [|c cs IH]; intros cur; simpl; [constructor|].
  pose proof (Hpos c) as Hc.
  pose proof (widths_foldl_nonneg fontSize cs Hpos) as Hrest.
  rewrite (Rplus_comm 0), widths_foldl_shift.
  constructor; [lra|].
  eapply Forall_impl; [apply IH|]. simpl. intros d Hd. lra.
Qed.

Lemma anchorDistances_positive (fontSize : R) (text : list ascii) :
  (forall char, 0 < measureText fontSize char) ->
  forall currentDistance,
    0 <= currentDistance ->
    Forall (fun d => 0 < d) (anchorDistances measureText fontSize currentDistance text).
Proof.
  intros Hpos. induction text as [|c cs IH]; intros cur Hcur; simpl; [constructor|].
  pose proof (Hpos c) as Hc.
  constructor; [lra | apply IH; lra].
Qed.

Lemma placeChars_widths (path : option RiverPath) (startIdx : Z) (fontSize : R)
    (text : list ascii) :
  forall currentDistance placements,
    placeChars measureText path startIdx fontSize currentDistance text = Ok placements ->
    map cp_width placements = map (measureText fontSize) text.
Proof.
  induction text as [|c cs IH]; intros cur pls Hpl; simpl in Hpl.
  - injection Hpl as <-. reflexivity.
  - destruct (interpolatePosition _ _ _) as [pos | e]; [|discriminate].
    destruct (placeChars _ _ _ _ _ cs) as [rest | e] eqn:Hrest; [|discriminate].
    injection Hpl as <-. simpl. f_equal. exact (IH _ _ Hrest).
Qed.

Lemma measureTextLength_foldl (text : string) :
  TextMeasure.measureTextLength measureText text
  = foldl (fun totalWidth char => totalWidth + measureText 16 char) 0
          (list_ascii_of_string text).
Proof.
  unfold TextMeasure.measureTextLength. destruct (list_ascii_of_string text); reflexivity.
Qed.

End Widths.

Lemma length_list_ascii_of_string (text : string) :
  length (list_ascii_of_string text) = String.length text.
Proof. induction text as [|c cs IH]; simpl; [reflexivity | f_equal; exact IH]. Qed.

(** Placements anchored at positive distances that the window can hold
    sit inside the window. *)
Lemma placements_inside_window (path : RiverPath) (s e : nat)
    (placements : list CharacterPlacement) (ds : list R) :
  (s <= e < length (points path))%nat ->
  Forall2 (placedAt (Some path) (Z.of_nat s)) placements ds ->
  Forall (fun d => 0 < d <= segmentLength path s e) ds ->
  Forall (insideWindow path s e) placements.
Proof.
  intros Hr Hat. induction Hat as [|p d pls ds Hp Hat IH]; intros Hds; [constructor|].
  inversion Hds as [|? ? Hd Hds']; subst.
  constructor; [|apply IH; exact Hds'].
  destruct (interpolatePosition_locate path s e d) as (i & t & Hi & Ht & _ & Hpos);
    [exact Hr | lra | lra |].
  unfold placedAt in Hp. rewrite Hpos in Hp. injection Hp as Hx Hy Ha.
  exists i, t. split; [exact Hi|]. split; [lra|].
  unfold onSegment. rewrite Hx, Hy, Ha. reflexivity.
Qed.

(** Without a canvas the character widths of a text add up, in exact
    arithmetic, to what the scorer computes for it. *)
Lemma no_canvas_total (text : string) :
  TextMeasure.measureTextLength fallbackMeasure text = NoCanvas.measureTextLength text 16.
Proof.
  rewrite measureTextLength_foldl. unfold NoCanvas.measureTextLength.
  rewrite <- length_list_ascii_of_string.
  induction (list_ascii_of_string text) as [|c cs IH]; [simpl; lra|].
  change (foldl (fun totalWidth char => totalWidth + fallbackMeasure 16 char) 0 (c :: cs))
    with (foldl (fun totalWidth char => totalWidth + fallbackMeasure 16 char)
                (0 + fallbackMeasure 16 c) cs).
  rewrite Rplus_comm, widths_foldl_shift, IH.
  change (length (c :: cs)) with (S (length cs)). rewrite S_INR.
  unfold fallbackMeasure. lra.
Qed.

Lemma bestStep_In (rest : list Candidate) :
  forall b p,
    fst (foldl bestStep (b, p) rest) = b \/ In (fst (foldl bestStep (b, p) rest)) rest.
Proof.
  induction rest as [|c rest IH]; intros b p; [left; reflexivity|].
  change (foldl bestStep (b, p) (c :: rest))
    with (foldl bestStep (bestStep (b, p) c) rest).
  assert (bestStep (b, p) c
          = if Rgt_dec (position c) p then (c, position c) else (b, p)) as ->
    by reflexivity.
  destruct (Rgt_dec (position c) p).
  - destruct (IH c (position c)) as [-> | H]; right; [left; reflexivity | right; exact H].
  - destruct (IH b p) as [-> | H]; [left; reflexivity | right; right; exact H].
Qed.

(** Whatever the scores, a candidate [selectOptimal] returns is one of the
    list, and it returns one whenever it returns on a non-empty list. *)
Lemma selectOptimal_returns (candidates : list Candidate) (optimal : option Candidate) :
  selectOptimal candidates = Ok optimal ->
  candidates <> [] ->
  exists best, optimal = Some best /\ In best candidates.
Proof.
  intros Hsel Hne. destruct candidates as [|c1 [|c2 cs]]; [congruence | |].
  - simpl in Hsel. injection Hsel as <-. exists c1. split; [reflexivity | left; reflexivity].
  - rewrite selectOptimal_two_or_more in Hsel. unfold selectAmong in Hsel.
    set (l := c1 :: c2 :: cs) in *.
    destruct (List.filter _ l) as [|c0 rest] eqn:Hf; [discriminate|].
    injection Hsel as <-. eexists. split; [reflexivity|].
    assert (In (fst (foldl bestStep (c0, position c0) rest)) (c0 :: rest)) as Hin.
    { destruct (bestStep_In rest c0 (position c0)) as [-> | H];
        [left; reflexivity | right; exact H]. }
    rewrite <- Hf in Hin. apply filter_In in Hin. tauto.
Qed.

(** The placement of a result of [findOptimalPlacement] is a window of the
    path. *)
Lemma findOptimalPlacement_window (measureTextLength : string -> R -> R)
    (path : RiverPath) (text : string) (fontSize : R) (metrics : GeometryMetrics)
    (result : PlacementResult) (p : Candidate) :
  findOptimalPlacement measureTextLength path text fontSize metrics = Ok result ->
  placement result = Some p ->
  exists s e,
    (s < e < length (points path))%nat
    /\ p = mkCand path metrics s e (segmentLength path s e).
Proof.
  unfold findOptimalPlacement. cbv zeta.
  set (tl := measureTextLength text fontSize).
  destruct (findCandidates path tl metrics) as [|c0 cs] eqn:Hc.
  - destruct (_findAllValidSegments path metrics) as [|f fs] eqn:Hs.
    + intros [= <-]. simpl. discriminate.
    + intros [= <-]. simpl. intros [= <-].
      destruct (longestOf_spec (f :: fs) f) as (Hin & _). cbv zeta in Hin.
      assert (In (longestOf f (f :: fs)) (_findAllValidSegments path metrics)) as Hin'.
      { rewrite Hs. destruct Hin as [-> | Hin]; [left; reflexivity | exact Hin]. }
      apply _findAllValidSegments_spec in Hin'.
      destruct Hin' as (s & e & (Hr & _) & Heq). exists s, e. auto.
  - destruct (selectOptimal (c0 :: cs)) as [optimal | err] eqn:Hsel; [|discriminate].
    intros [= <-]. simpl. intros ->.
    destruct (selectOptimal_returns _ _ Hsel ltac:(discriminate)) as (best & Hb & Hin).
    injection Hb as <-. rewrite <- Hc in Hin.
    apply findCandidates_inv in Hin. destruct Hin as (s & e & Hr & Heq & _).
    exists s, e. auto.
Qed.

(** With candidates, the result carries one of them, and no warning. *)
Lemma findOptimalPlacement_candidate (measureTextLength : string -> R -> R)
    (path : RiverPath) (text : string) (fontSize : R) (metrics : GeometryMetrics)
    (result : PlacementResult) :
  findOptimalPlacement measureTextLength path text fontSize metrics = Ok result ->
  findCandidates path (measureTextLength text fontSize) metrics <> [] ->
  exists best,
    placement result = Some best
    /\ warning result = None
    /\ In best (findCandidates path (measureTextLength text fontSize) metrics).
Proof.
  unfold findOptimalPlacement. cbv zeta.
  set (tl := measureTextLength text fontSize).
  destruct (findCandidates path tl metrics) as [|c0 cs] eqn:Hc; [congruence|].
  destruct (selectOptimal (c0 :: cs)) as [optimal | err] eqn:Hsel; [|discriminate].
  intros [= <-] _. simpl.
  destruct (selectOptimal_returns _ _ Hsel ltac:(discriminate)) as (best & -> & Hin).
  exists best. auto.
Qed.

End PipelineFacts.

Import PipelineFacts.

Section PipelineExtras.

Local Open Scope R_scope.

(** X19.  [findOptimalPlacement] when candidates exist and their overall
    scores lie in [0, 100]: it returns, with no warning, the candidate
    list and the measured text length, one of the candidates with the
    highest overall score, and the window of that candidate is at least
    as long as the measured text. *)
Theorem findOptimalPlacement_selects_best_candidate
    (measureTextLength : string -> R -> R) (path : RiverPath)
    (text : string) (fontSize : R) (metrics : GeometryMetrics) :
  let textLength := measureTextLength text fontSize in
  let candidates := findCandidates path textLength metrics in
  candidates <> [] ->
  Forall (fun c => inRange (score c)) candidates ->
  exists best,
    findOptimalPlacement measureTextLength path text fontSize metrics
    = Ok (mkPlacementResult (Some best) None candidates textLength)
    /\ In best candidates
    /\ (forall c, In c candidates -> score c <= score best)
    /\ textLength <= seg_length (segment best).
Proof.
  cbv zeta. set (tl := measureTextLength text fontSize). intros Hne Hscores.
  destruct (selectOptimal_Ok (findCandidates path tl metrics) Hne)
    as (best & Hsel & Hin & Hmax).
  { intros c Hc. pose proof (proj1 (List.Forall_forall _ _) Hscores c Hc) as H.
    unfold inRange in H. simpl in H. lra. }
  exists best. split; [|split; [exact Hin | split; [exact Hmax|]]].
  - unfold findOptimalPlacement. cbv zeta. fold tl.
    destruct (findCandidates path tl metrics) as [|c0 cs] eqn:Hc; [congruence|].
    rewrite Hsel. reflexivity.
  - apply findCandidates_inv in Hin.
    destruct Hin as (s & e & _ & -> & _ & Hlong). exact Hlong.
Qed.

(** X20.  [renderPipeline] on a parsed path goes wrong only where the
    scorer does: when [findOptimalPlacement] returns a result, the
    pipeline returns the metrics, that result and the placements.  With a
    placement in the result (a candidate, or the longest fallback
    segment), [placeText] is called at the start index of a window of the
    path and returns one placement per character of the river name, in
    order; with none, no character is placed. *)
Theorem renderPipeline_places_every_character
    (parsePolygon : string -> Result (list (R * R)))
    (measureTextLength : string -> R -> R) (measureText : R -> ascii -> R)
    (data : ParseInput) (path : RiverPath) (name : string) (result : PlacementResult) :
  parse parsePolygon data = Ok path ->
  findOptimalPlacement measureTextLength path name 16 (analyzeGeometry path) = Ok result ->
  exists placements,
    renderPipeline measureTextLength measureText path name
    = Ok (analyzeGeometry path, result, placements)
    /\ match placement result with
       | Some p =>
           (seg_startIdx (segment p) < seg_endIdx (segment p) < length (points path))%nat
           /\ map cp_char placements = list_ascii_of_string name
           /\ length placements = String.length name
       | None => placements = []
       end.
Proof.
  intros Hparse Hres.
  pose proof (parse_at_least_3 _ _ _ Hparse) as Hn.
  unfold renderPipeline. cbv zeta. rewrite Hres.
  destruct (placement result) as [p|] eqn:Hp.
  - destruct (findOptimalPlacement_window _ _ _ _ _ _ _ Hres Hp) as (s & e & Hr & ->).
    unfold mkCand. simpl.
    assert (0 <= Z.of_nat s < Z.of_nat (length (points path)))%Z as Hs by lia.
    destruct (placeChars_Ok measureText path (Z.of_nat s) 16
                (list_ascii_of_string name) ltac:(lia) Hs 0) as (pls & Hpl & Hchars & _).
    assert (placeText measureText name (Some path) (Z.of_nat s) 16 = Ok pls) as ->.
    { unfold placeText. destruct (list_ascii_of_string name) as [|c cs] eqn:Ht.
      - simpl in Hpl. congruence.
      - rewrite checkPath_Ok by exact Hs. exact Hpl. }
    exists pls. split; [reflexivity|].
    split; [lia|]. split; [exact Hchars|].
    rewrite <- (length_map cp_char), Hchars. apply length_list_ascii_of_string.
  - exists []. split; reflexivity.
Qed.


(** X22.  The anchors of [placeText] at the font size 16 against
    [TextPlacer.measureTextLength]: with glyph widths that are not
    negative, every character is placed where [interpolatePosition] puts a
    distance between 0 and the measured length of the text, and the widths
    stored in the placements add up to that length. *)
Theorem placeText_anchors_within_measured_length
    (measureText : R -> ascii -> R) (text : string) (path : RiverPath)
    (startIdx : Z) :
  (forall char, 0 <= measureText 16 char) ->
  (2 <= length (points path))%nat ->
  (0 <= startIdx < Z.of_nat (length (points path)))%Z ->
  exists placements,
    placeText measureText text (Some path) startIdx 16 = Ok placements
    /\ Forall2 (placedAt (Some path) startIdx) placements
               (anchorDistances measureText 16 0 (list_ascii_of_string text))
    /\ Forall (fun d => 0 <= d <= TextMeasure.measureTextLength measureText text)
              (anchorDistances measureText 16 0 (list_ascii_of_string text))
    /\ foldl (fun totalWidth width => totalWidth + width) 0 (map cp_width placements)
       = TextMeasure.measureTextLength measureText text.
Proof.
  intros Hpos Hn Hr.
  destruct (placeChars_Ok measureText path startIdx 16
              (list_ascii_of_string text) Hn Hr 0) as (pls & Hpl & Hchars & Hat).
  exists pls. split; [|split; [exact Hat | split]].
  - unfold placeText. destruct (list_ascii_of_string text) as [|c cs] eqn:Ht.
    + simpl in Hpl. congruence.
    + rewrite checkPath_Ok by exact Hr. exact Hpl.
  - rewrite measureTextLength_foldl.
    eapply Forall_impl; [apply (anchorDistances_bounds measureText 16 _ Hpos 0)|].
    simpl. intros d Hd. lra.
  - rewrite measureTextLength_foldl, (placeChars_widths _ _ _ _ _ _ _ Hpl).
    change (map (measureText 16) (list_ascii_of_string text))
      with (measureText 16 <$> list_ascii_of_string text).
    rewrite foldl_fmap. reflexivity.
Qed.

End PipelineExtras.

Section NoCanvasMeasures.

Import PrimFloat Doubles DoublesVocabulary DoublesFacts.

Local Open Scope float_scope.

(** X23.  The two measurements without a canvas, in the program's own
    arithmetic.  The scorer measures a name as
    [text.length * fontSize * 0.6], the placer adds [16 * 0.6] once per
    character.  At the font size 16 the two give the same number for
    every name of at most five characters; for the ten characters of
    [ELBE RIVER] the scorer gives 96 and the placer 95.99999999999999. *)
#[warnings="-inexact-float"]
Theorem no_canvas_measures_round_apart :
  (forall text, (String.length text <= 5)%nat ->
                placerTextLength text = measureTextLength text 16)
  /\ measureTextLength "ELBE RIVER" 16 = 96
  /\ placerTextLength "ELBE RIVER" = 95.99999999999999
  /\ (placerTextLength "ELBE RIVER" <? measureTextLength "ELBE RIVER" 16) = true.
Proof.
  split; [|repeat split; vm_compute; reflexivity].
  intros text Hlen. rewrite placerTextLength_by_length. unfold measureTextLength.
  destruct (String.length text) as [|[|[|[|[|[|n]]]]]];
    [vm_compute; reflexivity .. | lia].
Qed.

End NoCanvasMeasures.

Section NoCanvasExtras.

Local Open Scope R_scope.


End NoCanvasExtras.

Section PipelineWitnesses.

Local Open Scope R_scope.

Lemma segmentLength_lateWidthPath_2_3 : segmentLength lateWidthPath 2 3 = 10.
Proof.
  unfold GeometryAnalyzer._calculateSegmentLength, distance. simpl. eval_sqrt. lra.
Qed.

Lemma segmentLength_shortPath : segmentLength shortPath 0 1 = 10.
Proof.
  unfold GeometryAnalyzer._calculateSegmentLength, distance. simpl. eval_sqrt. lra.
Qed.

Lemma lateWidthPath_has_candidate (textLength : R) :
  textLength <= 10 ->
  findCandidates lateWidthPath textLength (analyzeGeometry lateWidthPath) <> [].
Proof.
  intros Hle Hnil.
  assert (In (mkCand lateWidthPath (analyzeGeometry lateWidthPath) 2 3
                (segmentLength lateWidthPath 2 3))
             (findCandidates lateWidthPath textLength (analyzeGeometry lateWidthPath))) as Hin.
  { destruct validRun_lateWidthPath as (Hr & Hfree & _).
    apply findCandidates_complete.
    - exact Hr.
    - rewrite analyzeGeometry_lateWidthPath. exact Hfree.
    - rewrite segmentLength_lateWidthPath_2_3. exact Hle. }
  rewrite Hnil in Hin. destruct Hin.
Qed.

Lemma findOptimalPlacement_selects_best_candidate_witness :
  findCandidates lateWidthPath 10 (analyzeGeometry lateWidthPath) <> []
  /\ Forall (fun c => inRange (score c))
            (findCandidates lateWidthPath 10 (analyzeGeometry lateWidthPath))
  /\ exists best,
       findOptimalPlacement (fun _ _ => 10) lateWidthPath "Nile" 16
         (analyzeGeometry lateWidthPath)
       = Ok (mkPlacementResult (Some best) None
               (findCandidates lateWidthPath 10 (analyzeGeometry lateWidthPath)) 10)
       /\ 10 <= seg_length (segment best).
Proof.
  assert (findCandidates lateWidthPath 10 (analyzeGeometry lateWidthPath) <> []) as H1
    by (apply lateWidthPath_has_candidate; lra).
  assert (Forall (fun c => inRange (score c))
                 (findCandidates lateWidthPath 10 (analyzeGeometry lateWidthPath))) as H2.
  { apply (List.Forall_impl (fun c => inRange (score c))
             (fun c (Hc : scoresInRange c) => proj2 (proj2 (proj2 (proj2 Hc))))).
    exact (pipeline_scores_in_range (fun _ => Throw TypeError)
             (CoordinateArray lateWidthCoords) lateWidthPath 10 build_lateWidthPath). }
  split; [exact H1|]. split; [exact H2|].
  destruct (findOptimalPlacement_selects_best_candidate (fun _ _ => 10) lateWidthPath
              "Nile" 16 (analyzeGeometry lateWidthPath) H1 H2)
    as (best & Hres & _ & _ & Hlong).
  exists best. split; [exact Hres | exact Hlong].
Defined.

Lemma renderPipeline_places_every_character_witness :
  parse (fun _ => Throw TypeError) (CoordinateArray lateWidthCoords) = Ok lateWidthPath
  /\ exists result,
       findOptimalPlacement (fun _ _ => 10) lateWidthPath "Nile" 16
         (analyzeGeometry lateWidthPath) = Ok result
       /\ exists placements,
            renderPipeline (fun _ _ => 10) fallbackMeasure lateWidthPath "Nile"
            = Ok (analyzeGeometry lateWidthPath, result, placements).
Proof.
  split; [exact build_lateWidthPath|].
  destruct (findOptimalPlacement_Ok (fun _ _ => 10) (fun _ => Throw TypeError)
              (CoordinateArray lateWidthCoords) lateWidthPath "Nile" 16 build_lateWidthPath)
    as (result & Hres & _).
  exists result. split; [exact Hres|].
  destruct (renderPipeline_places_every_character (fun _ => Throw TypeError) (fun _ _ => 10)
              fallbackMeasure (CoordinateArray lateWidthCoords) lateWidthPath "Nile"
              result build_lateWidthPath Hres) as (placements & Hpipe & _).
  exists placements. exact Hpipe.
Defined.


Lemma placeText_anchors_within_measured_length_witness :
  (forall char, 0 <= fallbackMeasure 16 char)
  /\ (2 <= length (points shortPath))%nat
  /\ (0 <= 0 < Z.of_nat (length (points shortPath)))%Z
  /\ exists placements,
       placeText fallbackMeasure "Nile" (Some shortPath) 0 16 = Ok placements
       /\ foldl (fun totalWidth width => totalWidth + width) 0 (map cp_width placements)
          = TextMeasure.measureTextLength fallbackMeasure "Nile".
Proof.
  assert (forall char, 0 <= fallbackMeasure 16 char) as H1
    by (intros char; unfold fallbackMeasure; lra).
  assert (2 <= length (points shortPath))%nat as H2 by (simpl; lia).
  assert (0 <= 0 < Z.of_nat (length (points shortPath)))%Z as H3 by (simpl; lia).
  split; [exact H1|]. split; [exact H2|]. split; [exact H3|].
  destruct (placeText_anchors_within_measured_length fallbackMeasure "Nile"
              shortPath 0 H1 H2 H3) as (placements & Hpl & _ & _ & Hsum).
  exists placements. split; [exact Hpl | exact Hsum].
Defined.


End PipelineWitnesses.

(* ====================================================================== *)
(** * The renderer: fitting the path into the canvas *)
(* ====================================================================== *)

Module CanvasFacts.
Import CanvasRenderer.
Local Open Scope R_scope.

(** The scale [fitToCanvas] picks: positive, and small enough for the
    data to fit both ways. *)
Lemma fit_scale (aw ah dw dh : R) :
  0 < aw -> 0 < ah -> 0 < dw -> 0 < dh ->
  let s := Rmin (aw / dw) (ah / dh) in
  0 < s /\ dw * s <= aw /\ dh * s <= ah /\ (dw * s = aw \/ dh * s = ah).
Proof.
  intros Haw Hah Hdw Hdh. cbv zeta.
  assert (0 < aw / dw) as H1 by (apply Rdiv_lt_0_compat; assumption).
  assert (0 < ah / dh) as H2 by (apply Rdiv_lt_0_compat; assumption).
  assert (dw * (aw / dw) = aw) as E1 by (field; lra).
  assert (dh * (ah / dh) = ah) as E2 by (field; lra).
  unfold Rmin. destruct (Rle_dec (aw / dw) (ah / dh)) as [Hle | Hgt].
  - split; [exact H1|]. split; [lra|]. split; [|left; exact E1].
    rewrite <- E2. apply Rmult_le_compat_l; lra.
  - split; [exact H2|]. split; [|split; [lra | right; exact E2]].
    rewrite <- E1. apply Rmult_le_compat_l; lra.
Qed.

Lemma build_rightAnglePath : build (JArray rightAngleCoords) = Ok rightAnglePath.
Proof.
  unfold build, rightAnglePath. simpl.
  unfold totalLengthOf, boundsOf. simpl.
  eval_sqrt. unfold Rmin, Rmax. Rdecide.
  do 2 f_equal. lra.
Qed.

End CanvasFacts.

Import CanvasRenderer CanvasFacts.

Section CanvasExtras.

Local Open Scope R_scope.


End CanvasExtras.

Section CanvasWitness.

Local Open Scope R_scope.


End CanvasWitness.
